(** * Formation string decoder of train-formation-view2

    A shallow embedding of [src/app/services/formation.service.ts]:
    the tokenizer, the bracket extractor, the vehicle token decoder,
    the vehicle group decoder, the segment processor, the section
    assembler, the cross-section finalizer and the travel direction
    resolver, followed by the properties the decoder is expected to
    satisfy.

    JavaScript strings are modelled by [string]; a character is one
    code unit restricted to the 8-bit range.  Positions and indices
    are [nat]; the results of [indexOf], which may be -1, are [Z]. *)

From Stdlib Require Import String Ascii List Bool Arith ZArith Lia Permutation.
Import ListNotations.
Open Scope string_scope.
Open Scope bool_scope.

(** ** JavaScript string primitives *)

Module JS.

(** White space removed by [String.prototype.trim], as far as it
    lies in the 8-bit range: TAB, LF, VT, FF, CR, SP and NBSP. *)
Definition isWhiteSpace (c : ascii) : bool :=
  existsb (Ascii.eqb c)
    ["009"%char; "010"%char; "011"%char; "012"%char; "013"%char;
     " "%char; "160"%char].

(** [/[A-Z]/] on one character. *)
Definition isUpper (c : ascii) : bool :=
  (65 <=? nat_of_ascii c)%nat && (nat_of_ascii c <=? 90)%nat.

(** [\d] on one character. *)
Definition isDigit (c : ascii) : bool :=
  (48 <=? nat_of_ascii c)%nat && (nat_of_ascii c <=? 57)%nat.

(** Truthiness of a string: [!!s]. *)
Definition truthy (s : string) : bool :=
  match s with EmptyString => false | String _ _ => true end.

Fixpoint dropWhile (p : ascii -> bool) (s : string) : string :=
  match s with
  | EmptyString => EmptyString
  | String c s' => if p c then dropWhile p s' else s
  end.

Fixpoint takeWhile (p : ascii -> bool) (s : string) : string :=
  match s with
  | EmptyString => EmptyString
  | String c s' => if p c then String c (takeWhile p s') else EmptyString
  end.

Fixpoint trimEnd (s : string) : string :=
  match s with
  | EmptyString => EmptyString
  | String c s' =>
      let t := trimEnd s' in
      if isWhiteSpace c && negb (truthy t) then EmptyString else String c t
  end.

Definition trim (s : string) : string := trimEnd (dropWhile isWhiteSpace s).

Definition startsWith (p s : string) : bool := prefix p s.

Fixpoint endsWith (p s : string) : bool :=
  String.eqb s p ||
  match s with
  | EmptyString => false
  | String _ s' => endsWith p s'
  end.

Fixpoint includes (p s : string) : bool :=
  prefix p s ||
  match s with
  | EmptyString => false
  | String _ s' => includes p s'
  end.

Fixpoint drop (n : nat) (s : string) : string :=
  match n, s with
  | 0, _ => s
  | S _, EmptyString => EmptyString
  | S n', String _ s' => drop n' s'
  end.

Fixpoint take (n : nat) (s : string) : string :=
  match n, s with
  | 0, _ => EmptyString
  | S _, EmptyString => EmptyString
  | S n', String c s' => String c (take n' s')
  end.

(** [s.substring(a, b)]: both arguments are clamped to the length and
    swapped when [a > b].  A negative argument is clamped to 0 by the
    caller ([Z.to_nat]). *)
Definition substring (s : string) (a b : nat) : string :=
  let a' := Nat.min a (String.length s) in
  let b' := Nat.min b (String.length s) in
  take (Nat.max a' b' - Nat.min a' b') (drop (Nat.min a' b') s).

(** [s.substring(a)]. *)
Definition substringFrom (s : string) (a : nat) : string :=
  substring s a (String.length s).

(** [s.indexOf(c, from)] for a one-character needle: the first index
    not below [from] holding [c], or -1. *)
Fixpoint indexOfAux (c : ascii) (s : string) (i from : nat) : Z :=
  match s with
  | EmptyString => (-1)%Z
  | String x s' =>
      if (from <=? i)%nat && Ascii.eqb x c then Z.of_nat i
      else indexOfAux c s' (S i) from
  end.

Definition indexOf (c : ascii) (s : string) (from : Z) : Z :=
  indexOfAux c s 0 (Z.to_nat from).

(** [s.split(sep)] on a set of one-character separators (a character
    class or a single character); empty pieces are kept. *)
Fixpoint splitOn (sep : ascii -> bool) (s : string) (cur : string)
  : list string :=
  match s with
  | EmptyString => [cur]
  | String c s' =>
      if sep c then cur :: splitOn sep s' EmptyString
      else splitOn sep s' (cur ++ String c EmptyString)
  end.

Definition split (sep : ascii -> bool) (s : string) : list string :=
  splitOn sep s EmptyString.

(** [s.replace(/[...]/g, '')]: every character of the class removed. *)
Fixpoint removeAll (p : ascii -> bool) (s : string) : string :=
  match s with
  | EmptyString => EmptyString
  | String c s' => if p c then removeAll p s' else String c (removeAll p s')
  end.

(** Membership of a character in a class written as a string. *)
Fixpoint oneOf (cls : string) (c : ascii) : bool :=
  match cls with
  | EmptyString => false
  | String x cls' => Ascii.eqb c x || oneOf cls' c
  end.

(** Removal of a literal prefix, [None] when it is not there. *)
Fixpoint stripPrefix (p s : string) : option string :=
  match p, s with
  | EmptyString, _ => Some s
  | String _ _, EmptyString => None
  | String a p', String b s' =>
      if Ascii.eqb a b then stripPrefix p' s' else None
  end.

End JS.
Import JS.

(** ** Data model *)

Inductive TokenType :=
| SECTOR
| FICTITIOUS_WAGON
| BRACKET_OPEN
| BRACKET_CLOSE
| PARENTHESIS_OPEN
| PARENTHESIS_CLOSE
| COMMA
| BACKSLASH
| VEHICLE
| UNKNOWN.

Definition TokenType_eqb (a b : TokenType) : bool :=
  match a, b with
  | SECTOR, SECTOR | FICTITIOUS_WAGON, FICTITIOUS_WAGON
  | BRACKET_OPEN, BRACKET_OPEN | BRACKET_CLOSE, BRACKET_CLOSE
  | PARENTHESIS_OPEN, PARENTHESIS_OPEN
  | PARENTHESIS_CLOSE, PARENTHESIS_CLOSE
  | COMMA, COMMA | BACKSLASH, BACKSLASH
  | VEHICLE, VEHICLE | UNKNOWN, UNKNOWN => true
  | _, _ => false
  end.

Record FormationToken := mkToken {
  tokType : TokenType;
  tokValue : string;
  tokPosition : nat
}.

Inductive WagonStatus :=
| CLOSED
| GROUP_BOARDING
| RESERVED_FOR_TRANSIT
| UNSERVICED.

Record WagonAttribute := mkAttribute {
  code : string;
  label : string;
  icon : string
}.

Record TrainWagon := mkWagon {
  position : nat;
  number : string;
  type : string;
  typeLabel : string;
  classes : list string;
  attributes : list WagonAttribute;
  noAccessToPrevious : bool;
  noAccessToNext : bool;
  sector : string;
  noAccessMessage : option string;
  statusCodes : list WagonStatus
}.

Record TrainSection := mkSection {
  sectionSector : string;
  wagons : list TrainWagon
}.


(** ** Static tables *)

Definition WAGON_TYPES : list string :=
  ["1"; "2"; "12"; "CC"; "FA"; "WL"; "WR"; "W1"; "W2"; "LK"; "D"; "K"; "X"].

Definition STATUS_CHARS : list string := ["-"; ">"; "="; "%"].

(** [WAGON_TYPE_MAPPING] as [Object.entries] enumerates it: the
    integer-like keys 1, 2, 12 first in ascending order, the other
    keys in the order the literal writes them. *)
Definition WAGON_TYPE_MAPPING : list (string * string) :=
  [("1", "first-class"); ("2", "second-class");
   ("12", "first-and-second-class");
   ("LK", "locomotive"); ("CC", "couchette"); ("FA", "second-class");
   ("FZ", "second-class"); ("WL", "sleeper"); ("WR", "restaurant");
   ("W1", "restaurant-first"); ("W2", "restaurant-second");
   ("D", "baggage"); ("K", "classless"); ("X", "parked")].

Definition TYPE_LABELS : list (string * string) :=
  [("locomotive", "Locomotive"); ("first-class", "1st Class Coach");
   ("second-class", "2nd Class Coach");
   ("first-and-second-class", "1st & 2nd Class Coach");
   ("couchette", "Couchette Compartments");
   ("sleeper", "Sleeping Compartments");
   ("restaurant", "2nd Class Coach");
   ("restaurant-first", "1st Class Coach");
   ("restaurant-second", "2nd Class Coach");
   ("baggage", "Luggage Coach"); ("classless", "Classless Coach");
   ("parked", "Parked Vehicle"); ("wagon", "Coach")].

Definition OFFER_MAPPING : list (string * (string * string)) :=
  [("BHP", ("Wheelchair Spaces", "wheelchair"));
   ("BZ", ("Business Zone", "business"));
   ("FZ", ("Family Zone", "family"));
   ("KW", ("Stroller Platform", "stroller"));
   ("LA", ("Luggage", "luggage"));
   ("NF", ("Low Floor Access", "accessible"));
   ("VH", ("Bike Hooks", "bicycle"));
   ("VR", ("Bike Hooks Reservation Required", "bicycle-reserved"));
   ("WL", ("Sleeping Compartments", "sleep"));
   ("CC", ("Couchette Compartments", "couchette"))].

(** Property lookup in a table keyed by strings. *)
Fixpoint lookup {A : Type} (k : string) (t : list (string * A)) : option A :=
  match t with
  | [] => None
  | (k', v) :: t' => if String.eqb k k' then Some v else lookup k t'
  end.

(** ** Vehicle token decoder *)

(** [parseWagonStatus]. *)
Definition parseWagonStatus (token : string) : list WagonStatus :=
  if startsWith "-" token || includes "(-" token || includes "@-" token
  then [CLOSED]
  else
    (if startsWith ">" token || includes ">" token
     then [GROUP_BOARDING] else [])
    ++ (if startsWith "=" token || includes "=" token
        then [RESERVED_FOR_TRANSIT] else [])
    ++ (if startsWith "%" token || includes "%" token
        then [UNSERVICED] else []).

(** Stable insertion by descending key length, the comparator
    [codeB.length - codeA.length] of [determineWagonType]. *)
Fixpoint insertByLength (x : string * string) (l : list (string * string))
  : list (string * string) :=
  match l with
  | [] => [x]
  | y :: l' =>
      if (String.length (fst x) <? String.length (fst y))%nat
      then y :: insertByLength x l'
      else x :: l
  end.

Definition sortedEntries : list (string * string) :=
  fold_right insertByLength [] WAGON_TYPE_MAPPING.

(** [new RegExp(`^${code}(?:[:#,]|$)`).test(token)]. *)
Definition anchoredCode (code token : string) : bool :=
  match stripPrefix code token with
  | None => false
  | Some EmptyString => true
  | Some (String c _) => oneOf ":#," c
  end.

Fixpoint firstEntry (p : string -> bool) (l : list (string * string))
  : option string :=
  match l with
  | [] => None
  | (code, ty) :: l' => if p code then Some ty else firstEntry p l'
  end.

(** [determineWagonType]. *)
Definition determineWagonType (token : string) : string :=
  match firstEntry (fun code => anchoredCode code token) sortedEntries with
  | Some ty => ty
  | None =>
      match firstEntry (fun code => includes code token) sortedEntries with
      | Some ty => ty
      | None => "wagon"
      end
  end.

(** [getTypeLabel]. *)
Definition getTypeLabel (ty : string) : string :=
  match lookup ty TYPE_LABELS with
  | Some l => if truthy l then l else "Coach"
  | None => "Coach"
  end.

(** [FAMILY_WAGON_REGEX.test]: [/F[AZ]/] anywhere in the token. *)
Fixpoint FAMILY_WAGON_REGEX (s : string) : bool :=
  match s with
  | EmptyString => false
  | String c s' =>
      (Ascii.eqb c "F" &&
       match s' with
       | String d _ => oneOf "AZ" d
       | EmptyString => false
       end)
      || FAMILY_WAGON_REGEX s'
  end.

(** [RESTAURANT_WAGON_REGEX.test]: [/W[12R]/] anywhere in the token. *)
Fixpoint RESTAURANT_WAGON_REGEX (s : string) : bool :=
  match s with
  | EmptyString => false
  | String c s' =>
      (Ascii.eqb c "W" &&
       match s' with
       | String d _ => oneOf "12R" d
       | EmptyString => false
       end)
      || RESTAURANT_WAGON_REGEX s'
  end.

(** The tail [(?:[:#,@)]|$)] of the class patterns. *)
Definition classDelimiterOrEnd (s : string) : bool :=
  match s with
  | EmptyString => true
  | String c _ => oneOf ":#,@)" c
  end.

(** [/^D(?:[:#,@)]|$)/] for a literal [D]. *)
Definition classAtStart (d s : string) : bool :=
  match stripPrefix d s with
  | Some r => classDelimiterOrEnd r
  | None => false
  end.

(** [/[LEAD]D(?:[:#,@)]|$)/] anywhere: one character of the class
    [lead], the literal [d], then a delimiter or the end. *)
Fixpoint classAfter (lead : string) (d : string) (s : string) : bool :=
  match s with
  | EmptyString => false
  | String c s' => (oneOf lead c && classAtStart d s') || classAfter lead d s'
  end.

(** [/^([12])(?::|\):|,:|@:)(\d+)/]: the captured class digit. *)
Definition classNumberMatch (s : string) : option string :=
  match s with
  | String c r =>
      if oneOf "12" c then
        let digitFollows (t : option string) :=
          match t with
          | Some (String d _) => isDigit d
          | _ => false
          end in
        if digitFollows (stripPrefix ":" r)
           || digitFollows (stripPrefix "):" r)
           || digitFollows (stripPrefix ",:" r)
           || digitFollows (stripPrefix "@:" r)
        then Some (String c EmptyString)
        else None
      else None
  | EmptyString => None
  end.

(** Removal of one leading [open] and one trailing [close]. *)
Definition stripLeading (c : string) (s : string) : string :=
  if startsWith c s then substringFrom s 1 else s.

Definition stripTrailing (c : string) (s : string) : string :=
  if endsWith c s then substring s 0 (String.length s - 1) else s.

Definition stripBracketsAndParentheses (s : string) : string :=
  stripTrailing ")" (stripLeading "(" (stripTrailing "]" (stripLeading "[" s))).

(** [determineWagonClasses]. *)
Definition determineWagonClasses (token : string) : list string :=
  if FAMILY_WAGON_REGEX token then ["2"]
  else
    let cleanToken := dropWhile (oneOf "-=>%") token in
    let cleanToken := stripBracketsAndParentheses cleanToken in
    match classNumberMatch cleanToken with
    | Some c => [c]
    | None =>
        if includes "WR" cleanToken then ["2"]
        else if includes "W1" cleanToken then ["1"]
        else if includes "W2" cleanToken then ["2"]
        else
          (if classAtStart "1" cleanToken
              || classAtStart "12" cleanToken
              || classAfter ",@" "1" cleanToken
              || classAfter "(" "1" cleanToken
           then ["1"] else [])
          ++ (if classAtStart "2" cleanToken
                 || classAtStart "12" cleanToken
                 || classAfter ",@" "2" cleanToken
                 || classAfter "(" "2" cleanToken
              then ["2"] else [])
    end.

(** [\d{0,max}] taken greedily and followed by [k], shorter runs being
    tried when [k] fails: the digits captured and the rest. *)
Fixpoint digitRun (max : nat) (s : string) (k : string -> bool)
  : option (string * string) :=
  let stop := if k s then Some (EmptyString, s) else None in
  match max, s with
  | S max', String d s' =>
      if isDigit d then
        match digitRun max' s' k with
        | Some (ds, r) => Some (String d ds, r)
        | None => stop
        end
      else stop
  | _, _ => stop
  end.

(** [(\d{1,3})] followed by [k]. *)
Definition digits1to3 (s : string) (k : string -> bool)
  : option (string * string) :=
  match s with
  | String d s' =>
      if isDigit d then
        match digitRun 2 s' k with
        | Some (ds, r) => Some (String d ds, r)
        | None => None
        end
      else None
  | EmptyString => None
  end.

(** The tail [(?:[:#]|$|[)])] of the first ordinal pattern. *)
Definition ordnrEnd (s : string) : bool :=
  match s with
  | EmptyString => true
  | String c _ => oneOf ":#)" c
  end.

(** [/[,:](\d{1,3})(?:[:#]|$|[)])/]: the first capture of the
    leftmost match. *)
Fixpoint ordnrPattern1 (s : string) : option string :=
  match s with
  | EmptyString => None
  | String c s' =>
      match (if oneOf ",:" c then digits1to3 s' ordnrEnd else None) with
      | Some (ds, _) => Some ds
      | None => ordnrPattern1 s'
      end
  end.

(** [/(\d{1,3}):(\d{1,3})/]: the second capture of the leftmost match. *)
Fixpoint ordnrPattern2 (s : string) : option string :=
  match s with
  | EmptyString => None
  | String _ s' =>
      let colonThenDigit (r : string) :=
        match r with
        | String c (String d _) => Ascii.eqb c ":" && isDigit d
        | _ => false
        end in
      match digits1to3 s colonThenDigit with
      | Some (_, r) =>
          match digits1to3 (substringFrom r 1) (fun _ => true) with
          | Some (ds, _) => Some ds
          | None => ordnrPattern2 s'
          end
      | None => ordnrPattern2 s'
      end
  end.

(** [extractOrdnr]. *)
Definition extractOrdnr (token : string) : option string :=
  match ordnrPattern1 token with
  | Some n => Some n
  | None => ordnrPattern2 token
  end.

(** [[A-Z;]] on one character. *)
Definition isOfferChar (c : ascii) : bool := isUpper c || Ascii.eqb c ";".

(** [/#([A-Z;]+)/]: the capture of the leftmost match. *)
Fixpoint offerMatch (s : string) : option string :=
  match s with
  | EmptyString => None
  | String c s' =>
      if Ascii.eqb c "#" && truthy (takeWhile isOfferChar s')
      then Some (takeWhile isOfferChar s')
      else offerMatch s'
  end.

Definition hasCode (c : string) (attrs : list WagonAttribute) : bool :=
  existsb (fun a => String.eqb (code a) c) attrs.

(** The loop over the explicit offers of [parseWagonAttributes]. *)
Fixpoint addOffers (offers : list string) (attrs : list WagonAttribute)
  : list WagonAttribute :=
  match offers with
  | [] => attrs
  | offer :: rest =>
      match lookup offer OFFER_MAPPING with
      | Some (l, i) =>
          if negb (hasCode offer attrs)
          then addOffers rest (attrs ++ [mkAttribute offer l i])
          else addOffers rest attrs
      | None => addOffers rest attrs
      end
  end.

(** [parseWagonAttributes]. *)
Definition parseWagonAttributes (token : string) : list WagonAttribute :=
  let attrs : list WagonAttribute :=
    ((if FAMILY_WAGON_REGEX token
     then [mkAttribute "FZ" "Family Zone" "family"] else [])
    ++ (if includes "D" token
        then [mkAttribute "LA" "Luggage" "luggage"] else [])
    ++ (if includes "WL" token
        then [mkAttribute "WL" "Sleeping Compartments" "sleep"] else [])
    ++ (if includes "CC" token
        then [mkAttribute "CC" "Couchette Compartments" "couchette"] else [])
    ++ (if RESTAURANT_WAGON_REGEX token && negb (includes "%" token)
        then [mkAttribute "WR" "Restaurant" "restaurant"] else []))%list in
  match offerMatch token with
  | None => attrs
  | Some offerList => addOffers (split (Ascii.eqb ";") offerList) attrs
  end.

(** The token once its leading status characters are removed: the
    value of [cleanTokenWithParentheses] in [parseVehicleToken]. *)
Definition statusStripped (token : string) : string :=
  if startsWith "-" token then substringFrom token 1
  else if existsb (fun c => startsWith c token) STATUS_CHARS
  then substringFrom token
         (String.length (takeWhile (oneOf "->=%") token))
  else token.

(** [parseVehicleToken]; [None] is the source's [null]. *)
Definition parseVehicleToken (token sector : string) (position : nat)
  : option TrainWagon :=
  if negb (truthy token) || String.eqb (trim token) "" then None
  else
    let statusCodes := parseWagonStatus token in
    let cleanTokenWithParentheses := statusStripped token in
    let cleanToken := stripBracketsAndParentheses cleanTokenWithParentheses in
    let wagonType := determineWagonType cleanToken in
    let typeLabel := getTypeLabel wagonType in
    let tokenForNumberExtraction := removeAll (oneOf "()[]") cleanToken in
    let ordnr := extractOrdnr tokenForNumberExtraction in
    let classes := determineWagonClasses cleanTokenWithParentheses in
    let attributes := parseWagonAttributes cleanToken in
    let noAccessToPrevious :=
      startsWith "(" cleanTokenWithParentheses || startsWith "(" token in
    let noAccessToNext :=
      endsWith ")" cleanTokenWithParentheses || endsWith ")" token in
    Some {| position := position;
            number := match ordnr with Some n => n | None => "" end;
            type := wagonType;
            typeLabel := typeLabel;
            classes := classes;
            attributes := attributes;
            noAccessToPrevious := noAccessToPrevious;
            noAccessToNext := noAccessToNext;
            sector := sector;
            noAccessMessage := None;
            statusCodes := statusCodes |}.

(** ** Tokenizer *)

(** [isPotentialWagonToken]. *)
Definition isPotentialWagonToken (token : string) : bool :=
  existsb (fun c => startsWith c token) STATUS_CHARS
  || existsb (fun t => includes t token) WAGON_TYPES.

(** [createToken]. *)
Definition createToken (value : string) (position : nat) : FormationToken :=
  if startsWith "@" value && (1 <? String.length value)%nat
  then mkToken SECTOR value position
  else if String.eqb value "F"
  then mkToken FICTITIOUS_WAGON value position
  else if isPotentialWagonToken value
  then mkToken VEHICLE value position
  else mkToken UNKNOWN value position.

(** The flush every structural character starts with:
    [if (currentToken) { tokens.push(createToken(...)); position++ }]. *)
Definition flush (tokens : list FormationToken) (currentToken : string)
  (position : nat) : list FormationToken * nat :=
  if truthy currentToken
  then ((tokens ++ [createToken currentToken position])%list, S position)
  else (tokens, position).

(** A structural character: flush, then push its own token. *)
Definition pushStructural (ty : TokenType) (value : string)
  (tokens : list FormationToken) (currentToken : string) (position : nat)
  : list FormationToken * nat :=
  let '(tokens, position) := flush tokens currentToken position in
  ((tokens ++ [mkToken ty value position])%list, S position).

(** The character loop of [tokenizeFormationString]; [s] is what is
    left of the input from index [i] on. *)
Fixpoint tokenizeLoop (s : string) (tokens : list FormationToken)
  (currentToken : string) (position : nat) : list FormationToken :=
  match s with
  | EmptyString =>
      if truthy currentToken
      then (tokens ++ [createToken currentToken position])%list
      else tokens
  | String char rest =>
      if Ascii.eqb char "@" then
        match rest with
        | String next rest' =>
            if isUpper next then
              let '(tokens, position) :=
                pushStructural SECTOR (String "@" (String next EmptyString))
                  tokens currentToken position in
              tokenizeLoop rest' tokens EmptyString position
            else
              let '(tokens, position) :=
                pushStructural SECTOR "@" tokens currentToken position in
              tokenizeLoop rest tokens EmptyString position
        | EmptyString =>
            let '(tokens, position) :=
              pushStructural SECTOR "@" tokens currentToken position in
            tokenizeLoop rest tokens EmptyString position
        end
      else if Ascii.eqb char "[" then
        let '(tokens, position) :=
          pushStructural BRACKET_OPEN "[" tokens currentToken position in
        tokenizeLoop rest tokens EmptyString position
      else if Ascii.eqb char "]" then
        let '(tokens, position) :=
          pushStructural BRACKET_CLOSE "]" tokens currentToken position in
        tokenizeLoop rest tokens EmptyString position
      else if Ascii.eqb char "(" then
        let '(tokens, position) :=
          pushStructural PARENTHESIS_OPEN "(" tokens currentToken position in
        tokenizeLoop rest tokens EmptyString position
      else if Ascii.eqb char ")" then
        let '(tokens, position) :=
          pushStructural PARENTHESIS_CLOSE ")" tokens currentToken position in
        tokenizeLoop rest tokens EmptyString position
      else if Ascii.eqb char "," then
        let '(tokens, position) :=
          pushStructural COMMA "," tokens currentToken position in
        tokenizeLoop rest tokens EmptyString position
      else if Ascii.eqb char "\" then
        let '(tokens, position) :=
          pushStructural BACKSLASH "\" tokens currentToken position in
        tokenizeLoop rest tokens EmptyString position
      else if Ascii.eqb char "F" && negb (truthy currentToken) then
        tokenizeLoop rest
          (tokens ++ [mkToken FICTITIOUS_WAGON "F" position])%list
          currentToken (S position)
      else
        tokenizeLoop rest tokens (currentToken ++ String char EmptyString)
          position
  end.

(** [tokenizeFormationString]. *)
Definition tokenizeFormationString (formationString : string)
  : list FormationToken :=
  tokenizeLoop formationString [] EmptyString 0.

(** ** Bracket extractor *)

(** The loop of [extractBracketContent]; [rest] is what is left of
    [str] from index [i] on, [start] is -1 until an opening character
    is met at depth 0. *)
Fixpoint extractLoop (openChar closeChar : ascii) (str rest : string)
  (i : nat) (depth start : Z) : option string :=
  match rest with
  | EmptyString => None
  | String c rest' =>
      if Ascii.eqb c openChar then
        extractLoop openChar closeChar str rest' (S i) (depth + 1)%Z
          (if (depth =? 0)%Z then Z.of_nat i + 1 else start)%Z
      else if Ascii.eqb c closeChar then
        if ((depth - 1 =? 0) && negb (start =? -1))%Z
        then Some (substring str (Z.to_nat start) i)
        else extractLoop openChar closeChar str rest' (S i) (depth - 1)%Z start
      else extractLoop openChar closeChar str rest' (S i) depth start
  end.

(** [extractBracketContent]; [None] is the source's [null]. *)
Definition extractBracketContent (str : string) (openChar closeChar : ascii)
  : option string :=
  extractLoop openChar closeChar str str 0 0%Z (-1)%Z.

(** ** Vehicle group decoder *)

(** [getAttributeObject]. *)
Definition getAttributeObject (c : string) : option WagonAttribute :=
  match lookup c OFFER_MAPPING with
  | Some (l, i) => Some (mkAttribute c l i)
  | None => None
  end.

(** [(?:#([A-Z;]+))?$]: [Some None] when the text ends here,
    [Some (Some offers)] when a [#] and offer characters run to the
    end, [None] when the text does not match. *)
Definition offerSuffix (r : string) : option (option string) :=
  match r with
  | EmptyString => Some None
  | String c r' =>
      if Ascii.eqb c "#" && truthy r'
         && negb (truthy (dropWhile isOfferChar r'))
      then Some (Some r')
      else None
  end.

(** [(?:[:#]\d+)?(?:#([A-Z;]+))?$]. *)
Definition groupSuffix (r : string) : option (option string) :=
  match r with
  | String c r' =>
      if oneOf ":#" c && truthy (takeWhile isDigit r') then
        match offerSuffix (dropWhile isDigit r') with
        | Some m => Some m
        | None => offerSuffix r
        end
      else offerSuffix r
  | EmptyString => offerSuffix r
  end.

(** [groupContent.match(/(?:\)|\])(?:[:#]\d+)?(?:#([A-Z;]+))?$/)]:
    [None] when there is no match, otherwise the first capture
    ([None] when the capture did not take part). *)
Fixpoint groupAttributesMatch (s : string) : option (option string) :=
  match s with
  | EmptyString => None
  | String c s' =>
      match (if oneOf ")]" c then groupSuffix s' else None) with
      | Some m => Some m
      | None => groupAttributesMatch s'
      end
  end.

Fixpoint collectAttributes (offerList : list string) : list WagonAttribute :=
  match offerList with
  | [] => []
  | offer :: rest =>
      match getAttributeObject offer with
      | Some attr => attr :: collectAttributes rest
      | None => collectAttributes rest
      end
  end.

(** Line terminators, which [.] does not match. *)
Definition isLineTerminator (c : ascii) : bool :=
  Ascii.eqb c "010" || Ascii.eqb c "013".

(** [.*?\)] from just after an opening parenthesis: the text up to and
    with the first closing one, if no line terminator comes before. *)
Fixpoint lazyToClose (s : string) : option string :=
  match s with
  | EmptyString => None
  | String c s' =>
      if Ascii.eqb c ")" then Some ")"
      else if isLineTerminator c then None
      else match lazyToClose s' with
           | Some m => Some (String c m)
           | None => None
           end
  end.

(** [groupContent.match(/\((.*?)\)/)]: the matched text [match[0]]. *)
Fixpoint groupParenthesisMatch (s : string) : option string :=
  match s with
  | EmptyString => None
  | String c s' =>
      match (if Ascii.eqb c "(" then lazyToClose s' else None) with
      | Some m => Some (String "(" m)
      | None => groupParenthesisMatch s'
      end
  end.

(** [value.match(/@([A-Z])/)]: the index of the leftmost match and
    the captured letter. *)
Fixpoint sectorMatchFrom (s : string) (i : nat) : option (nat * string) :=
  match s with
  | EmptyString => None
  | String c s' =>
      match s' with
      | String d _ =>
          if Ascii.eqb c "@" && isUpper d
          then Some (i, String d EmptyString)
          else sectorMatchFrom s' (S i)
      | EmptyString => None
      end
  end.

Definition sectorMatch (s : string) : option (nat * string) :=
  sectorMatchFrom s 0.

(** Field updates on a wagon object. *)
Definition setAttributes (w : TrainWagon) (a : list WagonAttribute) :=
  {| position := position w; number := number w; type := type w;
     typeLabel := typeLabel w; classes := classes w; attributes := a;
     noAccessToPrevious := noAccessToPrevious w;
     noAccessToNext := noAccessToNext w; sector := sector w;
     noAccessMessage := noAccessMessage w; statusCodes := statusCodes w |}.

Definition setNoAccessToPrevious (w : TrainWagon) (b : bool) :=
  {| position := position w; number := number w; type := type w;
     typeLabel := typeLabel w; classes := classes w;
     attributes := attributes w; noAccessToPrevious := b;
     noAccessToNext := noAccessToNext w; sector := sector w;
     noAccessMessage := noAccessMessage w; statusCodes := statusCodes w |}.

Definition setNoAccessToNext (w : TrainWagon) (b : bool) :=
  {| position := position w; number := number w; type := type w;
     typeLabel := typeLabel w; classes := classes w;
     attributes := attributes w;
     noAccessToPrevious := noAccessToPrevious w; noAccessToNext := b;
     sector := sector w; noAccessMessage := noAccessMessage w;
     statusCodes := statusCodes w |}.

Definition setNoAccessMessage (w : TrainWagon) (m : option string) :=
  {| position := position w; number := number w; type := type w;
     typeLabel := typeLabel w; classes := classes w;
     attributes := attributes w;
     noAccessToPrevious := noAccessToPrevious w;
     noAccessToNext := noAccessToNext w; sector := sector w;
     noAccessMessage := m; statusCodes := statusCodes w |}.

Definition setPosition (w : TrainWagon) (p : nat) :=
  {| position := p; number := number w; type := type w;
     typeLabel := typeLabel w; classes := classes w;
     attributes := attributes w;
     noAccessToPrevious := noAccessToPrevious w;
     noAccessToNext := noAccessToNext w; sector := sector w;
     noAccessMessage := noAccessMessage w; statusCodes := statusCodes w |}.

Definition setStatusCodes (w : TrainWagon) (c : list WagonStatus) :=
  {| position := position w; number := number w; type := type w;
     typeLabel := typeLabel w; classes := classes w;
     attributes := attributes w;
     noAccessToPrevious := noAccessToPrevious w;
     noAccessToNext := noAccessToNext w; sector := sector w;
     noAccessMessage := noAccessMessage w; statusCodes := c |}.

(** The push of the group attributes a wagon does not have yet. *)
Fixpoint pushGroupAttributes (groupAttributes attrs : list WagonAttribute)
  : list WagonAttribute :=
  match groupAttributes with
  | [] => attrs
  | attr :: rest =>
      if negb (hasCode (code attr) attrs)
      then pushGroupAttributes rest (attrs ++ [attr])
      else pushGroupAttributes rest attrs
  end.

Definition groupMessage : string :=
  "No passage to the neighbouring coach possible".

(** What [parseVehicleGroup] does to a freshly parsed wagon at token
    index [i]; [rest] is [tokens.slice(i + 1)] and [len] is
    [tokens.length]. *)
Definition patchGroupWagon (parsedWagon : TrainWagon)
  (rest : list FormationToken) (i len : nat)
  (groupAttributes : list WagonAttribute)
  (hasGroupParenthesis : option string) : TrainWagon :=
  let noAccessAcrossGroups :=
    match hasGroupParenthesis with Some _ => true | None => false end in
  let isLastRealWagon :=
    forallb (fun t => negb (TokenType_eqb (tokType t) VEHICLE)) rest in
  let w :=
    if isLastRealWagon && (0 <? List.length groupAttributes)%nat
    then setAttributes parsedWagon
           (pushGroupAttributes groupAttributes (attributes parsedWagon))
    else parsedWagon in
  let w :=
    if (i =? 0)%nat && noAccessAcrossGroups
       && match hasGroupParenthesis with
          | Some m => startsWith "(" m
          | None => false
          end
    then setNoAccessMessage (setNoAccessToPrevious w true) (Some groupMessage)
    else w in
  if (Z.of_nat i =? Z.of_nat len - 1)%Z && noAccessAcrossGroups
     && match hasGroupParenthesis with
        | Some m => endsWith ")" m
        | None => false
        end
  then setNoAccessMessage (setNoAccessToNext w true) (Some groupMessage)
  else w.

(** The token loop of [parseVehicleGroup]. *)
Fixpoint groupLoop (tokens : list FormationToken) (i len : nat)
  (groupAttributes : list WagonAttribute)
  (hasGroupParenthesis : option string)
  (currentSector : string) (position : nat) (wagons : list TrainWagon)
  : list TrainWagon :=
  match tokens with
  | [] => wagons
  | token :: rest =>
      if TokenType_eqb (tokType token) SECTOR then
        let currentSector :=
          match sectorMatch (tokValue token) with
          | Some (_, letter) => letter
          | None => currentSector
          end in
        groupLoop rest (S i) len groupAttributes hasGroupParenthesis
          currentSector position wagons
      else if negb (TokenType_eqb (tokType token) VEHICLE)
              && negb (TokenType_eqb (tokType token) FICTITIOUS_WAGON) then
        groupLoop rest (S i) len groupAttributes hasGroupParenthesis
          currentSector position wagons
      else
        match parseVehicleToken (tokValue token) currentSector position with
        | Some parsedWagon =>
            groupLoop rest (S i) len groupAttributes hasGroupParenthesis
              currentSector (S position)
              (wagons ++ [patchGroupWagon parsedWagon rest i len
                            groupAttributes hasGroupParenthesis])
        | None =>
            groupLoop rest (S i) len groupAttributes hasGroupParenthesis
              currentSector (S position) wagons
        end
  end.

(** [parseVehicleGroup]. *)
Definition parseVehicleGroup (groupContent sector : string)
  (startPosition : nat) : list TrainWagon :=
  let tokens := tokenizeFormationString groupContent in
  let groupAttributes :=
    match groupAttributesMatch groupContent with
    | Some (Some offers) =>
        if truthy offers
        then collectAttributes (split (Ascii.eqb ";") offers)
        else []
    | _ => []
    end in
  let hasGroupParenthesis := groupParenthesisMatch groupContent in
  groupLoop tokens 0 (List.length tokens) groupAttributes
    hasGroupParenthesis sector startPosition [].

(** ** Segment processor and section assembler *)

(** The [Map<string, TrainWagon[]>] of the parser: an association
    list in insertion order, which is the order [entries()] yields. *)
Abbreviation SectorMap := (list (string * list TrainWagon)).

Fixpoint mapGet (k : string) (m : SectorMap) : option (list TrainWagon) :=
  match m with
  | [] => None
  | (k', v) :: m' => if String.eqb k k' then Some v else mapGet k m'
  end.

Definition mapHas (k : string) (m : SectorMap) : bool :=
  match mapGet k m with Some _ => true | None => false end.

(** [Map.set]: an existing key keeps its place, a new one goes last. *)
Fixpoint mapSet (k : string) (v : list TrainWagon) (m : SectorMap)
  : SectorMap :=
  match m with
  | [] => [(k, v)]
  | (k', v') :: m' =>
      if String.eqb k k' then (k', v) :: m' else (k', v') :: mapSet k v m'
  end.

(** [sectorMap.get(currentSector) || []], the push of [ws] onto it and
    the [sectorMap.set] that follows, when the call is accepted: the
    push of a bracket group spreads the wagons into the arguments of
    one call, which an engine refuses beyond its limit (see
    [Engine.drainBrackets]). *)
Definition pushWagons (currentSector : string) (ws : list TrainWagon)
  (m : SectorMap) : SectorMap :=
  let sectorWagons :=
    match mapGet currentSector m with Some l => l | None => [] end in
  mapSet currentSector (sectorWagons ++ ws) m.

(** The [while] loop of [processSegment] that drains the bracket
    groups; [fuel] bounds the number of rounds, and [None] means it
    did not suffice.  The result is the segment left, the position
    and the map. *)
Fixpoint drainBrackets (fuel : nat) (segment currentSector : string)
  (position : nat) (sectorMap : SectorMap)
  : option (string * nat * SectorMap) :=
  match extractBracketContent segment "[" "]" with
  | None => Some (segment, position, sectorMap)
  | Some bracketContent =>
      match fuel with
      | 0 => None
      | S fuel' =>
          let wagons := parseVehicleGroup bracketContent currentSector position in
          let '(position, sectorMap) :=
            if (0 <? List.length wagons)%nat
            then ((position + List.length wagons)%nat,
                  pushWagons currentSector wagons sectorMap)
            else (position, sectorMap) in
          let startIdx := indexOf "[" segment 0 in
          let endIdx := (indexOf "]" segment startIdx + 1)%Z in
          let segment :=
            substring segment 0 (Z.to_nat startIdx)
            ++ substringFrom segment (Z.to_nat endIdx) in
          drainBrackets fuel' segment currentSector position sectorMap
      end
  end.

(** The callback of [tokens.forEach] in [processSegment]. *)
Definition processLooseToken (currentSector : string)
  (st : nat * SectorMap) (token : string) : nat * SectorMap :=
  let '(position, sectorMap) := st in
  let trimmedToken := trim token in
  if String.eqb trimmedToken "F" then (S position, sectorMap)
  else if isPotentialWagonToken trimmedToken then
    match parseVehicleToken trimmedToken currentSector position with
    | Some wagon => (S position, pushWagons currentSector [wagon] sectorMap)
    | None => (position, sectorMap)
    end
  else (position, sectorMap).

(** [processSegment]: the new position and the map as it leaves it. *)
Definition processSegment (segment currentSector : string) (position : nat)
  (sectorMap : SectorMap) : option (nat * SectorMap) :=
  match drainBrackets (String.length segment) segment currentSector
          position sectorMap with
  | None => None
  | Some (segment, position, sectorMap) =>
      let tokens :=
        filter (fun t => truthy (trim t)) (split (oneOf ",\") segment) in
      Some (fold_left (processLooseToken currentSector) tokens
              (position, sectorMap))
  end.

(** [/\\@[A-Z]/.test]: a backslash, [@] and a capital letter. *)
Fixpoint backslashSector (s : string) : bool :=
  match s with
  | String c ((String d (String e _)) as s') =>
      (Ascii.eqb c "\" && Ascii.eqb d "@" && isUpper e) || backslashSector s'
  | String _ s' => backslashSector s'
  | EmptyString => false
  end.

(** Whether [@[A-Z]] starts here: the lookahead of the split. *)
Definition sectorAhead (s : string) : bool :=
  match s with
  | String c (String d _) => Ascii.eqb c "@" && isUpper d
  | _ => false
  end.

(** [formationString.split(/(?=@[A-Z])/)]: a cut before every sector
    marker, except at index 0. *)
Fixpoint splitBeforeSectors (s cur : string) : list string :=
  match s with
  | EmptyString => [cur]
  | String c s' =>
      if sectorAhead s && truthy cur
      then cur :: splitBeforeSectors s' (String c EmptyString)
      else splitBeforeSectors s' (cur ++ String c EmptyString)
  end.

(** [s.indexOf(needle)] for a string needle. *)
Fixpoint indexOfString (needle s : string) (i : nat) : Z :=
  if prefix needle s then Z.of_nat i
  else match s with
       | EmptyString => (-1)%Z
       | String _ s' => indexOfString needle s' (S i)
       end.

(** The body of the loop over the sector segments. *)
Definition processSectorSegment
  (st : option (string * nat * SectorMap)) (segment : string)
  : option (string * nat * SectorMap) :=
  match st with
  | None => None
  | Some (currentSector, position, sectorMap) =>
      if negb (truthy (trim segment)) then st
      else
        let '(currentSector, sectorMap, segment) :=
          match sectorMatch segment with
          | Some (_, letter) =>
              (letter,
               if negb (mapHas letter sectorMap)
               then mapSet letter [] sectorMap else sectorMap,
               substringFrom segment
                 (Z.to_nat (indexOfString ("@" ++ letter) segment 0 + 2)))
          | None => (currentSector, sectorMap, segment)
          end in
        match processSegment segment currentSector position sectorMap with
        | Some (position, sectorMap) =>
            Some (currentSector, position, sectorMap)
        | None => None
        end
  end.

(** The part of [parseFormationString] that fills the sector map. *)
Definition fillSectorMap (formationString : string) : option SectorMap :=
  let hasSectors :=
    includes "@" formationString || backslashSector formationString in
  if hasSectors then
    match fold_left processSectorSegment
            (splitBeforeSectors formationString EmptyString)
            (Some (EmptyString, 0, [])) with
    | Some (_, _, sectorMap) => Some sectorMap
    | None => None
    end
  else
    let bracketContent :=
      match extractBracketContent formationString "[" "]" with
      | Some c => if truthy c then c else formationString
      | None => formationString
      end in
    match processSegment bracketContent EmptyString 0 [] with
    | Some (_, sectorMap) => Some sectorMap
    | None => None
    end.

(** The conversion of the sector map to sections. *)
Fixpoint toSections (m : SectorMap) : list TrainSection :=
  match m with
  | [] => []
  | (sector, ws) :: m' =>
      if (0 <? List.length ws)%nat
      then mkSection sector ws :: toSections m'
      else toSections m'
  end.

(** ** Cross-section finalizer *)

(** [!wagon.noAccessMessage]. *)
Definition noMessage (w : TrainWagon) : bool :=
  match noAccessMessage w with
  | None => true
  | Some m => negb (truthy m)
  end.

Definition isLocomotive (w : TrainWagon) : bool :=
  String.eqb (type w) "locomotive".

(** The first pass over the wagons of every section. *)
Definition setDefaultMessage (wagon : TrainWagon) : TrainWagon :=
  let wagon :=
    if noAccessToPrevious wagon
    then setNoAccessMessage wagon (Some "No passage to previous coach")
    else wagon in
  if noAccessToNext wagon
  then setNoAccessMessage wagon (Some "No passage to next coach")
  else wagon.

(** The start of the callback of [allWagons.forEach]: the position
    and the status codes of a locomotive. *)
Definition visitWagon (wagon : TrainWagon) (currentPosition : nat)
  : TrainWagon :=
  let wagon := setPosition wagon currentPosition in
  if isLocomotive wagon then setStatusCodes wagon [] else wagon.

(** The rest of the callback when there is a previous wagon: what it
    writes to the previous wagon and to the current one. *)
Definition linkPair (previousWagon wagon : TrainWagon)
  : TrainWagon * TrainWagon :=
  let isCurrentLocomotive := isLocomotive wagon in
  let isPreviousLocomotive := isLocomotive previousWagon in
  if (noAccessToNext previousWagon || noAccessToPrevious wagon)
     && negb isCurrentLocomotive && negb isPreviousLocomotive
  then
    let previousWagon := setNoAccessToNext previousWagon true in
    let wagon := setNoAccessToPrevious wagon true in
    let previousWagon :=
      if noMessage previousWagon
      then setNoAccessMessage previousWagon (Some "No passage to next coach")
      else previousWagon in
    let wagon :=
      if noMessage wagon
      then setNoAccessMessage wagon (Some "No passage to previous coach")
      else wagon in
    (previousWagon, wagon)
  else if isCurrentLocomotive || isPreviousLocomotive then
    let '(previousWagon, wagon) :=
      if isCurrentLocomotive
      then (setNoAccessMessage (setNoAccessToNext previousWagon false) None,
            setNoAccessMessage (setNoAccessToPrevious wagon false) None)
      else (previousWagon, wagon) in
    if isPreviousLocomotive && negb isCurrentLocomotive
    then (setNoAccessMessage (setNoAccessToNext previousWagon false) None,
          setNoAccessMessage (setNoAccessToPrevious wagon false) None)
    else (previousWagon, wagon)
  else (previousWagon, wagon).

(** The sequential pass over [allWagons].  Every wagon object occurs
    once in the array, and [previousWagon] is the element just before
    the current one: the pass carries it along and releases it once
    the pair it opens has been linked. *)
Fixpoint walk (previousWagon : TrainWagon) (currentPosition : nat)
  (rest : list TrainWagon) : list TrainWagon :=
  match rest with
  | [] => [previousWagon]
  | wagon :: rest' =>
      let '(previousWagon, wagon) :=
        linkPair previousWagon (visitWagon wagon currentPosition) in
      previousWagon :: walk wagon (S currentPosition) rest'
  end.

Definition walkAll (allWagons : list TrainWagon) : list TrainWagon :=
  match allWagons with
  | [] => []
  | wagon :: rest => walk (visitWagon wagon 0) 1 rest
  end.

(** The sections read back after the pass: the wagon objects of the
    flat array are those of the sections, in the same order. *)
Fixpoint regroup (sections : list TrainSection) (allWagons : list TrainWagon)
  : list TrainSection :=
  match sections with
  | [] => []
  | section :: rest =>
      let n := List.length (wagons section) in
      mkSection (sectionSector section) (firstn n allWagons)
      :: regroup rest (skipn n allWagons)
  end.

(** [finalizeTrainSections]. *)
Definition finalizeTrainSections (sections : list TrainSection)
  : list TrainSection :=
  let filteredSections :=
    filter (fun section => (0 <? List.length (wagons section))%nat) sections in
  let filteredSections :=
    map (fun section =>
           mkSection (sectionSector section)
             (map setDefaultMessage (wagons section)))
        filteredSections in
  let allWagons := flat_map wagons filteredSections in
  regroup filteredSections (walkAll allWagons).

(** [parseFormationString], the decoder while every call is accepted
    ([Engine.parseFormationString] has the throw of a refused call);
    [None] only if the fuel of a bracket loop ran out. *)
Definition parseFormationString (formationString : string)
  : option (list TrainSection) :=
  if negb (truthy formationString) || String.eqb (trim formationString) ""
  then Some []
  else
    match fillSectorMap formationString with
    | Some sectorMap => Some (finalizeTrainSections (toSections sectorMap))
    | None => None
    end.

(** ** Travel direction resolver *)




(** ** The decoder as the engine runs it *)

(** The definitions above are the decoder while every call is
    accepted.  One call can be refused: [sectorWagons.push(...wagons)]
    in [processSegment] passes the wagons of a bracket group as the
    arguments of one call, and an engine throws a [RangeError] when a
    call has more arguments than it accepts.  The source does not give
    the limit; it is the parameter [maxArguments].  The wagon of a
    loose token and the wagons of the finalizer are pushed one at a
    time. *)

(** How a call ends: it returns, it throws the [RangeError] of the
    spread call, or the fuel of the bracket loop ran out. *)
Inductive Outcome (A : Type) : Type :=
| Returned (a : A)
| RangeError
| OutOfFuel.

Arguments Returned {A} a.
Arguments RangeError {A}.
Arguments OutOfFuel {A}.

Module Engine.

Section ArgumentLimit.

Variable maxArguments : nat.

(** The [while] loop of [processSegment]; [pushed] is the position
    and the map after [sectorWagons.push(...wagons)], none when the
    call is refused. *)
Fixpoint drainBrackets (fuel : nat) (segment currentSector : string)
  (position : nat) (sectorMap : SectorMap)
  : Outcome (string * nat * SectorMap) :=
  match extractBracketContent segment "[" "]" with
  | None => Returned (segment, position, sectorMap)
  | Some bracketContent =>
      match fuel with
      | 0 => OutOfFuel
      | S fuel' =>
          let wagons := parseVehicleGroup bracketContent currentSector position in
          let pushed :=
            if (0 <? List.length wagons)%nat
            then
              if (maxArguments <? List.length wagons)%nat then None
              else Some ((position + List.length wagons)%nat,
                         pushWagons currentSector wagons sectorMap)
            else Some (position, sectorMap) in
          match pushed with
          | None => RangeError
          | Some (position, sectorMap) =>
              let startIdx := indexOf "[" segment 0 in
              let endIdx := (indexOf "]" segment startIdx + 1)%Z in
              let segment :=
                substring segment 0 (Z.to_nat startIdx)
                ++ substringFrom segment (Z.to_nat endIdx) in
              drainBrackets fuel' segment currentSector position sectorMap
          end
      end
  end.

(** [processSegment]. *)
Definition processSegment (segment currentSector : string) (position : nat)
  (sectorMap : SectorMap) : Outcome (nat * SectorMap) :=
  match drainBrackets (String.length segment) segment currentSector
          position sectorMap with
  | Returned (segment, position, sectorMap) =>
      let tokens :=
        filter (fun t => truthy (trim t)) (split (oneOf ",\") segment) in
      Returned (fold_left (processLooseToken currentSector) tokens
                  (position, sectorMap))
  | RangeError => RangeError
  | OutOfFuel => OutOfFuel
  end.

(** The body of the loop over the sector segments. *)
Definition processSectorSegment
  (st : Outcome (string * nat * SectorMap)) (segment : string)
  : Outcome (string * nat * SectorMap) :=
  match st with
  | Returned (currentSector, position, sectorMap) =>
      if negb (truthy (trim segment)) then st
      else
        let '(currentSector, sectorMap, segment) :=
          match sectorMatch segment with
          | Some (_, letter) =>
              (letter,
               if negb (mapHas letter sectorMap)
               then mapSet letter [] sectorMap else sectorMap,
               substringFrom segment
                 (Z.to_nat (indexOfString ("@" ++ letter) segment 0 + 2)))
          | None => (currentSector, sectorMap, segment)
          end in
        match processSegment segment currentSector position sectorMap with
        | Returned (position, sectorMap) =>
            Returned (currentSector, position, sectorMap)
        | RangeError => RangeError
        | OutOfFuel => OutOfFuel
        end
  | RangeError => RangeError
  | OutOfFuel => OutOfFuel
  end.

(** The part of [parseFormationString] that fills the sector map. *)
Definition fillSectorMap (formationString : string) : Outcome SectorMap :=
  let hasSectors :=
    includes "@" formationString || backslashSector formationString in
  if hasSectors then
    match fold_left processSectorSegment
            (splitBeforeSectors formationString EmptyString)
            (Returned (EmptyString, 0, [])) with
    | Returned (_, _, sectorMap) => Returned sectorMap
    | RangeError => RangeError
    | OutOfFuel => OutOfFuel
    end
  else
    let bracketContent :=
      match extractBracketContent formationString "[" "]" with
      | Some c => if truthy c then c else formationString
      | None => formationString
      end in
    match processSegment bracketContent EmptyString 0 [] with
    | Returned (_, sectorMap) => Returned sectorMap
    | RangeError => RangeError
    | OutOfFuel => OutOfFuel
    end.

(** [parseFormationString]. *)
Definition parseFormationString (formationString : string)
  : Outcome (list TrainSection) :=
  if negb (truthy formationString) || String.eqb (trim formationString) ""
  then Returned []
  else
    match fillSectorMap formationString with
    | Returned sectorMap =>
        Returned (finalizeTrainSections (toSections sectorMap))
    | RangeError => RangeError
    | OutOfFuel => OutOfFuel
    end.


End ArgumentLimit.

End Engine.

(** The wagons of a composition, section after section. *)
Definition allWagonsOf (sections : list TrainSection) : list TrainWagon :=
  flat_map wagons sections.

(** [a] stands just before [b] in [l]. *)
Definition adjacent {A : Type} (a b : A) (l : list A) : Prop :=
  exists l1 l2, l = (l1 ++ a :: b :: l2)%list.

(** A relation that holds between every element and its successor. *)
Fixpoint pairwise {A : Type} (R : A -> A -> Prop) (l : list A) : Prop :=
  match l with
  | a :: (b :: _) as t => R a b /\ pairwise R t
  | _ => True
  end.

(** What the walk establishes between a wagon and its successor. *)
Definition linked (a b : TrainWagon) : Prop :=
  (isLocomotive a = false -> isLocomotive b = false ->
   noAccessToNext a = noAccessToPrevious b)
  /\ (isLocomotive a || isLocomotive b = true ->
      noAccessToNext a = false /\ noAccessToPrevious b = false)
  /\ (isLocomotive a = true -> noAccessMessage a = None)
  /\ (isLocomotive b = true -> noAccessMessage b = None).

(** Every wagon held by the sector map satisfies [P]. *)
Definition allInMap (P : TrainWagon -> Prop) (m : SectorMap) : Prop :=
  Forall (fun kv => Forall P (snd kv)) m.


(** [a] and [b] are wagons of the composition at consecutive
    positions, [a] the earlier one. *)
Definition consecutive (a b : TrainWagon) (sections : list TrainSection)
  : Prop :=
  In a (allWagonsOf sections) /\ In b (allWagonsOf sections)
  /\ position b = S (position a).

(** A service class the model of [TrainWagon] allows. *)
Definition validClass (c : string) : Prop := c = "1" \/ c = "2".

(** The test of [parseWagonStatus] for a closed wagon. *)
Definition closedMark (token : string) : bool :=
  startsWith "-" token || includes "(-" token || includes "@-" token.

(** A string of white space only (the empty string included). *)
Fixpoint allWhiteSpace (s : string) : bool :=
  match s with
  | EmptyString => true
  | String c s' => isWhiteSpace c && allWhiteSpace s'
  end.

(** The value of a token as it is written starts with [F]. *)
Definition startsWithF (t : FormationToken) : bool :=
  startsWith "F" (tokValue t).

(** * Properties *)

(** ** The finalizer walk *)

Lemma pairwise_adjacent {A : Type} (R : A -> A -> Prop) (l : list A) :
  pairwise R l -> forall a b, adjacent a b l -> R a b.
Proof.
  induction l as [|x l IH]; intros HP a b (l1 & l2 & E).
  - destruct l1; discriminate.
  - destruct l1 as [|y l1]; simpl in E.
    + injection E as -> ->. simpl in HP. tauto.
    + injection E as -> ->. apply IH.
      * destruct l1; simpl in *; tauto.
      * now exists l1, l2.
Qed.

Section Walk.

Lemma linkPair_type p w :
  type (fst (linkPair p w)) = type p /\ type (snd (linkPair p w)) = type w.
Proof.
  unfold linkPair.
  repeat match goal with |- context [if ?b then _ else _] => destruct b end;
    simpl; auto.
Qed.

Lemma linkPair_position p w :
  position (fst (linkPair p w)) = position p
  /\ position (snd (linkPair p w)) = position w.
Proof.
  unfold linkPair.
  repeat match goal with |- context [if ?b then _ else _] => destruct b end;
    simpl; auto.
Qed.

Lemma linkPair_statusCodes p w :
  statusCodes (fst (linkPair p w)) = statusCodes p
  /\ statusCodes (snd (linkPair p w)) = statusCodes w.
Proof.
  unfold linkPair.
  repeat match goal with |- context [if ?b then _ else _] => destruct b end;
    simpl; auto.
Qed.

Lemma linkPair_classes p w :
  classes (fst (linkPair p w)) = classes p
  /\ classes (snd (linkPair p w)) = classes w.
Proof.
  unfold linkPair.
  repeat match goal with |- context [if ?b then _ else _] => destruct b end;
    simpl; auto.
Qed.

(** The pair step leaves the outer sides alone. *)
Lemma linkPair_outer p w :
  noAccessToPrevious (fst (linkPair p w)) = noAccessToPrevious p
  /\ noAccessToNext (snd (linkPair p w)) = noAccessToNext w.
Proof.
  unfold linkPair.
  repeat match goal with |- context [if ?b then _ else _] => destruct b end;
    simpl; auto.
Qed.

(** After the pair step the two facing flags agree unless a
    locomotive is involved, and are both clear if one is. *)
Lemma linkPair_facing p w :
  let p' := fst (linkPair p w) in
  let w' := snd (linkPair p w) in
  (isLocomotive p = false -> isLocomotive w = false ->
   noAccessToNext p' = noAccessToPrevious w')
  /\ (isLocomotive p || isLocomotive w = true ->
      noAccessToNext p' = false /\ noAccessToPrevious w' = false)
  /\ (isLocomotive p = true -> noAccessMessage p' = None)
  /\ (isLocomotive w = true -> noAccessMessage w' = None).
Proof.
  unfold linkPair.
  destruct (isLocomotive p) eqn:Lp, (isLocomotive w) eqn:Lw;
    destruct (noAccessToNext p) eqn:Np, (noAccessToPrevious w) eqn:Pw;
    simpl;
    repeat match goal with |- context [if ?b then _ else _] => destruct b end;
    simpl; repeat split; intros; try discriminate; auto; congruence.
Qed.

Lemma visitWagon_fields w n :
  position (visitWagon w n) = n
  /\ type (visitWagon w n) = type w
  /\ classes (visitWagon w n) = classes w
  /\ (isLocomotive (visitWagon w n) = true ->
      statusCodes (visitWagon w n) = []).
Proof.
  unfold visitWagon. 
  destruct (isLocomotive (setPosition w n)) eqn:L; simpl; repeat split; auto.
  unfold isLocomotive in *. simpl in *. congruence.
Qed.

Lemma walk_length p n rest :
  List.length (walk p n rest) = S (List.length rest).
Proof.
  revert p n. induction rest as [|w rest IH]; intros p n; simpl; auto.
  destruct (linkPair p (visitWagon w n)). simpl. now rewrite IH.
Qed.

Lemma walkAll_length l : List.length (walkAll l) = List.length l.
Proof. destruct l; simpl; auto. apply walk_length. Qed.

(** The first wagon the walk releases is the one it was given, up to
    its forward side. *)
Lemma walk_head p n rest :
  exists h t,
    walk p n rest = h :: t
    /\ type h = type p
    /\ noAccessToPrevious h = noAccessToPrevious p
    /\ (isLocomotive p = true -> noAccessMessage p = None ->
        noAccessMessage h = None).
Proof.
  destruct rest as [|w rest]; simpl.
  - exists p, []. auto.
  - destruct (linkPair p (visitWagon w n)) as [p' w'] eqn:E.
    exists p', (walk w' (S n) rest).
    pose proof (linkPair_type p (visitWagon w n)) as [T _].
    pose proof (linkPair_outer p (visitWagon w n)) as [O _].
    pose proof (linkPair_facing p (visitWagon w n)) as (_ & _ & M & _).
    rewrite E in *. simpl in *. repeat split; auto.
Qed.

Lemma walk_positions p n rest :
  map position (walk p n rest) = position p :: seq n (List.length rest).
Proof.
  revert p n. induction rest as [|w rest IH]; intros p n; simpl; auto.
  destruct (linkPair p (visitWagon w n)) as [p' w'] eqn:E. simpl.
  pose proof (linkPair_position p (visitWagon w n)) as [P1 P2].
  rewrite E in *. simpl in *. rewrite IH, P1, P2.
  now destruct (visitWagon_fields w n) as (-> & _).
Qed.

Lemma walkAll_positions l :
  map position (walkAll l) = seq 0 (List.length l).
Proof.
  destruct l as [|w l]; simpl; auto.
  rewrite walk_positions.
  now destruct (visitWagon_fields w 0) as (-> & _).
Qed.

End Walk.

Lemma isLocomotive_type a b : type a = type b -> isLocomotive a = isLocomotive b.
Proof. unfold isLocomotive. now intros ->. Qed.

Lemma walk_linked rest : forall p n, pairwise linked (walk p n rest).
Proof.
  induction rest as [|w rest IH]; intros p n; simpl; auto.
  destruct (linkPair p (visitWagon w n)) as [p' w'] eqn:E.
  pose proof (linkPair_type p (visitWagon w n)) as [Tp Tw].
  pose proof (linkPair_facing p (visitWagon w n)) as (F1 & F2 & F3 & F4).
  rewrite E in *. simpl in *.
  specialize (IH w' (S n)).
  destruct (walk_head w' (S n) rest) as (h & t & Eh & Th & Ph & Mh).
  rewrite Eh in *. split; auto.
  apply isLocomotive_type in Tp, Tw, Th.
  unfold linked. rewrite Tp, Th, Tw, Ph.
  repeat split; auto.
  - now apply F2.
  - now apply F2.
  - intros L. apply Mh; [congruence|]. apply F4. congruence.
Qed.

Lemma walkAll_linked l : pairwise linked (walkAll l).
Proof. destruct l; simpl; auto. apply walk_linked. Qed.

Lemma walk_locomotive_status rest : forall p n,
  (isLocomotive p = true -> statusCodes p = []) ->
  Forall (fun w => isLocomotive w = true -> statusCodes w = [])
    (walk p n rest).
Proof.
  induction rest as [|w rest IH]; intros p n Hp; simpl.
  - constructor; auto.
  - destruct (linkPair p (visitWagon w n)) as [p' w'] eqn:E.
    pose proof (linkPair_type p (visitWagon w n)) as [Tp Tw].
    pose proof (linkPair_statusCodes p (visitWagon w n)) as [Sp Sw].
    rewrite E in *. simpl in *.
    apply isLocomotive_type in Tp, Tw.
    constructor.
    + rewrite Tp, Sp. exact Hp.
    + apply IH. rewrite Tw, Sw. apply visitWagon_fields.
Qed.

Lemma walkAll_locomotive_status l :
  Forall (fun w => isLocomotive w = true -> statusCodes w = []) (walkAll l).
Proof.
  destruct l as [|w l]; simpl; [constructor|].
  apply walk_locomotive_status, visitWagon_fields.
Qed.

Lemma walk_classes rest : forall p n,
  map classes (walk p n rest) = classes p :: map classes rest.
Proof.
  induction rest as [|w rest IH]; intros p n; simpl; auto.
  destruct (linkPair p (visitWagon w n)) as [p' w'] eqn:E.
  pose proof (linkPair_classes p (visitWagon w n)) as [Cp Cw].
  rewrite E in *. simpl in *. rewrite IH, Cp, Cw.
  now destruct (visitWagon_fields w n) as (_ & _ & -> & _).
Qed.

Lemma walkAll_classes l : map classes (walkAll l) = map classes l.
Proof.
  destruct l as [|w l]; simpl; auto. rewrite walk_classes.
  now destruct (visitWagon_fields w 0) as (_ & _ & -> & _).
Qed.

(** ** Sections after the finalizer *)

Lemma regroup_wagons sections : forall l,
  List.length l = List.length (allWagonsOf sections) ->
  allWagonsOf (regroup sections l) = l.
Proof.
  unfold allWagonsOf.
  induction sections as [|sec rest IH]; intros l Hl; simpl in *.
  - destruct l; auto; discriminate.
  - rewrite length_app in Hl. rewrite IH.
    + apply firstn_skipn.
    + rewrite length_skipn. lia.
Qed.

Lemma regroup_sectors sections l :
  map sectionSector (regroup sections l) = map sectionSector sections.
Proof.
  revert l. induction sections as [|sec rest IH]; intros l; simpl; auto.
  now rewrite IH.
Qed.

(** The wagons of the finalized sections are those of the walk. *)
Lemma finalized_wagons sections :
  exists l,
    allWagonsOf (finalizeTrainSections sections) = walkAll l
    /\ map classes l = map classes (allWagonsOf sections).
Proof.
  unfold finalizeTrainSections.
  set (kept := filter _ sections).
  set (marked := map _ kept).
  exists (allWagonsOf marked). split.
  - apply regroup_wagons. now rewrite walkAll_length.
  - subst marked kept. unfold allWagonsOf.
    induction sections as [|sec rest IH]; simpl; auto.
    destruct (0 <? List.length (wagons sec))%nat eqn:Hn; simpl.
    + rewrite !map_app, IH, map_map. f_equal.
      apply map_ext. intros w. unfold setDefaultMessage.
      repeat match goal with |- context [if ?b then _ else _] => destruct b end;
        reflexivity.
    + apply Nat.ltb_ge in Hn.
      destruct (wagons sec); simpl in *; [auto | lia].
Qed.

(** The two ways the decoder returns. *)
Lemma parseFormationString_cases s sections :
  parseFormationString s = Some sections ->
  sections = []
  \/ exists m, fillSectorMap s = Some m
               /\ sections = finalizeTrainSections (toSections m).
Proof.
  unfold parseFormationString.
  destruct (negb (truthy s) || String.eqb (trim s) "").
  - intros [= <-]. now left.
  - destruct (fillSectorMap s) as [m|]; [|discriminate].
    intros [= <-]. right. now exists m.
Qed.

Lemma decoded_wagons_walked s sections :
  parseFormationString s = Some sections ->
  exists l, allWagonsOf sections = walkAll l.
Proof.
  intros H. destruct (parseFormationString_cases _ _ H) as [->|(m & _ & ->)].
  - now exists [].
  - destruct (finalized_wagons (toSections m)) as (l & E & _). now exists l.
Qed.

(** ** String primitives *)

Section Strings.

Lemma length_append_string (a b : string) :
  String.length (a ++ b) = String.length a + String.length b.
Proof. induction a; simpl; auto. Qed.

Lemma length_take n : forall s,
  String.length (take n s) = Nat.min n (String.length s).
Proof. induction n; intros [|c s]; simpl; auto. Qed.

Lemma length_drop n : forall s,
  String.length (drop n s) = String.length s - n.
Proof. induction n; intros [|c s]; simpl; auto. Qed.

Lemma length_substring s a b :
  String.length (substring s a b)
  = Nat.max (Nat.min a (String.length s)) (Nat.min b (String.length s))
    - Nat.min (Nat.min a (String.length s)) (Nat.min b (String.length s)).
Proof.
  unfold substring. rewrite length_take, length_drop. lia.
Qed.

Lemma get_lt k : forall s c, get k s = Some c -> k < String.length s.
Proof.
  induction k; intros [|x s] c H; simpl in *; try discriminate; try lia.
  apply IHk in H. lia.
Qed.

(** [indexOf] answers -1 or an index that holds the character. *)
Lemma indexOfAux_found c : forall s i from r,
  indexOfAux c s i from = r -> r <> (-1)%Z ->
  exists k, r = Z.of_nat (i + k) /\ from <= i + k /\ get k s = Some c.
Proof.
  induction s as [|x s IH]; intros i from r H Hr; simpl in H.
  - congruence.
  - destruct ((from <=? i)%nat && Ascii.eqb x c) eqn:E.
    + apply andb_prop in E as [E1 E2].
      apply Nat.leb_le in E1. apply Ascii.eqb_eq in E2. subst x.
      exists 0. rewrite Nat.add_0_r. auto.
    + destruct (IH _ _ _ H Hr) as (k & -> & Hk & G).
      exists (S k). simpl. repeat split; auto; lia.
Qed.

(** [indexOf] finds a character that is there, and no later. *)
Lemma indexOfAux_complete c : forall s i from k,
  from <= i + k -> get k s = Some c ->
  (Z.of_nat i <= indexOfAux c s i from <= Z.of_nat (i + k))%Z.
Proof.
  induction s as [|x s IH]; intros i from k Hk G.
  - destruct k; discriminate.
  - simpl. destruct ((from <=? i)%nat && Ascii.eqb x c) eqn:E; [lia|].
    destruct k as [|k]; simpl in G.
    + injection G as ->. rewrite Nat.add_0_r in Hk.
      apply Nat.leb_le in Hk. rewrite Hk, Ascii.eqb_refl in E. discriminate.
    + specialize (IH (S i) from k). 
      assert (from <= S i + k) by lia. specialize (IH H G). lia.
Qed.

End Strings.

(** ** Termination of the bracket loop *)

Section Termination.

(** A successful extraction has seen an opening character and, after
    it, a closing one. *)
Lemma extractLoop_open_close o c (Hoc : o <> c) str : forall rest i d st x,
  extractLoop o c str rest i d st = Some x ->
  (st <> (-1)%Z /\ exists k, get k rest = Some c)
  \/ (exists a b, a < b /\ get a rest = Some o /\ get b rest = Some c).
Proof.
  induction rest as [|ch rest IH]; intros i d st x H; simpl in H.
  - discriminate.
  - destruct (Ascii.eqb ch o) eqn:Eo.
    + apply Ascii.eqb_eq in Eo. subst ch. right.
      destruct (IH _ _ _ _ H) as [[_ (k & G)]|(a & b & L & Ga & Gb)].
      * exists 0, (S k). simpl. repeat split; auto. lia.
      * exists (S a), (S b). simpl. repeat split; auto. lia.
    + destruct (Ascii.eqb ch c) eqn:Ec.
      * apply Ascii.eqb_eq in Ec. subst ch.
        destruct ((d - 1 =? 0) && negb (st =? -1))%Z eqn:E.
        -- left. apply andb_prop in E as [_ E].
           apply negb_true_iff, Z.eqb_neq in E. split; auto. now exists 0.
        -- destruct (IH _ _ _ _ H) as [[N (k & G)]|(a & b & L & Ga & Gb)].
           ++ left. split; auto. now exists (S k).
           ++ right. exists (S a), (S b). simpl. repeat split; auto. lia.
      * destruct (IH _ _ _ _ H) as [[N (k & G)]|(a & b & L & Ga & Gb)].
        -- left. split; auto. now exists (S k).
        -- right. exists (S a), (S b). simpl. repeat split; auto. lia.
Qed.

(** Removing the span from the first [[] to the next []] makes the
    segment strictly shorter whenever a group was extracted. *)
Lemma drain_step_shorter segment x :
  extractBracketContent segment "[" "]" = Some x ->
  let startIdx := indexOf "[" segment 0 in
  let endIdx := (indexOf "]" segment startIdx + 1)%Z in
  String.length
    (substring segment 0 (Z.to_nat startIdx)
     ++ substringFrom segment (Z.to_nat endIdx))
  < String.length segment.
Proof.
  intros H. unfold extractBracketContent in H.
  apply extractLoop_open_close in H; [|discriminate].
  destruct H as [[N _]|(a & b & L & Ga & Gb)]; [congruence|].
  intros startIdx endIdx.
  assert (Hs : (0 <= startIdx <= Z.of_nat a)%Z).
  { unfold startIdx, indexOf.
    apply (indexOfAux_complete "[" segment 0 _ a); auto. simpl. lia. }
  destruct (indexOfAux_found "[" segment 0 (Z.to_nat 0) startIdx eq_refl)
    as (ka & Eka & _ & Gka); [lia|].
  simpl in Eka.
  assert (He : (0 <= indexOf "]" segment startIdx)%Z).
  { unfold indexOf. rewrite Eka, Nat2Z.id.
    pose proof (indexOfAux_complete "]" segment 0 ka b) as P.
    simpl in P. apply P; auto. lia. }
  destruct (indexOfAux_found "]" segment 0 (Z.to_nat startIdx)
              (indexOf "]" segment startIdx) eq_refl)
    as (kb & Ekb & Hkb & Gkb); [lia|].
  simpl in Ekb, Hkb.
  apply get_lt in Gkb.
  rewrite length_append_string. unfold substringFrom.
  rewrite !length_substring.
  subst endIdx. rewrite Ekb. rewrite Eka in Hkb |- *.
  rewrite Nat2Z.id in Hkb |- *.
  replace (Z.to_nat (Z.of_nat kb + 1)) with (S kb) by lia.
  lia.
Qed.







End Termination.

(** ** Invariants of the segment processor *)

Lemma patchGroupWagon_classes w rest i len ga hp :
  classes (patchGroupWagon w rest i len ga hp) = classes w.
Proof.
  unfold patchGroupWagon.
  repeat match goal with |- context [if ?b then _ else _] => destruct b end;
    reflexivity.
Qed.

Section SegmentInvariant.

Variable P : TrainWagon -> Prop.
Variable I : SectorMap -> Prop.
Variable currentSector : string.

Hypothesis P_parsed : forall token sector position w,
  parseVehicleToken token sector position = Some w -> P w.
Hypothesis P_patch : forall w rest i len ga hp,
  P w -> P (patchGroupWagon w rest i len ga hp).
Hypothesis I_push : forall ws m,
  Forall P ws -> I m -> I (pushWagons currentSector ws m).

Lemma groupLoop_all tokens : forall i len ga hp sector position ws,
  Forall P ws ->
  Forall P (groupLoop tokens i len ga hp sector position ws).
Proof.
  induction tokens as [|t rest IH]; intros i len ga hp sector position ws H;
    simpl; auto.
  destruct (TokenType_eqb (tokType t) SECTOR); [now apply IH|].
  destruct (negb (TokenType_eqb (tokType t) VEHICLE)
            && negb (TokenType_eqb (tokType t) FICTITIOUS_WAGON));
    [now apply IH|].
  destruct (parseVehicleToken (tokValue t) sector position) as [w|] eqn:E;
    [|now apply IH].
  apply IH. apply Forall_app. split; auto.
  constructor; [|constructor]. apply P_patch. eapply P_parsed, E.
Qed.

Lemma parseVehicleGroup_all content sector position :
  Forall P (parseVehicleGroup content sector position).
Proof. unfold parseVehicleGroup. apply groupLoop_all. constructor. Qed.

Lemma drainBrackets_inv fuel : forall segment position m r,
  I m ->
  drainBrackets fuel segment currentSector position m = Some r ->
  I (snd r).
Proof.
  induction fuel as [|fuel IH]; intros segment position m r Hm H;
    simpl in H;
    destruct (extractBracketContent segment "[" "]") as [x|];
    try discriminate; try (injection H as <-; exact Hm).
  destruct (0 <? List.length (parseVehicleGroup x currentSector position))%nat;
    eapply IH in H; auto.
  apply I_push; auto. apply parseVehicleGroup_all.
Qed.

Lemma processLooseToken_inv st token :
  I (snd st) -> I (snd (processLooseToken currentSector st token)).
Proof.
  destruct st as [position m]. unfold processLooseToken. simpl. intros Hm.
  destruct (String.eqb (trim token) "F"); auto.
  destruct (isPotentialWagonToken (trim token)); auto.
  destruct (parseVehicleToken (trim token) currentSector position) eqn:E;
    simpl; auto.
  apply I_push; auto. constructor; [|constructor]. eapply P_parsed, E.
Qed.

Lemma looseTokens_inv tokens : forall st,
  I (snd st) ->
  I (snd (fold_left (processLooseToken currentSector) tokens st)).
Proof.
  induction tokens as [|t rest IH]; intros st H; simpl; auto.
  apply IH, processLooseToken_inv, H.
Qed.

Lemma processSegment_inv segment position m r :
  I m ->
  processSegment segment currentSector position m = Some r ->
  I (snd r).
Proof.
  unfold processSegment. intros Hm H.
  destruct (drainBrackets (String.length segment) segment currentSector
              position m) as [[[seg' pos'] m']|] eqn:E; [|discriminate].
  injection H as <-. apply looseTokens_inv. simpl.
  apply (drainBrackets_inv _ _ _ _ _ Hm E).
Qed.

End SegmentInvariant.

(** ** Invariants of the sector map *)

Section MapInvariant.

Variable P : TrainWagon -> Prop.

Lemma mapGet_all k : forall m l,
  allInMap P m -> mapGet k m = Some l -> Forall P l.
Proof.
  induction m as [|[k' v] m IH]; intros l Hm H; simpl in H.
  - discriminate.
  - inversion Hm; subst. destruct (String.eqb k k'); eauto.
    now injection H as <-.
Qed.

Lemma mapSet_all k v : forall m,
  allInMap P m -> Forall P v -> allInMap P (mapSet k v m).
Proof.
  induction m as [|[k' v'] m IH]; intros Hm Hv; simpl.
  - repeat constructor; auto.
  - inversion Hm; subst.
    destruct (String.eqb k k'); constructor; auto. now apply IH.
Qed.

Lemma pushWagons_all k ws m :
  Forall P ws -> allInMap P m -> allInMap P (pushWagons k ws m).
Proof.
  intros Hw Hm. unfold pushWagons. apply mapSet_all; auto.
  apply Forall_app. split; auto.
  destruct (mapGet k m) eqn:E; [|constructor].
  eapply mapGet_all; eauto.
Qed.

Lemma toSections_all m :
  allInMap P m -> Forall P (allWagonsOf (toSections m)).
Proof.
  unfold allWagonsOf.
  induction m as [|[k v] m IH]; intros Hm; simpl; [constructor|].
  inversion Hm; subst.
  destruct (0 <? List.length v)%nat; simpl; auto.
  apply Forall_app. auto.
Qed.

Hypothesis P_parsed : forall token sector position w,
  parseVehicleToken token sector position = Some w -> P w.
Hypothesis P_patch : forall w rest i len ga hp,
  P w -> P (patchGroupWagon w rest i len ga hp).

Lemma processSegment_all segment sector position m r :
  allInMap P m ->
  processSegment segment sector position m = Some r ->
  allInMap P (snd r).
Proof.
  apply (processSegment_inv P (allInMap P) sector P_parsed P_patch).
  intros ws m'. apply pushWagons_all.
Qed.

Lemma processSectorSegment_all st segment sector position m :
  allInMap P (snd st) ->
  processSectorSegment (Some st) segment = Some (sector, position, m) ->
  allInMap P m.
Proof.
  destruct st as [[sector0 position0] m0]. simpl. intros Hm.
  destruct (negb (truthy (trim segment))).
  - now intros [= _ _ <-].
  - destruct (sectorMatch segment) as [[i letter]|];
      match goal with |- context [processSegment ?a ?b ?c ?d] =>
        destruct (processSegment a b c d) as [[p' m']|] eqn:E
      end; try discriminate; intros [= _ _ <-];
      apply processSegment_all in E; auto.
    destruct (negb (mapHas letter m0)); auto.
    apply mapSet_all; auto.
Qed.

Lemma sectorSegments_all segments : forall st r,
  allInMap P (snd st) ->
  fold_left processSectorSegment segments (Some st) = Some r ->
  allInMap P (snd r).
Proof.
  induction segments as [|seg rest IH]; intros st r Hm H; cbn [fold_left] in H.
  - now injection H as <-.
  - destruct (processSectorSegment (Some st) seg) as [[[s' p'] m']|] eqn:E.
    + eapply IH in H; auto. simpl.
      eapply processSectorSegment_all; eauto.
    + clear -H. exfalso. induction rest; simpl in H; [discriminate|auto].
Qed.

Lemma fillSectorMap_all s m : fillSectorMap s = Some m -> allInMap P m.
Proof.
  unfold fillSectorMap.
  destruct (includes "@" s || backslashSector s).
  - destruct (fold_left _ _ _) as [[[a b] m']|] eqn:E; [|discriminate].
    intros [= <-]. apply sectorSegments_all in E; auto. constructor.
  - match goal with |- context [processSegment ?a ?b ?c ?d] =>
      destruct (processSegment a b c d) as [[p' m']|] eqn:E
    end; [|discriminate].
    intros [= <-]. apply processSegment_all in E; auto. constructor.
Qed.

End MapInvariant.

Section DefaultSector.





End DefaultSector.

(** ** Positions, adjacency and locomotives in the decoded composition *)

Lemma positions_index (l : list TrainWagon) a :
  map position l = seq 0 (List.length l) ->
  In a l -> nth_error l (position a) = Some a.
Proof.
  intros Hp Ha. apply In_nth_error in Ha as (i & Hi).
  assert (Hlt : i < List.length l) by (apply nth_error_Some; congruence).
  pose proof (map_nth_error position _ _ Hi) as Hm.
  rewrite Hp in Hm. apply (nth_error_nth _ _ 0) in Hm.
  rewrite seq_nth in Hm by exact Hlt. simpl in Hm. now subst i.
Qed.

Lemma consecutive_adjacent a b sections :
  map position (allWagonsOf sections)
  = seq 0 (List.length (allWagonsOf sections)) ->
  consecutive a b sections -> adjacent a b (allWagonsOf sections).
Proof.
  intros Hp (Ha & Hb & Hab).
  apply (positions_index _ _ Hp) in Ha, Hb. rewrite Hab in Hb.
  destruct (nth_error_split _ _ Ha) as (l1 & l2 & E & Hl).
  exists l1. rewrite E in Hb.
  rewrite nth_error_app2 in Hb by lia.
  replace (S (position a) - List.length l1) with 1 in Hb by lia.
  destruct l2 as [|b' l2]; [discriminate|]. simpl in Hb.
  injection Hb as ->. now exists l2.
Qed.

Lemma decoded_positions s sections :
  parseFormationString s = Some sections ->
  map position (allWagonsOf sections)
  = seq 0 (List.length (allWagonsOf sections)).
Proof.
  intros H. destruct (decoded_wagons_walked _ _ H) as (l & ->).
  now rewrite walkAll_positions, walkAll_length.
Qed.

Lemma decoded_linked s sections a b :
  parseFormationString s = Some sections ->
  consecutive a b sections -> linked a b.
Proof.
  intros H Hc.
  apply consecutive_adjacent in Hc; [|eapply decoded_positions, H].
  destruct (decoded_wagons_walked _ _ H) as (l & E). rewrite E in Hc.
  eapply pairwise_adjacent; [apply walkAll_linked | exact Hc].
Qed.

Lemma isLocomotive_true w : isLocomotive w = true <-> type w = "locomotive".
Proof. apply String.eqb_eq. Qed.

Lemma isLocomotive_false w : isLocomotive w = false <-> type w <> "locomotive".
Proof. apply String.eqb_neq. Qed.

(** The decoded sections of a concrete string, and its wagons when
    there are two, as witnesses of an existential. *)
Ltac exists_decoded s :=
  let r := eval vm_compute in (parseFormationString s) in
  match r with
  | Some ?sections => exists sections
  end.

Ltac exists_decoded_pair s :=
  let r := eval vm_compute in (parseFormationString s) in
  match r with
  | Some ?sections =>
      let l := eval vm_compute in (allWagonsOf sections) in
      match l with
      | [?a; ?b] => exists sections, a, b
      end
  end.

(** C1, where the code departs from it: inside a bracket group the
    fictitious marker [F] is decoded to a wagon of its own, so that
    [@A[1:1,F,2:2]] has three wagons and its two real coaches end at
    the positions 0 and 2; written as loose tokens, the same coaches
    end at 0 and 1, the marker taking a provisional position and
    leaving no wagon. *)
Theorem C1_fictitious_in_group :
  option_map (fun sections =>
                map (fun w => (number w, type w, position w))
                  (allWagonsOf sections))
    (parseFormationString "@A[1:1,F,2:2]")
  = Some [("1", "first-class", 0); ("", "wagon", 1); ("2", "second-class", 2)]
  /\ option_map (fun sections =>
                   map (fun w => (number w, type w, position w))
                     (allWagonsOf sections))
       (parseFormationString "@A,1:1,F,2:2")
     = Some [("1", "first-class", 0); ("2", "second-class", 1)]
  /\ option_map (fun m => map position (allWagonsOf (toSections m)))
       (fillSectorMap "@A,1:1,F,2:2") = Some [0; 2].
Proof. repeat split; vm_compute; reflexivity. Qed.

(** C2: in the decoded composition of every formation string, two
    wagons at consecutive positions neither of which is a locomotive
    agree on the passage between them: the earlier one's
    [noAccessToNext] equals the later one's [noAccessToPrevious]. *)
Theorem C2_symmetric_no_passage s sections a b :
  parseFormationString s = Some sections ->
  consecutive a b sections ->
  type a <> "locomotive" -> type b <> "locomotive" ->
  noAccessToNext a = noAccessToPrevious b.
Proof.
  intros H Hc Ha Hb.
  destruct (decoded_linked _ _ _ _ H Hc) as (L & _).
  apply L; now apply isLocomotive_false.
Qed.

Lemma C2_symmetric_no_passage_witness :
  exists sections a b,
    parseFormationString "(1:1),2:2" = Some sections
    /\ allWagonsOf sections = [a; b]
    /\ noAccessToPrevious b = true
    /\ noAccessToNext a = noAccessToPrevious b.
Proof.
  exists_decoded_pair "(1:1),2:2". split; [vm_compute; reflexivity|].
  split; [vm_compute; reflexivity|]. split; [reflexivity|].
  eapply (C2_symmetric_no_passage "(1:1),2:2").
  - vm_compute. reflexivity.
  - vm_compute. auto.
  - vm_compute. discriminate.
  - vm_compute. discriminate.
Defined.

(** C3, as the code has it: in the decoded composition of every
    formation string a locomotive has no status codes; between two
    wagons at consecutive positions one of which is a locomotive the
    two facing flags, the earlier one's [noAccessToNext] and the later
    one's [noAccessToPrevious], are false; and a locomotive that has a
    neighbour carries no message. *)
Theorem C3_locomotive_pairs s sections :
  parseFormationString s = Some sections ->
  (forall w, In w (allWagonsOf sections) -> type w = "locomotive" ->
             statusCodes w = [])
  /\ (forall a b, consecutive a b sections ->
        type a = "locomotive" \/ type b = "locomotive" ->
        noAccessToNext a = false /\ noAccessToPrevious b = false
        /\ (type a = "locomotive" -> noAccessMessage a = None)
        /\ (type b = "locomotive" -> noAccessMessage b = None)).
Proof.
  intros H. split.
  - intros w Hw Tw. destruct (decoded_wagons_walked _ _ H) as (l & E).
    rewrite E in Hw.
    pose proof (walkAll_locomotive_status l) as F.
    rewrite Forall_forall in F. apply F; auto. now apply isLocomotive_true.
  - intros a b Hc Hl.
    destruct (decoded_linked _ _ _ _ H Hc) as (_ & L2 & L3 & L4).
    assert (isLocomotive a || isLocomotive b = true) as Hor.
    { apply orb_true_iff. destruct Hl; [left|right];
        now apply isLocomotive_true. }
    destruct (L2 Hor) as [-> ->]. repeat split; auto.
    + intros Ta. now apply L3, isLocomotive_true.
    + intros Tb. now apply L4, isLocomotive_true.
Qed.

Lemma C3_locomotive_pairs_witness :
  exists sections a b,
    parseFormationString "(LK),(2:1)" = Some sections
    /\ allWagonsOf sections = [a; b]
    /\ statusCodes a = []
    /\ noAccessToNext a = false /\ noAccessToPrevious b = false.
Proof.
  exists_decoded_pair "(LK),(2:1)".
  match goal with
  | |- parseFormationString ?s = Some ?x /\ _ =>
      assert (E : parseFormationString s = Some x) by (vm_compute; reflexivity);
      destruct (C3_locomotive_pairs s x E) as [S P]
  end.
  split; [exact E|]. split; [vm_compute; reflexivity|]. split.
  - apply S; [vm_compute; auto | reflexivity].
  - match goal with
    | |- noAccessToNext ?a = false /\ noAccessToPrevious ?b = false =>
        destruct (P a b) as (N1 & N2 & _);
        [vm_compute; auto | left; reflexivity | split; assumption]
    end.
Defined.

(** C3 as stated fails: the lone locomotive of [(LK)] keeps both of
    its flags and a message, and in [LK,(2:1)] the coach next to the
    locomotive keeps [noAccessToNext]. *)
Lemma C3_counterexample :
  (exists sections w,
     parseFormationString "(LK)" = Some sections
     /\ allWagonsOf sections = [w]
     /\ type w = "locomotive"
     /\ noAccessToPrevious w = true /\ noAccessToNext w = true
     /\ noAccessMessage w = Some "No passage to next coach")
  /\ (exists sections a b,
        parseFormationString "LK,(2:1)" = Some sections
        /\ consecutive a b sections
        /\ type a = "locomotive"
        /\ noAccessToNext b = true).
Proof.
  split.
  - exists_decoded "(LK)". eexists. vm_compute. repeat split; reflexivity.
  - exists_decoded_pair "LK,(2:1)". vm_compute. repeat split; auto.
Qed.

(** ** The vehicle token decoder *)

Lemma oneOf_12 c : oneOf "12" c = true -> c = "1"%char \/ c = "2"%char.
Proof.
  simpl. rewrite orb_false_r. intros H. apply orb_prop in H as [H|H];
    apply Ascii.eqb_eq in H; auto.
Qed.

Lemma classNumberMatch_valid s c : classNumberMatch s = Some c -> validClass c.
Proof.
  unfold classNumberMatch. destruct s as [|ch r]; [discriminate|].
  destruct (oneOf "12" ch) eqn:E; [|discriminate].
  match goal with |- context [if ?b then _ else _] => destruct b end;
    [|discriminate].
  intros [= <-]. destruct (oneOf_12 _ E) as [-> | ->]; [left|right]; reflexivity.
Qed.

Lemma determineWagonClasses_valid token :
  Forall validClass (determineWagonClasses token).
Proof.
  assert (V1 : validClass "1") by now left.
  assert (V2 : validClass "2") by now right.
  unfold determineWagonClasses.
  destruct (FAMILY_WAGON_REGEX token); [now apply Forall_cons|].
  cbv zeta.
  match goal with |- context [classNumberMatch ?t] =>
    destruct (classNumberMatch t) as [c|] eqn:E
  end.
  - apply classNumberMatch_valid in E. now apply Forall_cons.
  - repeat match goal with |- context [if ?b then _ else _] => destruct b end;
      simpl; repeat (apply Forall_cons; [assumption|]); apply Forall_nil.
Qed.

Lemma parseVehicleToken_fields token sector position w :
  parseVehicleToken token sector position = Some w ->
  classes w = determineWagonClasses (statusStripped token)
  /\ statusCodes w = parseWagonStatus token
  /\ type w = determineWagonType
                (stripBracketsAndParentheses (statusStripped token)).
Proof.
  unfold parseVehicleToken.
  destruct (negb (truthy token) || String.eqb (trim token) "");
    [discriminate|].
  intros [= <-]. simpl. auto.
Qed.

Lemma startsWith_includes p s : startsWith p s = true -> includes p s = true.
Proof. unfold startsWith. destruct s; simpl; intros ->; reflexivity. Qed.

Lemma Forall_classes (P : list string -> Prop) (l l' : list TrainWagon) :
  map classes l' = map classes l ->
  Forall (fun w => P (classes w)) l -> Forall (fun w => P (classes w)) l'.
Proof.
  revert l'. induction l as [|w l IH]; intros [|w' l'] E H;
    try discriminate; constructor; inversion H; subst;
    injection E as E1 E2.
  - now rewrite E1.
  - now apply IH.
Qed.

(** C4: the classes of a decoded wagon are among '1' and '2', for the
    wagon the vehicle token decoder returns and for every wagon of a
    decoded composition; and a wagon whose status-stripped token
    matches the family pattern [F[AZ]] has exactly the class '2'. *)
Theorem C4_classes :
  (forall token sector position w,
     parseVehicleToken token sector position = Some w ->
     Forall validClass (classes w)
     /\ (FAMILY_WAGON_REGEX (statusStripped token) = true ->
         classes w = ["2"]))
  /\ (forall s sections w,
        parseFormationString s = Some sections ->
        In w (allWagonsOf sections) ->
        Forall validClass (classes w)).
Proof.
  split.
  - intros token sector position w H.
    destruct (parseVehicleToken_fields _ _ _ _ H) as (-> & _). split.
    + apply determineWagonClasses_valid.
    + unfold determineWagonClasses. now intros ->.
  - intros s sections w H Hw.
    set (P := fun w => Forall validClass (classes w)).
    assert (HP : Forall P (allWagonsOf sections)).
    { destruct (parseFormationString_cases _ _ H) as [->|(m & Hm & ->)];
        [constructor|].
      destruct (finalized_wagons (toSections m)) as (l & -> & El).
      apply (Forall_classes (Forall validClass) (allWagonsOf (toSections m))).
      - now rewrite walkAll_classes.
      - apply toSections_all. apply (fillSectorMap_all P) with (s := s); auto.
        + intros token sector position w' Hw'. unfold P.
          destruct (parseVehicleToken_fields _ _ _ _ Hw') as (-> & _).
          apply determineWagonClasses_valid.
        + intros w' rest i len ga hp. unfold P.
          now rewrite patchGroupWagon_classes. }
    rewrite Forall_forall in HP. now apply HP.
Qed.

Lemma C4_classes_witness :
  exists w sections,
    parseVehicleToken "%FA:7#NF" "A" 0 = Some w
    /\ classes w = ["2"]
    /\ parseFormationString "@A[12:3,W1:4]" = Some sections
    /\ Forall (fun w => Forall validClass (classes w)) (allWagonsOf sections).
Proof.
  destruct C4_classes as [T D].
  match eval vm_compute in (parseVehicleToken "%FA:7#NF" "A" 0) with
  | Some ?w => exists w
  end.
  exists_decoded "@A[12:3,W1:4]".
  split; [vm_compute; reflexivity|]. split.
  - eapply (T "%FA:7#NF" "A" 0); vm_compute; reflexivity.
  - split; [vm_compute; reflexivity|].
    apply Forall_forall. intros w Hw.
    eapply (D "@A[12:3,W1:4]"); [vm_compute; reflexivity | exact Hw].
Defined.

(** C5: the status codes of the wagon decoded from a vehicle token are
    exactly Closed when the token starts with [-] or contains [(-] or
    [@-]; otherwise they hold GroupBoarding iff the token contains
    [>], ReservedForTransit iff it contains [=], Unserviced iff it
    contains [%], and never Closed; and each of the eight subsets of
    the three occurs for some token. *)
Theorem C5_status_codes :
  (forall token sector position w,
     parseVehicleToken token sector position = Some w ->
     (closedMark token = true -> statusCodes w = [CLOSED])
     /\ (closedMark token = false ->
         (In GROUP_BOARDING (statusCodes w) <-> includes ">" token = true)
         /\ (In RESERVED_FOR_TRANSIT (statusCodes w)
             <-> includes "=" token = true)
         /\ (In UNSERVICED (statusCodes w) <-> includes "%" token = true)
         /\ ~ In CLOSED (statusCodes w)))
  /\ (forall g r u : bool,
        exists token w,
          parseVehicleToken token "" 0 = Some w
          /\ (In GROUP_BOARDING (statusCodes w) <-> g = true)
          /\ (In RESERVED_FOR_TRANSIT (statusCodes w) <-> r = true)
          /\ (In UNSERVICED (statusCodes w) <-> u = true)).
Proof.
  split.
  - intros token sector position w H.
    destruct (parseVehicleToken_fields _ _ _ _ H) as (_ & -> & _).
    unfold parseWagonStatus, closedMark.
    destruct (startsWith "-" token || includes "(-" token
              || includes "@-" token).
    + split; [reflexivity | discriminate].
    + split; [discriminate|]. intros _.
      assert (O : forall p, startsWith p token || includes p token
                            = includes p token).
      { intros p. destruct (startsWith p token) eqn:E; auto.
        now rewrite (startsWith_includes _ _ E). }
      rewrite !O.
      destruct (includes ">" token), (includes "=" token),
        (includes "%" token); simpl; repeat split; intros;
        try discriminate; auto;
        repeat match goal with
          | H : _ \/ _ |- _ => destruct H
          | H : False |- _ => destruct H
          end; try discriminate;
        try (intros K; intuition discriminate).
  - intros g r u.
    pose (token := (if g then ">" else "") ++ (if r then "=" else "")
                   ++ (if u then "%" else "") ++ "1:1").
    exists token.
    destruct g, r, u;
      match eval vm_compute in (parseVehicleToken token "" 0) with
      | Some ?w => exists w
      end;
      (split; [vm_compute; reflexivity|]); simpl; intuition discriminate.
Qed.

Lemma C5_status_codes_witness :
  exists w,
    parseVehicleToken "(-1:1)" "" 0 = Some w
    /\ statusCodes w = [CLOSED].
Proof.
  match eval vm_compute in (parseVehicleToken "(-1:1)" "" 0) with
  | Some ?w => exists w
  end.
  split; [vm_compute; reflexivity|].
  eapply (proj1 C5_status_codes "(-1:1)" "" 0);
    vm_compute; reflexivity.
Defined.

(** ** The vehicle group decoder *)

Lemma endsWith_cons p c s : endsWith p s = true -> endsWith p (String c s) = true.
Proof. intros H. simpl. rewrite H. apply orb_true_r. Qed.

Lemma lazyToClose_closed s m : lazyToClose s = Some m -> endsWith ")" m = true.
Proof.
  revert m. induction s as [|c s IH]; intros m H; simpl in H; [discriminate|].
  destruct (Ascii.eqb c ")"); [now injection H as <-|].
  destruct (isLineTerminator c); [discriminate|].
  destruct (lazyToClose s) as [m'|]; [|discriminate].
  injection H as <-. apply endsWith_cons. now apply IH.
Qed.

(** The two tests [parseVehicleGroup] makes on the matched text of
    [/\((.*?)\)/] hold for every match: they do not look at where the
    span lies in the group content. *)
Lemma groupParenthesisMatch_delimited content m :
  groupParenthesisMatch content = Some m ->
  startsWith "(" m = true /\ endsWith ")" m = true.
Proof.
  revert m. induction content as [|c s IH]; intros m H; simpl in H;
    [discriminate|].
  destruct (if Ascii.eqb c "(" then lazyToClose s else None) as [m'|] eqn:E;
    [|now apply IH].
  injection H as <-. destruct (Ascii.eqb c "("); [|discriminate].
  split.
  - unfold startsWith. simpl. now destruct m'.
  - apply endsWith_cons. eapply lazyToClose_closed, E.
Qed.

(** What the group decoder does to the two flags of a wagon: it sets
    [noAccessToPrevious] when the wagon is token 0 and the content has
    a parenthesis span anywhere, [noAccessToNext] when the wagon is the
    last token and the content has a span anywhere. *)
Lemma patchGroupWagon_flags content w rest i len ga :
  let hp := groupParenthesisMatch content in
  let spanExists := match hp with Some _ => true | None => false end in
  noAccessToPrevious (patchGroupWagon w rest i len ga hp)
  = noAccessToPrevious w || ((i =? 0)%nat && spanExists)
  /\ noAccessToNext (patchGroupWagon w rest i len ga hp)
     = noAccessToNext w
       || ((Z.of_nat i =? Z.of_nat len - 1)%Z && spanExists).
Proof.
  cbv zeta. unfold patchGroupWagon.
  destruct (groupParenthesisMatch content) as [m|] eqn:E.
  - destruct (groupParenthesisMatch_delimited _ _ E) as [-> ->].
    rewrite !andb_true_r.
    destruct (_ && _), (i =? 0)%nat, (Z.of_nat i =? Z.of_nat len - 1)%Z;
      simpl; rewrite ?orb_true_r, ?orb_false_r; auto.
  - rewrite !andb_false_r.
    destruct (_ && _); simpl; rewrite ?orb_false_r; auto.
Qed.

(** C6, where the code departs from it: the content [(1:1)] is one
    parenthesis span from its start to its end, yet its wagon gets
    neither boundary flag and no message, because the parentheses are
    tokens of their own and the wagon is neither token 0 nor the last
    token; and in [1:1,(2:2),2:3], whose span is strictly interior,
    the first wagon gets [noAccessToPrevious] and the last one
    [noAccessToNext], with the group message. *)
Theorem C6_group_boundary_flags :
  groupParenthesisMatch "(1:1)" = Some "(1:1)"
  /\ map (fun w => (noAccessToPrevious w, noAccessToNext w, noAccessMessage w))
       (parseVehicleGroup "(1:1)" "A" 0)
     = [(false, false, None)]
  /\ groupParenthesisMatch "1:1,(2:2),2:3" = Some "(2:2)"
  /\ map (fun w => (noAccessToPrevious w, noAccessToNext w, noAccessMessage w))
       (parseVehicleGroup "1:1,(2:2),2:3" "A" 0)
     = [(true, false, Some groupMessage); (false, false, None);
        (false, true, Some groupMessage)].
Proof. repeat split; vm_compute; reflexivity. Qed.

(** ** The travel direction resolver *)

Lemma truthy_false s : truthy s = false <-> s = "".
Proof. destruct s; simpl; split; congruence. Qed.



Lemma length_zero_nil {A : Type} (l : list A) :
  negb (0 <? List.length l)%nat = true <-> l = [].
Proof. destruct l; simpl; split; congruence. Qed.


(** ** Blank input, totality and the default sector *)

Lemma allWhiteSpace_trim s : allWhiteSpace s = true -> trim s = "".
Proof.
  unfold trim. induction s as [|c s IH]; simpl; auto.
  intros H. apply andb_prop in H as [-> H]. auto.
Qed.




(** ** The tokenizer and the fictitious marker *)

Lemma startsWith_F c s : startsWith "F" (String c s) = true <-> c = "F"%char.
Proof.
  unfold startsWith. cbn [prefix]. destruct (ascii_dec "F" c) as [<-|N].
  - destruct s; simpl; tauto.
  - split; [discriminate | congruence].
Qed.

Lemma createToken_value v p : tokValue (createToken v p) = v.
Proof.
  unfold createToken.
  repeat match goal with |- context [if ?b then _ else _] => destruct b end;
    reflexivity.
Qed.

Section FictitiousMarker.

(** No vehicle token starts with [F]. *)
Let Q (t : FormationToken) : Prop :=
  tokType t = VEHICLE -> startsWithF t = false.

Lemma flush_noVehicleF tokens cur pos :
  Forall Q tokens -> startsWith "F" cur = false ->
  Forall Q (fst (flush tokens cur pos)).
Proof.
  intros Ht Hc. unfold flush. destruct (truthy cur); simpl; auto.
  apply Forall_app. split; auto. constructor; [|constructor].
  intros _. unfold startsWithF. now rewrite createToken_value.
Qed.

Lemma pushStructural_noVehicleF ty v tokens cur pos :
  ty <> VEHICLE ->
  Forall Q tokens -> startsWith "F" cur = false ->
  Forall Q (fst (pushStructural ty v tokens cur pos)).
Proof.
  intros Hty Ht Hc. unfold pushStructural.
  pose proof (flush_noVehicleF tokens cur pos Ht Hc) as Hf.
  destruct (flush tokens cur pos) as [tokens' pos']. simpl in *.
  apply Forall_app. split; auto. constructor; [|constructor].
  intros K. simpl in K. congruence.
Qed.

Lemma tokenizeLoop_end tokens cur pos :
  tokenizeLoop "" tokens cur pos = fst (flush tokens cur pos).
Proof. unfold flush. simpl. now destruct (truthy cur). Qed.

Lemma tokenizeLoop_noVehicleF n : forall s tokens cur pos,
  String.length s <= n ->
  Forall Q tokens -> startsWith "F" cur = false ->
  Forall Q (tokenizeLoop s tokens cur pos).
Proof.
  induction n as [|n IH]; intros s tokens cur pos Hn Ht Hc.
  - destruct s; [|simpl in Hn; lia].
    rewrite tokenizeLoop_end. now apply flush_noVehicleF.
  - destruct s as [|char rest].
    { rewrite tokenizeLoop_end. now apply flush_noVehicleF. }
    simpl in Hn.
    assert (Struct : forall ty v s',
              ty <> VEHICLE -> String.length s' <= n ->
              Forall Q
                (let '(tokens, position) :=
                   pushStructural ty v tokens cur pos in
                 tokenizeLoop s' tokens "" position)).
    { intros ty v s' Hty Hs'.
      pose proof (pushStructural_noVehicleF ty v tokens cur pos Hty Ht Hc).
      destruct (pushStructural ty v tokens cur pos). now apply IH. }
    cbn [tokenizeLoop].
    destruct (Ascii.eqb char "@").
    { destruct rest as [|next rest'].
      - apply Struct; [discriminate | simpl; lia].
      - destruct (isUpper next);
          (apply Struct; [discriminate | simpl in *; lia]). }
    repeat match goal with
      | |- context [if Ascii.eqb char ?c then _ else _] =>
          destruct (Ascii.eqb char c) eqn:?;
          [apply Struct; [discriminate | lia] |]
      end.
    destruct (Ascii.eqb char "F" && negb (truthy cur)) eqn:EF.
    + apply IH; auto; [lia|].
      apply Forall_app. split; auto. constructor; [|constructor].
      intros K. discriminate.
    + apply IH; auto; [lia|].
      destruct cur as [|c0 cur]; simpl.
      * destruct (startsWith "F" (String char "")) eqn:K; auto.
        apply startsWith_F in K. subst char. discriminate.
      * destruct (startsWith "F" (String c0 (cur ++ String char "")))
          eqn:K; auto.
        apply startsWith_F in K. subst c0.
        now rewrite (proj2 (startsWith_F "F" cur) eq_refl) in Hc.
Qed.

Lemma tokenize_noVehicleF s t :
  In t (tokenizeFormationString s) ->
  tokType t = VEHICLE -> startsWithF t = false.
Proof.
  intros Hin. unfold tokenizeFormationString in Hin.
  pose proof (tokenizeLoop_noVehicleF (String.length s) s [] "" 0
                (le_n _) (Forall_nil _) eq_refl) as F.
  rewrite Forall_forall in F. now apply F.
Qed.

End FictitiousMarker.

(** C10, where the code departs from it: the tokenizer splits the
    group content [FA:5] into the FictitiousWagon token [F] and the
    Unknown token [A:5], but the group decoder decodes the
    FictitiousWagon token to a wagon, a generic one without number and
    class, which also takes the attributes of the group, as in
    [(FA)#FZ]; the loose token [FA:5] is decoded to the family coach
    it names, and the loose token [F] to no wagon. *)
Theorem C10_fictitious_marker :
  tokenizeFormationString "FA:5"
  = [mkToken FICTITIOUS_WAGON "F" 0; mkToken UNKNOWN "A:5" 1]
  /\ map (fun w => (number w, type w, classes w, map code (attributes w)))
       (parseVehicleGroup "FA:5" "A" 0)
     = [("", "wagon", [], [])]
  /\ option_map (fun sections =>
                   map (fun w => (number w, type w, classes w,
                                  map code (attributes w)))
                     (allWagonsOf sections))
       (parseFormationString "@A[FA:5]")
     = Some [("", "wagon", [], [])]
  /\ map (fun w => (number w, type w, classes w, map code (attributes w)))
       (parseVehicleGroup "(FA)#FZ" "A" 0)
     = [("", "wagon", [], ["FZ"])]
  /\ option_map (fun sections =>
                   map (fun w => (number w, type w, classes w,
                                  map code (attributes w)))
                     (allWagonsOf sections))
       (parseFormationString "@A,FA:5")
     = Some [("5", "second-class", ["2"], ["FZ"])]
  /\ parseFormationString "@A,F" = Some [].
Proof. repeat split; vm_compute; reflexivity. Qed.

(** * Further properties of the decoder *)

(** The fields of a wagon the finalizer does not write. *)
Definition sameCoach (w w' : TrainWagon) : Prop :=
  number w' = number w /\ type w' = type w /\ typeLabel w' = typeLabel w
  /\ classes w' = classes w /\ attributes w' = attributes w
  /\ sector w' = sector w.

(** ** What the finalizer leaves alone *)

Lemma sameCoach_refl w : sameCoach w w.
Proof. unfold sameCoach. tauto. Qed.

Lemma sameCoach_trans a b c : sameCoach a b -> sameCoach b c -> sameCoach a c.
Proof. unfold sameCoach. intuition congruence. Qed.

Lemma setDefaultMessage_sameCoach w : sameCoach w (setDefaultMessage w).
Proof.
  unfold setDefaultMessage, sameCoach.
  repeat match goal with |- context [if ?b then _ else _] => destruct b end;
    simpl; tauto.
Qed.

Lemma visitWagon_sameCoach w n : sameCoach w (visitWagon w n).
Proof.
  unfold visitWagon, sameCoach.
  destruct (isLocomotive _); simpl; tauto.
Qed.

Lemma linkPair_sameCoach p w :
  sameCoach p (fst (linkPair p w)) /\ sameCoach w (snd (linkPair p w)).
Proof.
  unfold linkPair, sameCoach.
  repeat match goal with |- context [if ?b then _ else _] => destruct b end;
    simpl; tauto.
Qed.

Lemma walk_sameCoach rest : forall p p0 n,
  sameCoach p0 p -> Forall2 sameCoach (p0 :: rest) (walk p n rest).
Proof.
  induction rest as [|w rest IH]; intros p p0 n Hp; simpl.
  - constructor; [exact Hp | constructor].
  - destruct (linkPair p (visitWagon w n)) as [p' w'] eqn:E.
    pose proof (linkPair_sameCoach p (visitWagon w n)) as [S1 S2].
    rewrite E in S1, S2. simpl in S1, S2.
    constructor.
    + eapply sameCoach_trans; eauto.
    + apply IH. eapply sameCoach_trans; [apply visitWagon_sameCoach|eauto].
Qed.

Lemma walkAll_sameCoach l : Forall2 sameCoach l (walkAll l).
Proof.
  destruct l as [|w l]; simpl; [constructor|].
  apply walk_sameCoach, visitWagon_sameCoach.
Qed.

Lemma filter_nonempty_wagons sections :
  allWagonsOf
    (filter (fun section => (0 <? List.length (wagons section))%nat) sections)
  = allWagonsOf sections.
Proof.
  unfold allWagonsOf. induction sections as [|sec rest IH]; simpl; auto.
  destruct (wagons sec) eqn:E; simpl; [exact IH|].
  now rewrite E, IH.
Qed.

Lemma Forall2_map_l {A B : Type} (R : B -> A -> Prop) (f : A -> B) l :
  (forall x, R (f x) x) -> Forall2 R (map f l) l.
Proof. intros H. induction l; simpl; constructor; auto. Qed.

Lemma Forall2_trans_sameCoach l1 l2 l3 :
  Forall2 sameCoach l1 l2 -> Forall2 sameCoach l2 l3 ->
  Forall2 sameCoach l1 l3.
Proof.
  intros H. revert l3. induction H; intros l3 H3; inversion H3; subst;
    constructor; eauto using sameCoach_trans.
Qed.

Lemma allWagonsOf_map_wagons (f : TrainWagon -> TrainWagon) sections :
  allWagonsOf
    (map (fun section => mkSection (sectionSector section)
                           (map f (wagons section))) sections)
  = map f (allWagonsOf sections).
Proof.
  unfold allWagonsOf. induction sections as [|sec rest IH]; simpl; auto.
  now rewrite map_app, IH.
Qed.

(** The finalizer keeps every wagon's number, type, label, classes,
    attributes and sector, in the order of the input. *)
Lemma finalize_sameCoach sections :
  Forall2 sameCoach (allWagonsOf sections)
    (allWagonsOf (finalizeTrainSections sections)).
Proof.
  unfold finalizeTrainSections.
  set (kept := filter _ sections).
  rewrite regroup_wagons.
  2:{ rewrite walkAll_length.
      unfold allWagonsOf; now rewrite !flat_map_concat_map. }
  rewrite <- (filter_nonempty_wagons sections). fold kept.
  eapply Forall2_trans_sameCoach; [|apply walkAll_sameCoach].
  change (flat_map wagons ?x) with (allWagonsOf x).
  rewrite allWagonsOf_map_wagons.
  apply Forall2_flip. apply Forall2_map_l. intros w.
  apply setDefaultMessage_sameCoach.
Qed.

Lemma patchGroupWagon_fields w rest i len ga hp :
  let w' := patchGroupWagon w rest i len ga hp in
  position w' = position w /\ number w' = number w /\ type w' = type w
  /\ typeLabel w' = typeLabel w /\ classes w' = classes w
  /\ sector w' = sector w /\ statusCodes w' = statusCodes w.
Proof.
  cbv zeta. unfold patchGroupWagon.
  repeat match goal with |- context [if ?b then _ else _] => destruct b end;
    simpl; tauto.
Qed.

(** ** Invariants of the decoded wagons *)

Section GroupInvariant.

Variable P : TrainWagon -> Prop.
Variable I : SectorMap -> Prop.
Variable currentSector : string.

Hypothesis P_token : forall token position w,
  parseVehicleToken token currentSector position = Some w -> P w.
Hypothesis P_group : forall content position,
  Forall P (parseVehicleGroup content currentSector position).
Hypothesis I_push : forall ws m,
  Forall P ws -> I m -> I (pushWagons currentSector ws m).

Lemma drainBrackets_keeps fuel : forall segment position m r,
  I m ->
  drainBrackets fuel segment currentSector position m = Some r ->
  I (snd r).
Proof.
  induction fuel as [|fuel IH]; intros segment position m r Hm H;
    simpl in H;
    destruct (extractBracketContent segment "[" "]") as [x|];
    try discriminate; try (injection H as <-; exact Hm).
  destruct (0 <? List.length (parseVehicleGroup x currentSector position))%nat;
    eapply IH in H; auto.
Qed.

Lemma looseTokens_keep tokens : forall st,
  I (snd st) ->
  I (snd (fold_left (processLooseToken currentSector) tokens st)).
Proof.
  induction tokens as [|t rest IH]; intros [position m] H; simpl; auto.
  apply IH. simpl in H.
  destruct (String.eqb (trim t) "F"); auto.
  destruct (isPotentialWagonToken (trim t)); auto.
  destruct (parseVehicleToken (trim t) currentSector position) eqn:E;
    simpl; auto.
  apply I_push; auto. constructor; [|constructor]. eapply P_token, E.
Qed.

Lemma processSegment_keeps segment position m r :
  I m ->
  processSegment segment currentSector position m = Some r ->
  I (snd r).
Proof.
  unfold processSegment. intros Hm H.
  destruct (drainBrackets (String.length segment) segment currentSector
              position m) as [[[seg' pos'] m']|] eqn:E; [|discriminate].
  injection H as <-. apply looseTokens_keep. simpl.
  apply (drainBrackets_keeps _ _ _ _ _ Hm E).
Qed.

End GroupInvariant.

(** The sector a segment is decoded under, and the keys of the map. *)
Definition validSector (k : string) : Prop :=
  k = "" \/ exists c, isUpper c = true /\ k = String c "".

Section DecodedWagons.

Variable P : TrainWagon -> Prop.
Variable K : list string -> Prop.

Hypothesis P_token : forall token sector position w,
  parseVehicleToken token sector position = Some w -> P w.
Hypothesis P_group : forall content sector position,
  Forall P (parseVehicleGroup content sector position).
Hypothesis P_sameCoach : forall w w', sameCoach w w' -> P w -> P w'.

(** The keys of the map satisfy [K], an invariant of adding a valid
    sector that is not yet a key. *)
Hypothesis K_nil : K [].
Hypothesis K_add : forall keys k,
  K keys -> validSector k -> ~ In k keys -> K (keys ++ [k]).

Let Inv (m : SectorMap) : Prop := allInMap P m /\ K (map fst m).

Lemma mapSet_keys k v : forall m,
  map fst (mapSet k v m)
  = if mapHas k m then map fst m else (map fst m ++ [k])%list.
Proof.
  unfold mapHas. induction m as [|[k' v'] m IH]; simpl; auto.
  destruct (String.eqb k k') eqn:E; simpl; auto.
  rewrite IH. now destruct (mapGet k m).
Qed.

Lemma mapHas_In k : forall m, mapHas k m = false -> ~ In k (map fst m).
Proof.
  unfold mapHas. induction m as [|[k' v'] m IH]; simpl; auto.
  destruct (String.eqb k k') eqn:E; [discriminate|].
  apply String.eqb_neq in E. intros H [->|H']; [congruence|]. now apply IH.
Qed.

Lemma mapSet_Inv k v m :
  validSector k -> Forall P v -> Inv m -> Inv (mapSet k v m).
Proof.
  intros Hk Hv [H1 H2]. split; [now apply mapSet_all|].
  rewrite mapSet_keys. destruct (mapHas k m) eqn:E; auto.
  apply K_add; auto. now apply mapHas_In.
Qed.

Lemma pushWagons_Inv k ws m :
  validSector k -> Forall P ws -> Inv m -> Inv (pushWagons k ws m).
Proof.
  intros Hk Hw Hm. unfold pushWagons. apply mapSet_Inv; auto.
  apply Forall_app. split; auto.
  destruct (mapGet k m) eqn:E; [|constructor].
  eapply mapGet_all; [apply Hm | exact E].
Qed.

Lemma sectorMatch_valid segment i letter :
  sectorMatch segment = Some (i, letter) -> validSector letter.
Proof.
  unfold sectorMatch. generalize 0.
  induction segment as [|c s IH]; intros n H; simpl in H; [discriminate|].
  destruct s as [|d s']; [discriminate|].
  destruct (Ascii.eqb c "@" && isUpper d) eqn:E.
  - injection H as _ <-. apply andb_prop in E as [_ E]. right. eauto.
  - eapply IH, H.
Qed.

Lemma processSectorSegment_Inv sector0 position0 m0 segment sector position m :
  validSector sector0 -> Inv m0 ->
  processSectorSegment (Some (sector0, position0, m0)) segment
  = Some (sector, position, m) ->
  validSector sector /\ Inv m.
Proof.
  intros Hs Hm. unfold processSectorSegment.
  destruct (negb (truthy (trim segment))).
  - intros [= <- _ <-]. auto.
  - destruct (sectorMatch segment) as [[i letter]|] eqn:SM;
      match goal with |- context [processSegment ?a ?b ?c ?d] =>
        destruct (processSegment a b c d) as [[p' m']|] eqn:E
      end; try discriminate; intros [= <- _ <-].
    + pose proof (sectorMatch_valid _ _ _ SM) as Hl. split; auto.
      eapply (processSegment_keeps P Inv letter
                (fun t => P_token t letter) (fun c => P_group c letter)) in E; eauto.
      * intros ws m1. now apply pushWagons_Inv.
      * destruct (negb (mapHas letter m0)); auto.
        apply mapSet_Inv; auto.
    + split; auto.
      eapply (processSegment_keeps P Inv sector0
                (fun t => P_token t sector0) (fun c => P_group c sector0)) in E; eauto.
      intros ws m1. now apply pushWagons_Inv.
Qed.

Lemma sectorSegments_Inv segments : forall sector0 position0 m0 r,
  validSector sector0 -> Inv m0 ->
  fold_left processSectorSegment segments (Some (sector0, position0, m0))
  = Some r ->
  Inv (snd r).
Proof.
  induction segments as [|seg rest IH]; intros sector0 position0 m0 r Hs Hm H;
    cbn [fold_left] in H.
  - now injection H as <-.
  - destruct (processSectorSegment (Some (sector0, position0, m0)) seg)
      as [[[s' p'] m']|] eqn:E.
    + destruct (processSectorSegment_Inv _ _ _ _ _ _ _ Hs Hm E).
      eapply IH in H; eauto.
    + clear -H. exfalso. induction rest; simpl in H; [discriminate|auto].
Qed.

Lemma fillSectorMap_Inv s m : fillSectorMap s = Some m -> Inv m.
Proof.
  assert (I0 : Inv []) by (split; [constructor | exact K_nil]).
  assert (V0 : validSector "") by now left.
  unfold fillSectorMap.
  destruct (includes "@" s || backslashSector s).
  - destruct (fold_left _ _ _) as [[[a b] m']|] eqn:E; [|discriminate].
    intros [= <-]. now apply sectorSegments_Inv in E.
  - match goal with |- context [processSegment ?a ?b ?c ?d] =>
      destruct (processSegment a b c d) as [[p' m']|] eqn:E
    end; [|discriminate].
    intros [= <-].
    eapply (processSegment_keeps P Inv ""
                (fun t => P_token t "") (fun c => P_group c "")) in E; eauto.
    intros ws m1. now apply pushWagons_Inv.
Qed.

(** A property of the wagons the vehicle token decoder and the group
    decoder return that the finalizer keeps holds of every wagon of a
    decoded composition. *)
Lemma decoded_wagons_all s sections :
  parseFormationString s = Some sections ->
  Forall P (allWagonsOf sections).
Proof.
  intros H.
  destruct (parseFormationString_cases _ _ H) as [->|(m & Hm & ->)];
    [constructor|].
  pose proof (toSections_all P m (proj1 (fillSectorMap_Inv s m Hm))) as HP.
  pose proof (finalize_sameCoach (toSections m)) as HF.
  revert HP. induction HF; intros HP; constructor; inversion HP; subst; eauto.
Qed.

End DecodedWagons.

(** ** The sections of a decoded composition *)

Lemma regroup_lengths sections : forall l,
  List.length l = List.length (allWagonsOf sections) ->
  map (fun section => List.length (wagons section)) (regroup sections l)
  = map (fun section => List.length (wagons section)) sections.
Proof.
  unfold allWagonsOf.
  induction sections as [|sec rest IH]; intros l Hl; simpl in *; auto.
  rewrite length_app in Hl. rewrite IH.
  - f_equal. rewrite length_firstn. lia.
  - rewrite length_skipn. lia.
Qed.

Lemma finalize_shape sections :
  let kept :=
    filter (fun section => (0 <? List.length (wagons section))%nat) sections in
  map sectionSector (finalizeTrainSections sections) = map sectionSector kept
  /\ map (fun section => List.length (wagons section))
       (finalizeTrainSections sections)
     = map (fun section => List.length (wagons section)) kept.
Proof.
  cbv zeta. unfold finalizeTrainSections.
  set (kept := filter _ sections).
  set (marked := map _ kept).
  assert (E1 : map sectionSector marked = map sectionSector kept).
  { unfold marked. rewrite map_map. reflexivity. }
  assert (E2 : map (fun section => List.length (wagons section)) marked
               = map (fun section => List.length (wagons section)) kept).
  { unfold marked. rewrite map_map. apply map_ext. intros sec. simpl.
    apply length_map. }
  split.
  - now rewrite regroup_sectors.
  - rewrite regroup_lengths; auto. now rewrite walkAll_length.
Qed.

(** X1: the finalizer drops the sections without wagons, keeps the sector
    and the number of wagons of every other section, in order, and
    changes nothing of a wagon but its position, status codes,
    no-passage flags and message. *)
Theorem finalizer_frame sections :
  let kept :=
    filter (fun section => (0 <? List.length (wagons section))%nat) sections in
  map sectionSector (finalizeTrainSections sections) = map sectionSector kept
  /\ map (fun section => List.length (wagons section))
       (finalizeTrainSections sections)
     = map (fun section => List.length (wagons section)) kept
  /\ Forall2 sameCoach (allWagonsOf sections)
       (allWagonsOf (finalizeTrainSections sections)).
Proof.
  cbv zeta. destruct (finalize_shape sections) as [E1 E2].
  repeat split; auto. apply finalize_sameCoach.
Qed.

Lemma toSections_sectors m :
  map sectionSector (toSections m)
  = map fst (filter (fun kv => (0 <? List.length (snd kv))%nat) m)
  /\ Forall (fun section => wagons section <> []) (toSections m).
Proof.
  induction m as [|[k v] m [IH1 IH2]]; simpl; [split; [auto|constructor]|].
  destruct v as [|w v]; simpl; auto.
  split; [now rewrite IH1|]. constructor; auto. discriminate.
Qed.

Lemma filter_all {A : Type} (f : A -> bool) l :
  Forall (fun x => f x = true) l -> filter f l = l.
Proof.
  induction 1 as [|x l Hx Hl IH]; simpl; auto. now rewrite Hx, IH.
Qed.

Lemma NoDup_map_filter {A B : Type} (g : A -> B) (f : A -> bool) l :
  NoDup (map g l) -> NoDup (map g (filter f l)).
Proof.
  induction l as [|x l IH]; simpl; intros H; auto.
  inversion H; subst. destruct (f x); simpl; auto.
  constructor; auto. intros K. apply H2.
  apply in_map_iff in K as (y & <- & Hy). apply filter_In in Hy as [Hy _].
  now apply in_map.
Qed.

Lemma Forall_map_filter {A B : Type} (Q : B -> Prop) (g : A -> B)
  (f : A -> bool) l :
  Forall Q (map g l) -> Forall Q (map g (filter f l)).
Proof.
  induction l as [|x l IH]; simpl; intros H; auto.
  inversion H; subst. destruct (f x); simpl; auto.
Qed.

Lemma decoded_sections_shape s sections :
  parseFormationString s = Some sections ->
  Forall (fun section => wagons section <> []) sections
  /\ NoDup (map sectionSector sections)
  /\ Forall validSector (map sectionSector sections).
Proof.
  intros H.
  destruct (parseFormationString_cases _ _ H) as [->|(m & Hm & ->)].
  { repeat split; constructor. }
  pose proof (fillSectorMap_Inv (fun _ => True)
                (fun keys => NoDup keys /\ Forall validSector keys)) as HI.
  destruct (HI (fun _ _ _ _ _ => Logic.I)) with (s := s) (m := m)
    as [_ [N V]]; auto.
  { intros. apply Forall_forall. auto. }
  { split; constructor. }
  { intros keys k [N V] Hk Hn. split.
    - apply NoDup_app; [auto | repeat constructor; auto |].
      intros x Hx [<-|[]]. auto.
    - apply Forall_app. auto. }
  destruct (toSections_sectors m) as [TS TN].
  destruct (finalize_shape (toSections m)) as [E1 E2]. cbv zeta in E1, E2.
  assert (F : filter (fun section => (0 <? List.length (wagons section))%nat)
                (toSections m) = toSections m).
  { apply filter_all. eapply Forall_impl; [|exact TN].
    intros sec Hs. cbv beta in *.
    destruct (wagons sec); [now elim Hs | reflexivity]. }
  rewrite F in E1, E2. rewrite E1, TS. repeat split.
  - apply Forall_forall. intros sec Hin K.
    assert (Hl : In (List.length (wagons sec))
                   (map (fun section => List.length (wagons section))
                      (finalizeTrainSections (toSections m)))).
    { apply in_map_iff. eauto. }
    rewrite E2 in Hl. apply in_map_iff in Hl as (sec' & E & Hin').
    rewrite Forall_forall in TN. specialize (TN sec' Hin').
    rewrite K in E. simpl in E. destruct (wagons sec'); [now elim TN|].
    discriminate.
  - now apply NoDup_map_filter.
  - now apply Forall_map_filter.
Qed.

(** X2: the sections of a decoded composition: none is without wagons, no
    two carry the same sector, and a sector is the empty default or
    one capital letter. *)
Theorem decoded_sections s sections :
  parseFormationString s = Some sections ->
  Forall (fun section => wagons section <> []) sections
  /\ NoDup (map sectionSector sections)
  /\ Forall validSector (map sectionSector sections).
Proof. apply decoded_sections_shape. Qed.

Lemma decoded_sections_witness :
  exists sections,
    parseFormationString "@A[1:1]@B,F@A[2:2]@C" = Some sections
    /\ map sectionSector sections = ["A"]
    /\ NoDup (map sectionSector sections).
Proof.
  exists_decoded "@A[1:1]@B,F@A[2:2]@C".
  split; [vm_compute; reflexivity|]. split; [vm_compute; reflexivity|].
  eapply (decoded_sections "@A[1:1]@B,F@A[2:2]@C"). vm_compute. reflexivity.
Defined.

(** ** The fields of a decoded wagon *)

Fixpoint allDigits (s : string) : bool :=
  match s with
  | EmptyString => true
  | String c s' => isDigit c && allDigits s'
  end.

(** An ordinal number as the decoder extracts it: one to three digits. *)
Definition ordinal (n : string) : Prop :=
  1 <= String.length n <= 3 /\ allDigits n = true.

(** An attribute as the tables of the decoder define it: the implicit
    restaurant attribute or an entry of [OFFER_MAPPING]. *)
Definition knownAttribute (a : WagonAttribute) : Prop :=
  a = mkAttribute "WR" "Restaurant" "restaurant"
  \/ lookup (code a) OFFER_MAPPING = Some (label a, icon a).

Definition wellFormedAttributes (attrs : list WagonAttribute) : Prop :=
  NoDup (map code attrs) /\ Forall knownAttribute attrs.

Lemma digitRun_digits max : forall s k ds r,
  digitRun max s k = Some (ds, r) ->
  String.length ds <= max /\ allDigits ds = true.
Proof.
  induction max as [|max IH]; intros s k ds r H; simpl in H.
  - destruct (k s); [|discriminate]. injection H as <- _. auto.
  - destruct s as [|d s'].
    + destruct (k ""); [|discriminate]. injection H as <- _. simpl. split; [lia|auto].
    + destruct (isDigit d) eqn:D.
      * destruct (digitRun max s' k) as [[ds' r']|] eqn:E.
        -- injection H as <- _. apply IH in E as [E1 E2]. simpl.
           rewrite D, E2. split; [lia|auto].
        -- destruct (k (String d s')); [|discriminate].
           injection H as <- _. simpl. split; [lia|auto].
      * destruct (k (String d s')); [|discriminate].
        injection H as <- _. simpl. split; [lia|auto].
Qed.

Lemma digits1to3_ordinal s k ds r :
  digits1to3 s k = Some (ds, r) -> ordinal ds.
Proof.
  unfold digits1to3. destruct s as [|d s']; [discriminate|].
  destruct (isDigit d) eqn:D; [|discriminate].
  destruct (digitRun 2 s' k) as [[ds' r']|] eqn:E; [|discriminate].
  intros [= <- _]. apply digitRun_digits in E as [E1 E2].
  unfold ordinal. simpl. rewrite D, E2. split; [lia|auto].
Qed.

Lemma extractOrdnr_ordinal token n : extractOrdnr token = Some n -> ordinal n.
Proof.
  unfold extractOrdnr.
  assert (P1 : forall s n, ordnrPattern1 s = Some n -> ordinal n).
  { induction s as [|c s IH]; intros m H; cbn [ordnrPattern1] in H;
      [discriminate|].
    destruct (if oneOf ",:" c then digits1to3 s ordnrEnd else None)
      as [[ds r]|] eqn:E; [|exact (IH _ H)].
    injection H as <-. destruct (oneOf ",:" c); [|discriminate].
    eapply digits1to3_ordinal, E. }
  assert (P2 : forall s n, ordnrPattern2 s = Some n -> ordinal n).
  { induction s as [|c s IH]; intros m H; cbn [ordnrPattern2] in H;
      [discriminate|].
    match type of H with
    | context [digits1to3 (String c s) ?k] =>
        destruct (digits1to3 (String c s) k) as [[ds r]|];
        [|exact (IH _ H)]
    end.
    destruct (digits1to3 (substringFrom r 1) (fun _ => true))
      as [[ds' r']|] eqn:E; [|exact (IH _ H)].
    injection H as <-. eapply digits1to3_ordinal, E. }
  destruct (ordnrPattern1 token) eqn:E1.
  - intros [= <-]. eauto.
  - eauto.
Qed.

Lemma parseVehicleToken_number token sector position w :
  parseVehicleToken token sector position = Some w ->
  number w = "" \/ ordinal (number w).
Proof.
  unfold parseVehicleToken.
  destruct (negb (truthy token) || String.eqb (trim token) "");
    [discriminate|].
  intros [= <-]. simpl.
  destruct (extractOrdnr _) eqn:E; [right|now left].
  eapply extractOrdnr_ordinal, E.
Qed.

Lemma decoded_number_ordinal s sections w :
  parseFormationString s = Some sections ->
  In w (allWagonsOf sections) ->
  number w = "" \/ ordinal (number w).
Proof.
  intros H Hw.
  set (P := fun w => number w = "" \/ ordinal (number w)).
  assert (PT : forall token sector position w,
             parseVehicleToken token sector position = Some w -> P w)
    by exact parseVehicleToken_number.
  assert (D : Forall P (allWagonsOf sections)).
  { apply (decoded_wagons_all P (fun _ => True) PT) with (s := s); auto.
    - intros. apply parseVehicleGroup_all; auto.
      intros w0 rest i len ga hp. unfold P.
      now destruct (patchGroupWagon_fields w0 rest i len ga hp)
        as (_ & -> & _).
    - intros w0 w' (E & _). unfold P. now rewrite E. }
  rewrite Forall_forall in D. now apply D.
Qed.

(** X3: the number of a decoded wagon is empty or an ordinal of one to
    three digits, for the ordinal [extractOrdnr] returns and for every
    wagon of a decoded composition. *)
Theorem decoded_number :
  (forall token n, extractOrdnr token = Some n -> ordinal n)
  /\ (forall s sections w,
        parseFormationString s = Some sections ->
        In w (allWagonsOf sections) ->
        number w = "" \/ ordinal (number w)).
Proof. split; [exact extractOrdnr_ordinal | exact decoded_number_ordinal]. Qed.

Lemma decoded_number_witness :
  ordinal "678"
  /\ exists sections,
       parseFormationString "@A[1:12,2:1234:5]" = Some sections
       /\ map number (allWagonsOf sections) = ["12"; "5"]
       /\ Forall (fun w => number w = "" \/ ordinal (number w))
            (allWagonsOf sections).
Proof.
  destruct decoded_number as [E D]. split.
  - apply (E "12345:678"). vm_compute. reflexivity.
  - exists_decoded "@A[1:12,2:1234:5]".
    split; [vm_compute; reflexivity|]. split; [vm_compute; reflexivity|].
    apply Forall_forall. intros w Hw.
    eapply (D "@A[1:12,2:1234:5]"); [vm_compute; reflexivity | exact Hw].
Defined.

Lemma hasCode_In c attrs : hasCode c attrs = false -> ~ In c (map code attrs).
Proof.
  unfold hasCode. induction attrs as [|a attrs IH]; simpl; auto.
  intros H. apply orb_false_iff in H as [H1 H2].
  apply String.eqb_neq in H1. intros [E|E]; [congruence|]. now apply IH.
Qed.

Lemma wellFormed_push attrs a :
  wellFormedAttributes attrs -> knownAttribute a ->
  hasCode (code a) attrs = false ->
  wellFormedAttributes (attrs ++ [a]).
Proof.
  intros [N K] Ka H. split.
  - rewrite map_app. simpl. apply NoDup_app; auto.
    + repeat constructor. auto.
    + intros x Hx [<-|[]]. now apply hasCode_In in H.
  - apply Forall_app. auto.
Qed.

Lemma addOffers_wellFormed offers : forall attrs,
  wellFormedAttributes attrs -> wellFormedAttributes (addOffers offers attrs).
Proof.
  induction offers as [|offer rest IH]; intros attrs H; cbn [addOffers]; auto.
  destruct (lookup offer OFFER_MAPPING) as [[l i]|] eqn:E; auto.
  destruct (negb (hasCode offer attrs)) eqn:C; auto.
  apply IH. apply wellFormed_push; auto.
  - right. exact E.
  - now apply negb_true_iff in C.
Qed.

Lemma parseWagonAttributes_wellFormed token :
  wellFormedAttributes (parseWagonAttributes token).
Proof.
  unfold parseWagonAttributes.
  match goal with
  | |- context [match ?o with Some _ => _ | None => ?base end] =>
      assert (B : wellFormedAttributes base)
  end.
  { destruct (FAMILY_WAGON_REGEX token), (includes "D" token),
      (includes "WL" token), (includes "CC" token),
      (RESTAURANT_WAGON_REGEX token && negb (includes "%" token));
      (split;
       [simpl; repeat (constructor; [simpl; intuition discriminate|]);
        constructor
       | simpl; repeat (constructor; [(now left) || (now right)|]);
         constructor]). }
  cbv zeta. destruct (offerMatch token); auto.
  now apply addOffers_wellFormed.
Qed.

Lemma pushGroupAttributes_wellFormed ga : forall attrs,
  Forall knownAttribute ga -> wellFormedAttributes attrs ->
  wellFormedAttributes (pushGroupAttributes ga attrs).
Proof.
  induction ga as [|a ga IH]; intros attrs Hg H; simpl; auto.
  inversion Hg; subst.
  destruct (negb (hasCode (code a) attrs)) eqn:C; auto.
  apply IH; auto. apply wellFormed_push; auto.
  now apply negb_true_iff in C.
Qed.

Lemma collectAttributes_known offers :
  Forall knownAttribute (collectAttributes offers).
Proof.
  induction offers as [|offer rest IH]; cbn [collectAttributes];
    [constructor|].
  unfold getAttributeObject.
  destruct (lookup offer OFFER_MAPPING) as [[l i]|] eqn:E; auto.
  constructor; auto. right. exact E.
Qed.

Lemma patchGroupWagon_wellFormed w rest i len ga hp :
  Forall knownAttribute ga ->
  wellFormedAttributes (attributes w) ->
  wellFormedAttributes (attributes (patchGroupWagon w rest i len ga hp)).
Proof.
  intros Hg H. unfold patchGroupWagon.
  repeat match goal with |- context [if ?b then _ else _] => destruct b end;
    simpl; auto using pushGroupAttributes_wellFormed.
Qed.

Lemma groupLoop_wellFormed tokens : forall i len ga hp sector position ws,
  Forall knownAttribute ga ->
  Forall (fun w => wellFormedAttributes (attributes w)) ws ->
  Forall (fun w => wellFormedAttributes (attributes w))
    (groupLoop tokens i len ga hp sector position ws).
Proof.
  induction tokens as [|t rest IH]; intros i len ga hp sector position ws Hg H;
    simpl; auto.
  destruct (TokenType_eqb (tokType t) SECTOR); [now apply IH|].
  destruct (negb (TokenType_eqb (tokType t) VEHICLE)
            && negb (TokenType_eqb (tokType t) FICTITIOUS_WAGON));
    [now apply IH|].
  destruct (parseVehicleToken (tokValue t) sector position) as [w|] eqn:E;
    [|now apply IH].
  apply IH; auto. apply Forall_app. split; auto.
  constructor; [|constructor]. apply patchGroupWagon_wellFormed; auto.
  unfold parseVehicleToken in E.
  destruct (negb (truthy (tokValue t)) || String.eqb (trim (tokValue t)) "");
    [discriminate|].
  injection E as <-. simpl. apply parseWagonAttributes_wellFormed.
Qed.

Lemma decoded_attributes_wellFormed s sections w :
  parseFormationString s = Some sections ->
  In w (allWagonsOf sections) ->
  wellFormedAttributes (attributes w).
Proof.
  intros H Hw.
  set (P := fun w => wellFormedAttributes (attributes w)).
  assert (D : Forall P (allWagonsOf sections)).
  { apply (decoded_wagons_all P (fun _ => True)) with (s := s); auto.
    - intros token sector position w0 E. unfold P, parseVehicleToken in *.
      destruct (negb (truthy token) || String.eqb (trim token) "");
        [discriminate|].
      injection E as <-. simpl. apply parseWagonAttributes_wellFormed.
    - intros content sector position. unfold parseVehicleGroup.
      apply groupLoop_wellFormed; [|constructor].
      destruct (groupAttributesMatch content) as [[offers|]|];
        try constructor.
      destruct (truthy offers); [apply collectAttributes_known|constructor].
    - intros w0 w' (_ & _ & _ & _ & E & _). unfold P. now rewrite E. }
  rewrite Forall_forall in D. now apply D.
Qed.

(** X4: the attributes of every wagon of a decoded composition are unique
    by code, and each is the implicit restaurant attribute or an entry
    of the offer table with the label and icon the table gives. *)
Theorem decoded_attributes s sections w :
  parseFormationString s = Some sections ->
  In w (allWagonsOf sections) ->
  NoDup (map code (attributes w)) /\ Forall knownAttribute (attributes w).
Proof. apply decoded_attributes_wellFormed. Qed.

Lemma decoded_attributes_witness :
  exists sections,
    parseFormationString "@A[WR:1#NF;NF;WR,(2:2)#NF;VH;NF]" = Some sections
    /\ map (fun w => map code (attributes w)) (allWagonsOf sections)
       = [["WR"; "NF"]; ["NF"; "VH"]]
    /\ Forall (fun w => NoDup (map code (attributes w)))
         (allWagonsOf sections).
Proof.
  exists_decoded "@A[WR:1#NF;NF;WR,(2:2)#NF;VH;NF]".
  split; [vm_compute; reflexivity|]. split; [vm_compute; reflexivity|].
  apply Forall_forall. intros w Hw.
  eapply (decoded_attributes "@A[WR:1#NF;NF;WR,(2:2)#NF;VH;NF]");
    [vm_compute; reflexivity | exact Hw].
Defined.

Lemma firstEntry_In p l ty : firstEntry p l = Some ty -> In ty (map snd l).
Proof.
  induction l as [|[c t] l IH]; simpl; [discriminate|].
  destruct (p c); [intros [= <-]; now left | intros H; right; auto].
Qed.

Lemma determineWagonType_known token :
  In (determineWagonType token) ("wagon" :: map snd sortedEntries).
Proof.
  unfold determineWagonType.
  destruct (firstEntry (fun code => anchoredCode code token) sortedEntries)
    eqn:E1.
  - right. eapply firstEntry_In, E1.
  - destruct (firstEntry (fun code => includes code token) sortedEntries)
      eqn:E2; [|now left].
    right. eapply firstEntry_In, E2.
Qed.

(** X5: the type of every wagon of a decoded composition is the default
    ['wagon'] or a type of the code table, and its label is the one the
    label table gives for that type: the fallback label of
    [getTypeLabel] is never needed. *)
Theorem decoded_type_label s sections w :
  parseFormationString s = Some sections ->
  In w (allWagonsOf sections) ->
  In (type w) ("wagon" :: map snd WAGON_TYPE_MAPPING)
  /\ lookup (type w) TYPE_LABELS = Some (typeLabel w).
Proof.
  intros H Hw.
  set (P := fun w => In (type w) ("wagon" :: map snd WAGON_TYPE_MAPPING)
                     /\ lookup (type w) TYPE_LABELS = Some (typeLabel w)).
  assert (D : Forall P (allWagonsOf sections)).
  { assert (PT : forall token sector position w,
               parseVehicleToken token sector position = Some w -> P w).
    { intros token sector position w0 E. unfold P, parseVehicleToken in *.
      destruct (negb (truthy token) || String.eqb (trim token) "");
        [discriminate|].
      injection E as <-. simpl.
      pose proof (determineWagonType_known
                    (stripBracketsAndParentheses (statusStripped token))) as K.
      revert K. generalize (determineWagonType
                    (stripBracketsAndParentheses (statusStripped token))).
      intros ty K. vm_compute in K.
      repeat (destruct K as [<-|K];
              [split; [vm_compute; tauto | reflexivity]|]).
      destruct K. }
    apply (decoded_wagons_all P (fun _ => True) PT) with (s := s); auto.
    - intros. apply parseVehicleGroup_all; auto.
      intros w0 rest i len ga hp. unfold P.
      now destruct (patchGroupWagon_fields w0 rest i len ga hp)
        as (_ & _ & -> & -> & _).
    - intros w0 w' (_ & E1 & E2 & _). unfold P. now rewrite E1, E2. }
  rewrite Forall_forall in D. now apply D.
Qed.

Lemma decoded_type_label_witness :
  exists sections,
    parseFormationString "@A[LK,F,W1:3]" = Some sections
    /\ map (fun w => (type w, typeLabel w)) (allWagonsOf sections)
       = [("locomotive", "Locomotive"); ("wagon", "Coach");
          ("restaurant-first", "1st Class Coach")]
    /\ Forall (fun w => lookup (type w) TYPE_LABELS = Some (typeLabel w))
         (allWagonsOf sections).
Proof.
  exists_decoded "@A[LK,F,W1:3]".
  split; [vm_compute; reflexivity|]. split; [vm_compute; reflexivity|].
  apply Forall_forall. intros w Hw.
  eapply (decoded_type_label "@A[LK,F,W1:3]");
    [vm_compute; reflexivity | exact Hw].
Defined.

(** ** The tokenizer *)

(** The text of a token list: the values written one after another. *)
Definition tokenText (tokens : list FormationToken) : string :=
  fold_right (fun t acc => tokValue t ++ acc) EmptyString tokens.

(** A character the tokenizer accumulates unless it is a lone [F]. *)
Definition plainChar (c : ascii) : bool := negb (oneOf "@[](),\" c).

(** The kind and value of a token the tokenizer pushes without looking
    at the buffer. *)
Definition directToken (ty : TokenType) (v : string) : Prop :=
  In (ty, v)
    [(SECTOR, "@"); (BRACKET_OPEN, "["); (BRACKET_CLOSE, "]");
     (PARENTHESIS_OPEN, "("); (PARENTHESIS_CLOSE, ")"); (COMMA, ",");
     (BACKSLASH, "\"); (FICTITIOUS_WAGON, "F")]
  \/ (ty = SECTOR
      /\ exists c, isUpper c = true /\ v = String "@" (String c "")).

(** What the kind of a token says about its value. *)
Definition wellKinded (t : FormationToken) : Prop :=
  match tokType t with
  | SECTOR => startsWith "@" (tokValue t) = true
  | FICTITIOUS_WAGON => tokValue t = "F"
  | BRACKET_OPEN => tokValue t = "["
  | BRACKET_CLOSE => tokValue t = "]"
  | PARENTHESIS_OPEN => tokValue t = "("
  | PARENTHESIS_CLOSE => tokValue t = ")"
  | COMMA => tokValue t = ","
  | BACKSLASH => tokValue t = "\"
  | VEHICLE => isPotentialWagonToken (tokValue t) = true
  | UNKNOWN => isPotentialWagonToken (tokValue t) = false
  end.

(** A token the group decoder hands to the vehicle token decoder. *)
Definition isWagonToken (t : FormationToken) : bool :=
  TokenType_eqb (tokType t) VEHICLE
  || TokenType_eqb (tokType t) FICTITIOUS_WAGON.

Lemma append_assoc_string (a b c : string) : (a ++ b) ++ c = a ++ (b ++ c).
Proof. induction a; simpl; congruence. Qed.

Lemma append_nil_r_string (a : string) : a ++ "" = a.
Proof. induction a; simpl; congruence. Qed.

Lemma tokenText_app a b : tokenText (a ++ b) = tokenText a ++ tokenText b.
Proof.
  induction a as [|t a IH]; simpl; auto.
  now rewrite IH, append_assoc_string.
Qed.

Lemma tokenizeLoop_flush tokens cur pos :
  tokenizeLoop "" tokens cur pos = fst (flush tokens cur pos).
Proof. unfold flush. simpl. now destruct (truthy cur). Qed.

Section TokenizerInvariant.

(** An invariant of the tokens pushed so far, the buffer, the position
    counter and the input not yet read. *)
Variable Inv : list FormationToken -> string -> nat -> string -> Prop.

Hypothesis Inv_flush : forall tokens cur pos rest,
  Inv tokens cur pos rest ->
  Inv (fst (flush tokens cur pos)) "" (snd (flush tokens cur pos)) rest.
Hypothesis Inv_direct : forall ty v tokens pos rest,
  directToken ty v ->
  Inv tokens "" pos (v ++ rest) ->
  Inv (tokens ++ [mkToken ty v pos]) "" (S pos) rest.
Hypothesis Inv_accumulate : forall tokens cur pos ch rest,
  Inv tokens cur pos (String ch rest) ->
  plainChar ch = true -> (ch = "F"%char -> cur <> "") ->
  Inv tokens (cur ++ String ch "") pos rest.

Lemma pushStructural_Inv ty v tokens cur pos rest :
  directToken ty v ->
  Inv tokens cur pos (v ++ rest) ->
  Inv (fst (pushStructural ty v tokens cur pos)) ""
    (snd (pushStructural ty v tokens cur pos)) rest.
Proof.
  intros Hd H. unfold pushStructural.
  apply Inv_flush in H.
  destruct (flush tokens cur pos) as [tokens' pos']. simpl in *.
  now apply Inv_direct.
Qed.

Lemma tokenizeLoop_Inv n : forall s tokens cur pos,
  String.length s <= n ->
  Inv tokens cur pos s ->
  exists pos', Inv (tokenizeLoop s tokens cur pos) "" pos' "".
Proof.
  induction n as [|n IH]; intros s tokens cur pos Hn H.
  - destruct s; [|simpl in Hn; lia].
    rewrite tokenizeLoop_flush. eexists. now apply Inv_flush.
  - destruct s as [|char rest].
    { rewrite tokenizeLoop_flush. eexists. now apply Inv_flush. }
    simpl in Hn.
    assert (Struct : forall ty v s',
              directToken ty v -> String char rest = v ++ s' ->
              String.length s' <= n ->
              exists pos',
                Inv (let '(tokens, position) :=
                       pushStructural ty v tokens cur pos in
                     tokenizeLoop s' tokens "" position) "" pos' "").
    { intros ty v s' Hd Hv Hs'. rewrite Hv in H.
      pose proof (pushStructural_Inv ty v tokens cur pos s' Hd H) as HP.
      destruct (pushStructural ty v tokens cur pos). now apply IH. }
    cbn [tokenizeLoop].
    destruct (Ascii.eqb_spec char "@") as [->|N1].
    { destruct rest as [|next rest'].
      - apply Struct; [left; simpl; tauto | reflexivity | simpl; lia].
      - destruct (isUpper next) eqn:U.
        + apply Struct; [right; eauto | reflexivity | simpl in *; lia].
        + apply Struct; [left; simpl; tauto | reflexivity | simpl in *; lia]. }
    destruct (Ascii.eqb_spec char "[") as [->|N2];
      [apply Struct; [left; simpl; tauto | reflexivity | lia]|].
    destruct (Ascii.eqb_spec char "]") as [->|N3];
      [apply Struct; [left; simpl; tauto | reflexivity | lia]|].
    destruct (Ascii.eqb_spec char "(") as [->|N4];
      [apply Struct; [left; simpl; tauto | reflexivity | lia]|].
    destruct (Ascii.eqb_spec char ")") as [->|N5];
      [apply Struct; [left; simpl; tauto | reflexivity | lia]|].
    destruct (Ascii.eqb_spec char ",") as [->|N6];
      [apply Struct; [left; simpl; tauto | reflexivity | lia]|].
    destruct (Ascii.eqb_spec char "\") as [->|N7];
      [apply Struct; [left; simpl; tauto | reflexivity | lia]|].
    assert (Plain : plainChar char = true).
    { unfold plainChar. simpl.
      repeat match goal with
        | N : char <> ?c |- _ =>
            apply Ascii.eqb_neq in N; rewrite N; clear N
        end.
      reflexivity. }
    destruct (Ascii.eqb char "F" && negb (truthy cur)) eqn:EF.
    + apply andb_prop in EF as [E1 E2]. apply Ascii.eqb_eq in E1. subst char.
      apply negb_true_iff, truthy_false in E2. subst cur.
      apply IH; [lia|]. apply Inv_direct; [left; simpl; tauto | exact H].
    + apply IH; [lia|]. apply Inv_accumulate; auto.
      intros -> ->. discriminate.
Qed.

Lemma tokenize_Inv s :
  Inv [] "" 0 s -> exists pos', Inv (tokenizeFormationString s) "" pos' "".
Proof. apply (tokenizeLoop_Inv (String.length s)), le_n. Qed.

End TokenizerInvariant.

Lemma createToken_position v p : tokPosition (createToken v p) = p.
Proof.
  unfold createToken.
  repeat match goal with |- context [if ?b then _ else _] => destruct b end;
    reflexivity.
Qed.

Lemma createToken_wellKinded v p : wellKinded (createToken v p).
Proof.
  unfold createToken, wellKinded.
  destruct (startsWith "@" v && (1 <? String.length v)%nat) eqn:E1; simpl.
  { now apply andb_prop in E1. }
  destruct (String.eqb_spec v "F"); simpl; auto.
  destruct (isPotentialWagonToken v) eqn:E3; simpl; auto.
Qed.

Lemma directToken_wellKinded ty v p : directToken ty v -> wellKinded (mkToken ty v p).
Proof.
  intros [H|(-> & c & _ & ->)]; [|reflexivity].
  simpl in H. unfold wellKinded.
  repeat (destruct H as [[= <- <-]|H]; [reflexivity|]). destruct H.
Qed.

Lemma tokenize_text s : tokenText (tokenizeFormationString s) = s.
Proof.
  set (Inv := fun tokens cur (pos : nat) rest =>
                tokenText tokens ++ cur ++ rest = s).
  assert (T : exists pos', Inv (tokenizeFormationString s) "" pos' "").
  { apply tokenize_Inv; unfold Inv.
    - intros tokens cur pos rest H. unfold flush.
      destruct (truthy cur) eqn:T; simpl.
      + rewrite tokenText_app. simpl. rewrite createToken_value.
        now rewrite append_nil_r_string, append_assoc_string.
      + apply truthy_false in T. now subst cur.
    - intros ty v tokens pos rest _ H. rewrite tokenText_app. simpl.
      now rewrite append_nil_r_string, append_assoc_string.
    - intros tokens cur pos ch rest H _ _.
      now rewrite (append_assoc_string cur).
    - reflexivity. }
  destruct T as (pos' & H). unfold Inv in H. simpl in H.
  now rewrite append_nil_r_string in H.
Qed.

(** X6: the tokens of a string, written one after another, are the string:
    the tokenizer drops and adds no character. *)
Theorem tokenizer_text s : tokenText (tokenizeFormationString s) = s.
Proof. apply tokenize_text. Qed.

Lemma tokenize_numbered_wellKinded s :
  map tokPosition (tokenizeFormationString s)
  = seq 0 (List.length (tokenizeFormationString s))
  /\ Forall wellKinded (tokenizeFormationString s).
Proof.
  set (Inv := fun tokens (cur : string) pos (rest : string) =>
                pos = List.length tokens
                /\ map tokPosition tokens = seq 0 pos
                /\ Forall wellKinded tokens).
  assert (T : exists pos', Inv (tokenizeFormationString s) "" pos' "").
  { apply tokenize_Inv; unfold Inv.
    - intros tokens cur pos rest (-> & H1 & H2). unfold flush.
      destruct (truthy cur); cbn [fst snd]; auto.
      rewrite length_app, map_app, seq_S, H1. cbn [map List.length Nat.add].
      rewrite createToken_position, Nat.add_1_r. repeat split; auto.
      apply Forall_app. split; auto. constructor; [|constructor].
      apply createToken_wellKinded.
    - intros ty v tokens pos rest Hd (-> & H1 & H2).
      rewrite length_app, map_app, seq_S, H1.
      cbn [map List.length Nat.add tokPosition].
      rewrite Nat.add_1_r. repeat split; auto.
      apply Forall_app. split; auto. constructor; [|constructor].
      now apply directToken_wellKinded.
    - auto.
    - repeat split; constructor. }
  destruct T as (pos' & -> & H1 & H2). auto.
Qed.

(** X7: the tokens carry the positions 0, 1, 2, ... in order, and the kind
    of each token agrees with its value: a structural token has the
    value of its character, a FictitiousWagon token is [F], a Sector
    token starts with [@], a Vehicle token passes the wagon test and an
    Unknown token fails it. *)
Theorem tokenizer_tokens s :
  map tokPosition (tokenizeFormationString s)
  = seq 0 (List.length (tokenizeFormationString s))
  /\ Forall wellKinded (tokenizeFormationString s).
Proof. apply tokenize_numbered_wellKinded. Qed.

(** ** The vehicle group decoder, token by token *)

Lemma trimEnd_empty t : trimEnd t = "" -> allWhiteSpace t = true.
Proof.
  induction t as [|c t IH]; simpl; auto.
  destruct (isWhiteSpace c); simpl; [|discriminate].
  destruct (trimEnd t); simpl; [auto | discriminate].
Qed.

Lemma dropWhile_whiteSpace s :
  allWhiteSpace (dropWhile isWhiteSpace s) = true -> allWhiteSpace s = true.
Proof.
  induction s as [|c s IH]; simpl; auto.
  destruct (isWhiteSpace c) eqn:E; simpl; auto.
  now rewrite E.
Qed.

Lemma trim_empty s : trim s = "" -> allWhiteSpace s = true.
Proof. intros H. now apply dropWhile_whiteSpace, trimEnd_empty. Qed.

Lemma prefix_whiteSpace p : forall s,
  allWhiteSpace s = true -> prefix p s = true -> allWhiteSpace p = true.
Proof.
  induction p as [|a p IH]; intros [|b s] Hs Hp; simpl in *; auto;
    try discriminate.
  destruct (ascii_dec a b) as [->|]; [|discriminate].
  apply andb_prop in Hs as [-> Hs]. simpl. eauto.
Qed.

Lemma includes_whiteSpace p : forall s,
  allWhiteSpace s = true -> includes p s = true -> allWhiteSpace p = true.
Proof.
  induction s as [|c s IH]; intros Hs Hi; cbn [includes] in Hi.
  - rewrite orb_false_r in Hi. eapply prefix_whiteSpace; eauto.
  - apply orb_prop in Hi as [Hi|Hi].
    + eapply prefix_whiteSpace; eauto.
    + simpl in Hs. apply andb_prop in Hs as [_ Hs]. auto.
Qed.

Lemma isPotentialWagonToken_nonblank v :
  isPotentialWagonToken v = true -> allWhiteSpace v = false.
Proof.
  intros H. destruct (allWhiteSpace v) eqn:W; auto. exfalso.
  unfold isPotentialWagonToken in H.
  apply orb_prop in H as [H|H]; apply existsb_exists in H as (p & Hp & H).
  - apply startsWith_includes in H.
    pose proof (includes_whiteSpace p v W H) as K.
    simpl in Hp. repeat (destruct Hp as [<-|Hp]; [discriminate K|]).
    destruct Hp.
  - pose proof (includes_whiteSpace p v W H) as K.
    simpl in Hp. repeat (destruct Hp as [<-|Hp]; [discriminate K|]).
    destruct Hp.
Qed.

Lemma parseVehicleToken_nonblank token sector pos :
  allWhiteSpace token = false ->
  exists w, parseVehicleToken token sector pos = Some w /\ position w = pos.
Proof.
  intros H. unfold parseVehicleToken.
  destruct (negb (truthy token) || String.eqb (trim token) "") eqn:E.
  - apply orb_prop in E as [E|E].
    + apply negb_true_iff, truthy_false in E. subst. discriminate.
    + apply String.eqb_eq, trim_empty in E. congruence.
  - eexists. split; reflexivity.
Qed.

Lemma wagonToken_decodes t sector pos :
  wellKinded t -> isWagonToken t = true ->
  exists w, parseVehicleToken (tokValue t) sector pos = Some w
            /\ position w = pos.
Proof.
  unfold wellKinded, isWagonToken. intros K H.
  apply parseVehicleToken_nonblank.
  destruct (tokType t); try discriminate.
  - now rewrite K.
  - now apply isPotentialWagonToken_nonblank.
Qed.

Lemma groupLoop_positions tokens : forall i len ga hp sector pos ws,
  Forall wellKinded tokens ->
  map position (groupLoop tokens i len ga hp sector pos ws)
  = (map position ws
     ++ seq pos (List.length (filter isWagonToken tokens)))%list.
Proof.
  induction tokens as [|t rest IH]; intros i len ga hp sector pos ws HK;
    cbn [groupLoop filter].
  - simpl. now rewrite app_nil_r.
  - inversion HK as [|? ? Kt Kr]; subst.
    unfold isWagonToken at 1.
    destruct (tokType t) eqn:T; cbn [TokenType_eqb negb andb orb];
      try (now apply IH).
    + destruct (wagonToken_decodes t sector pos Kt) as (w & -> & Hw).
      { unfold isWagonToken. now rewrite T. }
      rewrite IH by auto. rewrite map_app. cbn [map List.length seq].
      destruct (patchGroupWagon_fields w rest i len ga hp) as (-> & _).
      rewrite Hw, <- app_assoc. reflexivity.
    + destruct (wagonToken_decodes t sector pos Kt) as (w & -> & Hw).
      { unfold isWagonToken. now rewrite T. }
      rewrite IH by auto. rewrite map_app. cbn [map List.length seq].
      destruct (patchGroupWagon_fields w rest i len ga hp) as (-> & _).
      rewrite Hw, <- app_assoc. reflexivity.
Qed.

(** X8: the group decoder returns one wagon for every Vehicle or
    FictitiousWagon token of the group content, and their provisional
    positions count up from the start position without a gap: the
    caller's [position += wagons.length] is the next free position. *)
Theorem group_wagons_per_token content sector startPosition :
  let ws := parseVehicleGroup content sector startPosition in
  List.length ws
  = List.length (filter isWagonToken (tokenizeFormationString content))
  /\ map position ws = seq startPosition (List.length ws).
Proof.
  cbv zeta. unfold parseVehicleGroup.
  destruct (tokenize_numbered_wellKinded content) as [_ K].
  match goal with |- context [groupLoop ?t ?i ?l ?ga ?hp sector _ []] =>
    pose proof (groupLoop_positions t i l ga hp sector startPosition [] K) as E
  end.
  simpl in E.
  assert (L := f_equal (@List.length _) E).
  rewrite length_map, length_seq in L.
  split; [exact L|]. now rewrite L.
Qed.

(** ** The bracket extractor *)

(** The nesting depth after [s], read from depth [d]; [None] when a
    closing character comes with nothing open. *)
Fixpoint scanDepth (o c : ascii) (s : string) (d : nat) : option nat :=
  match s with
  | EmptyString => Some d
  | String ch s' =>
      if Ascii.eqb ch o then scanDepth o c s' (S d)
      else if Ascii.eqb ch c then
        match d with
        | 0 => None
        | S d' => scanDepth o c s' d'
        end
      else scanDepth o c s' d
  end.

(** Every closing character of [s] closes an opening one of [s], and
    none stays open. *)
Definition balanced (o c : ascii) (s : string) : Prop :=
  scanDepth o c s 0 = Some 0.

(** Neither [o] nor [c] occurs in [s]. *)
Fixpoint freeOf (o c : ascii) (s : string) : bool :=
  match s with
  | EmptyString => true
  | String ch s' => negb (Ascii.eqb ch o) && negb (Ascii.eqb ch c) && freeOf o c s'
  end.

Lemma drop_app_length (a b : string) : drop (String.length a) (a ++ b) = b.
Proof. induction a; simpl; auto. Qed.

Lemma take_app_length (a b : string) : take (String.length a) (a ++ b) = a.
Proof. induction a; simpl; [now destruct b | congruence]. Qed.

Lemma substring_middle pre o mid rest :
  substring (pre ++ String o (mid ++ rest)) (String.length pre + 1)
    (String.length pre + 1 + String.length mid) = mid.
Proof.
  unfold substring.
  rewrite length_append_string. cbn [String.length].
  rewrite length_append_string.
  rewrite !Nat.min_l by lia.
  rewrite Nat.max_r by lia.
  replace (String.length pre + 1 + String.length mid
           - (String.length pre + 1)) with (String.length mid) by lia.
  replace (pre ++ String o (mid ++ rest))
    with ((pre ++ String o "") ++ (mid ++ rest))
    by (rewrite append_assoc_string; reflexivity).
  replace (String.length pre + 1) with (String.length (pre ++ String o ""))
    by (rewrite length_append_string; reflexivity).
  rewrite drop_app_length. apply take_app_length.
Qed.

Lemma scanDepth_snoc o c ch : forall s d e,
  scanDepth o c s d = Some e ->
  scanDepth o c (s ++ String ch "") d
  = scanDepth o c (String ch "") e.
Proof.
  induction s as [|x s IH]; intros d e H; simpl in H.
  - now injection H as <-.
  - cbn [append scanDepth].
    destruct (Ascii.eqb x o); [now apply IH|].
    destruct (Ascii.eqb x c); [|now apply IH].
    destruct d; [discriminate | now apply IH].
Qed.

Section BracketExtractor.

Variables o c : ascii.
Hypothesis o_c : o <> c.
Variable str : string.

(** Once an opening character has been met at depth 0. *)
Lemma extractLoop_inside rest : forall pre mid d x,
  str = pre ++ String o (mid ++ rest) ->
  scanDepth o c mid 0 = Some d ->
  extractLoop o c str rest (String.length pre + 1 + String.length mid)
    (Z.of_nat (S d)) (Z.of_nat (String.length pre + 1)) = Some x ->
  exists post, str = pre ++ String o (x ++ String c post) /\ balanced o c x.
Proof.
  induction rest as [|ch rest IH]; intros pre mid d x Hs Hd H;
    cbn [extractLoop] in H; [discriminate|].
  assert (Next : forall e,
            scanDepth o c (mid ++ String ch "") 0 = Some e ->
            extractLoop o c str rest
              (S (String.length pre + 1 + String.length mid))
              (Z.of_nat (S e)) (Z.of_nat (String.length pre + 1)) = Some x ->
            exists post,
              str = pre ++ String o (x ++ String c post) /\ balanced o c x).
  { intros e He Hx. apply (IH pre (mid ++ String ch "") e x); auto.
    - rewrite Hs, append_assoc_string. reflexivity.
    - rewrite length_append_string. simpl.
      now replace (String.length pre + 1 + (String.length mid + 1))
        with (S (String.length pre + 1 + String.length mid)) by lia. }
  pose proof (scanDepth_snoc o c ch mid 0 d Hd) as Sn. cbn [scanDepth] in Sn.
  destruct (Ascii.eqb ch o) eqn:Eo.
  - replace (if (Z.of_nat (S d) =? 0)%Z
             then (Z.of_nat (String.length pre + 1 + String.length mid) + 1)%Z
             else Z.of_nat (String.length pre + 1))
      with (Z.of_nat (String.length pre + 1)) in H
      by (destruct (Z.eqb_spec (Z.of_nat (S d)) 0); [lia | reflexivity]).
    replace (Z.of_nat (S d) + 1)%Z with (Z.of_nat (S (S d))) in H by lia.
    apply (Next (S d)); auto.
  - destruct (Ascii.eqb ch c) eqn:Ec.
    + apply Ascii.eqb_eq in Ec. subst ch.
      destruct d as [|d'].
      * replace ((Z.of_nat 1 - 1 =? 0)
                 && negb (Z.of_nat (String.length pre + 1) =? -1))%Z
          with true in H.
        2:{ symmetry. apply andb_true_intro. split.
            - reflexivity.
            - apply negb_true_iff, Z.eqb_neq. lia. }
        injection H as <-. rewrite Nat2Z.id, Hs, substring_middle.
        exists rest. split; [reflexivity | exact Hd].
      * replace ((Z.of_nat (S (S d')) - 1 =? 0)
                 && negb (Z.of_nat (String.length pre + 1) =? -1))%Z
          with false in H.
        2:{ symmetry. apply andb_false_iff. left. apply Z.eqb_neq. lia. }
        replace (Z.of_nat (S (S d')) - 1)%Z with (Z.of_nat (S d')) in H by lia.
        apply (Next d'); auto.
    + apply (Next d); auto.
Qed.

(** Before any opening character has been met at depth 0. *)
Lemma extractLoop_outside rest : forall pre depth x,
  str = pre ++ rest ->
  extractLoop o c str rest (String.length pre) depth (-1)%Z = Some x ->
  exists pre' post,
    str = pre' ++ String o (x ++ String c post) /\ balanced o c x.
Proof.
  induction rest as [|ch rest IH]; intros pre depth x Hs H;
    cbn [extractLoop] in H; [discriminate|].
  assert (Next : forall depth',
            extractLoop o c str rest (S (String.length pre)) depth' (-1)%Z
            = Some x ->
            exists pre' post,
              str = pre' ++ String o (x ++ String c post) /\ balanced o c x).
  { intros depth' Hx. apply (IH (pre ++ String ch "") depth' x).
    - rewrite Hs, append_assoc_string. reflexivity.
    - rewrite length_append_string. simpl.
      now replace (String.length pre + 1) with (S (String.length pre)) by lia. }
  destruct (Ascii.eqb ch o) eqn:Eo.
  - apply Ascii.eqb_eq in Eo. subst ch.
    destruct (Z.eqb_spec depth 0) as [->|N]; [|eauto].
    exists pre. apply (extractLoop_inside rest pre "" 0 x); auto.
    simpl. rewrite Nat.add_0_r.
    replace (String.length pre + 1) with (S (String.length pre)) by lia.
    replace (Z.of_nat (S (String.length pre)))
      with (Z.of_nat (String.length pre) + 1)%Z by lia.
    exact H.
  - destruct (Ascii.eqb ch c); [|eauto].
    rewrite andb_false_r in H. eauto.
Qed.

(** From inside a group whose remaining content is balanced down to
    depth 0, the loop returns at the closing character. *)
Lemma extractLoop_finds rest : forall i d start post,
  start <> (-1)%Z ->
  scanDepth o c rest d = Some 0 ->
  extractLoop o c str (rest ++ String c post) i (Z.of_nat (S d)) start
  = Some (substring str (Z.to_nat start) (i + String.length rest)).
Proof.
  induction rest as [|ch rest IH]; intros i d start post Hs Hd;
    cbn [append extractLoop].
  - simpl in Hd. injection Hd as ->.
    destruct (Ascii.eqb_spec c o) as [E|_]; [now elim o_c|].
    rewrite Ascii.eqb_refl.
    replace ((Z.of_nat 1 - 1 =? 0) && negb (start =? -1))%Z with true.
    + simpl. now rewrite Nat.add_0_r.
    + symmetry. apply andb_true_intro. split; [reflexivity|].
      now apply negb_true_iff, Z.eqb_neq.
  - cbn [scanDepth] in Hd. cbn [String.length].
    replace (i + S (String.length rest)) with (S i + String.length rest)
      by lia.
    destruct (Ascii.eqb ch o).
    + replace (if (Z.of_nat (S d) =? 0)%Z then (Z.of_nat i + 1)%Z else start)
        with start
        by (destruct (Z.eqb_spec (Z.of_nat (S d)) 0); [lia | reflexivity]).
      replace (Z.of_nat (S d) + 1)%Z with (Z.of_nat (S (S d))) by lia.
      now apply IH.
    + destruct (Ascii.eqb ch c).
      * destruct d as [|d']; [discriminate|].
        replace ((Z.of_nat (S (S d')) - 1 =? 0) && negb (start =? -1))%Z
          with false
          by (symmetry; apply andb_false_iff; left; apply Z.eqb_neq; lia).
        replace (Z.of_nat (S (S d')) - 1)%Z with (Z.of_nat (S d')) by lia.
        now apply IH.
      * now apply IH.
Qed.

Lemma extractLoop_skips pre : forall before mid post,
  freeOf o c pre = true ->
  str = before ++ pre ++ String o (mid ++ String c post) ->
  balanced o c mid ->
  extractLoop o c str (pre ++ String o (mid ++ String c post))
    (String.length before) 0%Z (-1)%Z
  = Some mid.
Proof.
  induction pre as [|ch pre IH]; intros before mid post Hf Hs Hb;
    cbn [append extractLoop].
  - rewrite Ascii.eqb_refl.
    change (0 =? 0)%Z with true. change (0 + 1)%Z with (Z.of_nat 1).
    cbv iota.
    rewrite (extractLoop_finds mid (S (String.length before)) 0
               (Z.of_nat (String.length before) + 1) post); auto; [|lia].
    f_equal. rewrite Hs. simpl.
    replace (Z.to_nat (Z.of_nat (String.length before) + 1))
      with (String.length before + 1) by lia.
    replace (S (String.length before + String.length mid))
      with (String.length before + 1 + String.length mid) by lia.
    apply substring_middle.
  - simpl in Hf. apply andb_prop in Hf as [Hf Hp].
    apply andb_prop in Hf as [F1 F2].
    apply negb_true_iff in F1, F2. rewrite F1, F2.
    specialize (IH (before ++ String ch "") mid post Hp).
    rewrite length_append_string in IH. simpl in IH.
    replace (String.length before + 1) with (S (String.length before)) in IH
      by lia.
    apply IH; auto. rewrite Hs, append_assoc_string. reflexivity.
Qed.

End BracketExtractor.

(** X9: the bracket extractor returns the text strictly between an opening
    character and the closing character that matches it: the input is
    [pre o content c post] with the content balanced; and it returns
    the first group, when no opening or closing character comes before
    it and its content is balanced. *)
Theorem extractBracketContent_group (o c : ascii) :
  o <> c ->
  (forall str x,
     extractBracketContent str o c = Some x ->
     exists pre post,
       str = pre ++ String o (x ++ String c post) /\ balanced o c x)
  /\ (forall pre x post,
        freeOf o c pre = true -> balanced o c x ->
        extractBracketContent (pre ++ String o (x ++ String c post)) o c
        = Some x).
Proof.
  intros Hoc. split.
  - intros str x H. unfold extractBracketContent in H.
    apply (extractLoop_outside o c str str "" 0%Z x); auto.
  - intros pre x post Hf Hb. unfold extractBracketContent.
    apply (extractLoop_skips o c Hoc _ pre "" x post); auto.
Qed.

Lemma extractBracketContent_group_witness :
  (exists pre post,
     "a[b[c]d]e[f]" = pre ++ String "[" ("b[c]d" ++ String "]" post)
     /\ balanced "[" "]" "b[c]d")
  /\ extractBracketContent ("@A" ++ String "[" ("1:1,[2]" ++ String "]" "[3:3]"))
       "[" "]" = Some "1:1,[2]".
Proof.
  assert (N : "["%char <> "]"%char) by discriminate.
  destruct (extractBracketContent_group "[" "]" N) as [S F]. split.
  - apply S. vm_compute. reflexivity.
  - apply F; vm_compute; reflexivity.
Defined.

(** * The sector of a wagon *)

(** No sector marker, [@] and a capital letter, starts anywhere in
    the string. *)
Definition markerFree (s : string) : Prop :=
  forall k, sectorAhead (drop k s) = false.

(** A sector marker starts at index 0 or nowhere. *)
Definition markerAtStartOnly (s : string) : Prop :=
  forall k, sectorAhead (drop (S k) s) = false.

(** The wagons of every section carry the sector of the section. *)
Definition sectorsAgree (sections : list TrainSection) : Prop :=
  Forall (fun section =>
            Forall (fun w => sector w = sectionSector section)
              (wagons section)) sections.

(** The same of the sector map. *)
Definition keyed (m : SectorMap) : Prop :=
  Forall (fun kv => Forall (fun w => sector w = fst kv) (snd kv)) m.

Lemma sectorAhead_app b v :
  sectorAhead b = true -> sectorAhead (b ++ v) = true.
Proof. destruct b as [|c [|d b]]; simpl; auto; discriminate. Qed.

Lemma sectorAhead_drop_app v : forall k x,
  sectorAhead (drop k x) = true -> sectorAhead (drop k (x ++ v)) = true.
Proof.
  induction k as [|k IH]; intros x H.
  - now apply sectorAhead_app.
  - destruct x as [|c x]; [discriminate|]. simpl in *. auto.
Qed.

Lemma drop_drop j : forall k s, drop j (drop k s) = drop (k + j) s.
Proof.
  induction k as [|k IH]; intros s; [reflexivity|].
  destruct s as [|c s]; simpl; [now destruct j | apply IH].
Qed.

Lemma markerFree_drop k s : markerFree s -> markerFree (drop k s).
Proof. intros H j. rewrite drop_drop. apply H. Qed.

Lemma markerFree_prefix x v : markerFree (x ++ v) -> markerFree x.
Proof.
  intros H k. destruct (sectorAhead (drop k x)) eqn:E; auto.
  apply (sectorAhead_drop_app v) in E. now rewrite H in E.
Qed.

Lemma markerFree_suffix u s : markerFree (u ++ s) -> markerFree s.
Proof.
  intros H. rewrite <- (drop_app_length u s). now apply markerFree_drop.
Qed.

Lemma markerFree_middle u x v : markerFree (u ++ x ++ v) -> markerFree x.
Proof. intros H. eapply markerFree_prefix, markerFree_suffix, H. Qed.

Lemma sectorMatchFrom_free : forall s i,
  markerFree s <-> sectorMatchFrom s i = None.
Proof.
  induction s as [|c s IH]; intros i.
  - split; auto. intros _ [|k]; reflexivity.
  - cbn [sectorMatchFrom]. destruct s as [|d s'].
    + split; auto. intros _ [|[|k]]; reflexivity.
    + split.
      * intros H. pose proof (H 0) as H0. cbn [drop sectorAhead] in H0.
        rewrite H0. apply IH. intros k. apply (H (S k)).
      * destruct (Ascii.eqb c "@" && isUpper d) eqn:E; [discriminate|].
        intros H [|k]; [exact E|]. apply (proj2 (IH (S i)) H k).
Qed.

(** A sector token of a text without sector marker names no sector. *)
Lemma tokenText_in t : forall tokens,
  In t tokens -> exists u v, tokenText tokens = u ++ tokValue t ++ v.
Proof.
  induction tokens as [|t' tokens IH]; intros H; [destruct H|].
  cbn [tokenText fold_right]. destruct H as [->|H].
  - exists "", (tokenText tokens). reflexivity.
  - destruct (IH H) as (u & v & E). exists (tokValue t' ++ u), v.
    unfold tokenText in E. rewrite E. now rewrite append_assoc_string.
Qed.

Lemma tokens_markerFree content :
  markerFree content ->
  Forall (fun t => sectorMatch (tokValue t) = None)
    (tokenizeFormationString content).
Proof.
  intros H. apply Forall_forall. intros t Ht.
  destruct (tokenText_in _ _ Ht) as (u & v & E).
  rewrite tokenize_text in E. rewrite E in H.
  apply markerFree_middle in H. now apply sectorMatchFrom_free.
Qed.

Lemma groupLoop_sector k tokens : forall i len ga hp position ws,
  Forall (fun t => sectorMatch (tokValue t) = None) tokens ->
  Forall (fun w => sector w = k) ws ->
  Forall (fun w => sector w = k) (groupLoop tokens i len ga hp k position ws).
Proof.
  induction tokens as [|t rest IH]; intros i len ga hp position ws HT H;
    cbn [groupLoop]; auto.
  inversion HT as [|? ? Ht Hr]; subst.
  destruct (TokenType_eqb (tokType t) SECTOR).
  { rewrite Ht. now apply IH. }
  destruct (negb (TokenType_eqb (tokType t) VEHICLE)
            && negb (TokenType_eqb (tokType t) FICTITIOUS_WAGON));
    [now apply IH|].
  destruct (parseVehicleToken (tokValue t) k position) as [w|] eqn:E;
    [|now apply IH].
  apply IH; auto. apply Forall_app. split; auto.
  constructor; [|constructor].
  destruct (patchGroupWagon_fields w rest i len ga hp)
    as (_ & _ & _ & _ & _ & -> & _).
  unfold parseVehicleToken in E.
  destruct (negb (truthy (tokValue t)) || String.eqb (trim (tokValue t)) "");
    [discriminate|].
  now injection E as <-.
Qed.

(** The wagons of a group without sector marker carry the sector the
    group is decoded under. *)
Lemma parseVehicleGroup_sector content k position :
  markerFree content ->
  Forall (fun w => sector w = k) (parseVehicleGroup content k position).
Proof.
  intros H. unfold parseVehicleGroup.
  apply groupLoop_sector; [now apply tokens_markerFree | constructor].
Qed.

Lemma mapGet_keyed k : forall m l,
  keyed m -> mapGet k m = Some l -> Forall (fun w => sector w = k) l.
Proof.
  induction m as [|[k' v] m IH]; intros l Hm H; simpl in H; [discriminate|].
  inversion Hm; subst.
  destruct (String.eqb_spec k k') as [->|N]; eauto.
  now injection H as <-.
Qed.

Lemma mapSet_keyed k v : forall m,
  keyed m -> Forall (fun w => sector w = k) v -> keyed (mapSet k v m).
Proof.
  induction m as [|[k' v'] m IH]; intros Hm Hv; simpl.
  - repeat constructor; auto.
  - inversion Hm; subst.
    destruct (String.eqb_spec k k') as [->|N]; constructor; auto.
    now apply IH.
Qed.

Lemma pushWagons_keyed k ws m :
  Forall (fun w => sector w = k) ws -> keyed m -> keyed (pushWagons k ws m).
Proof.
  intros Hw Hm. unfold pushWagons. apply mapSet_keyed; auto.
  apply Forall_app. split; auto.
  destruct (mapGet k m) eqn:E; [|constructor].
  eapply mapGet_keyed; eauto.
Qed.

Lemma toSections_keyed m : keyed m -> sectorsAgree (toSections m).
Proof.
  unfold sectorsAgree.
  induction m as [|[k v] m IH]; intros Hm; simpl; [constructor|].
  inversion Hm; subst.
  destruct (0 <? List.length v)%nat; auto.
Qed.

(** ** The bracket loop *)

(** From an opening bracket on, the segment holds no sector marker. *)
Definition markerFreeFromBracket (segment : string) : Prop :=
  forall k, get k segment = Some "["%char -> markerFree (drop k segment).

Lemma get_drop : forall k s c,
  get k s = Some c -> exists s', drop k s = String c s'.
Proof.
  induction k as [|k IH]; intros [|x s] c H; simpl in *; try discriminate.
  - injection H as ->. eauto.
  - eauto.
Qed.

Lemma get_app_length pre c t : get (String.length pre) (pre ++ String c t) = Some c.
Proof. induction pre; simpl; auto. Qed.

Lemma get_take a : forall k s c,
  get k (take a s) = Some c -> k < a /\ get k s = Some c.
Proof.
  induction a as [|a IH]; intros k s c H.
  - destruct s; discriminate.
  - destruct s as [|x s]; [discriminate|]. destruct k as [|k]; simpl in *.
    + split; [lia | exact H].
    + apply IH in H. split; [lia | tauto].
Qed.

Lemma get_app : forall a b k c,
  get k (a ++ b) = Some c ->
  (k < String.length a /\ get k a = Some c)
  \/ (String.length a <= k /\ get (k - String.length a) b = Some c).
Proof.
  induction a as [|x a IH]; intros b k c H; simpl in *.
  - right. rewrite Nat.sub_0_r. split; [lia | exact H].
  - destruct k as [|k].
    + left. split; [lia | exact H].
    + destruct (IH _ _ _ H) as [[L G]|[L G]]; [left | right]; split;
        auto; lia.
Qed.

Lemma get_drop_index b : forall k s,
  get k (drop b s) = get (b + k) s.
Proof.
  induction b as [|b IH]; intros k s; [reflexivity|].
  destruct s as [|x s]; simpl; [now destruct k | apply IH].
Qed.

Lemma drop_app_ge : forall a b k,
  String.length a <= k -> drop k (a ++ b) = drop (k - String.length a) b.
Proof.
  induction a as [|x a IH]; intros b k L; simpl in *.
  - now rewrite Nat.sub_0_r.
  - destruct k as [|k]; [lia|]. simpl. apply IH. lia.
Qed.

Lemma substring_take s a :
  substring s 0 a = take a s.
Proof.
  unfold substring. change (Nat.min 0 (String.length s)) with 0.
  rewrite Nat.max_0_l, Nat.min_0_l, Nat.sub_0_r. cbn [drop].
  revert a. induction s as [|c s IH]; intros [|a]; simpl; auto.
  f_equal. apply IH.
Qed.

Lemma take_all : forall s n, String.length s <= n -> take n s = s.
Proof.
  induction s as [|c s IH]; intros [|n] L; simpl in *; auto; try lia.
  f_equal. apply IH. lia.
Qed.

Lemma drop_min : forall s n, drop (Nat.min n (String.length s)) s = drop n s.
Proof.
  induction s as [|c s IH]; intros [|n]; simpl; auto.
Qed.

Lemma substringFrom_drop s b : substringFrom s b = drop b s.
Proof.
  unfold substringFrom, substring. rewrite Nat.min_id.
  rewrite Nat.max_r, Nat.min_l by lia.
  rewrite drop_min. apply take_all. rewrite length_drop. lia.
Qed.

(** What is left of the segment after a group is cut out has, again,
    no sector marker behind an opening bracket. *)
Lemma drain_step_markerFree segment :
  markerFreeFromBracket segment ->
  let startIdx := indexOf "[" segment 0 in
  let endIdx := (indexOf "]" segment startIdx + 1)%Z in
  markerFreeFromBracket
    (substring segment 0 (Z.to_nat startIdx)
     ++ substringFrom segment (Z.to_nat endIdx)).
Proof.
  intros Q startIdx endIdx. rewrite substring_take, substringFrom_drop.
  set (a := Z.to_nat startIdx). set (b := Z.to_nat endIdx).
  assert (NB : forall k, get k (take a segment) <> Some "["%char).
  { intros k G. apply get_take in G as [L G].
    pose proof (indexOfAux_complete "[" segment 0 (Z.to_nat 0) k) as C.
    simpl in C. specialize (C (Nat.le_0_l _) G).
    unfold a, startIdx, indexOf in L. simpl in L. lia. }
  intros k G. apply get_app in G as [[_ G]|[L G]]; [now elim (NB k)|].
  rewrite drop_app_ge by exact L.
  rewrite get_drop_index in G. rewrite drop_drop. now apply Q.
Qed.

Lemma extracted_markerFree segment x :
  markerFreeFromBracket segment ->
  extractBracketContent segment "[" "]" = Some x ->
  markerFree x.
Proof.
  intros Q H. unfold extractBracketContent in H.
  destruct (extractLoop_outside "[" "]" segment segment "" 0%Z x eq_refl H)
    as (pre & post & E & _).
  specialize (Q (String.length pre)). rewrite E in Q.
  rewrite get_app_length, drop_app_length in Q. specialize (Q eq_refl).
  apply (markerFree_middle (String "[" "") x (String "]" post)). exact Q.
Qed.

Section SectorOfSegment.

Variable k : string.

Lemma drainBrackets_keyed fuel : forall segment position m r,
  markerFreeFromBracket segment -> keyed m ->
  drainBrackets fuel segment k position m = Some r ->
  keyed (snd r).
Proof.
  induction fuel as [|fuel IH]; intros segment position m r Q Hm H;
    simpl in H;
    destruct (extractBracketContent segment "[" "]") as [x|] eqn:E;
    try discriminate; try (injection H as <-; exact Hm).
  pose proof (drain_step_markerFree _ Q) as Q'. cbv zeta in Q'.
  pose proof (parseVehicleGroup_sector x k position
                (extracted_markerFree _ _ Q E)) as G.
  destruct (0 <? List.length (parseVehicleGroup x k position))%nat;
    eapply IH in H; auto.
  now apply pushWagons_keyed.
Qed.

Lemma parseVehicleToken_sector token position w :
  parseVehicleToken token k position = Some w -> sector w = k.
Proof.
  unfold parseVehicleToken.
  destruct (negb (truthy token) || String.eqb (trim token) "");
    [discriminate|].
  now intros [= <-].
Qed.

Lemma processSegment_keyed segment position m r :
  markerFreeFromBracket segment -> keyed m ->
  processSegment segment k position m = Some r ->
  keyed (snd r).
Proof.
  unfold processSegment. intros Q Hm H.
  destruct (drainBrackets (String.length segment) segment k position m)
    as [[[seg' pos'] m']|] eqn:E; [|discriminate].
  injection H as <-.
  apply (looseTokens_keep (fun w => sector w = k) keyed k
           parseVehicleToken_sector (pushWagons_keyed k)).
  simpl. apply (drainBrackets_keyed _ _ _ _ _ Q Hm E).
Qed.

End SectorOfSegment.

Lemma markerFree_fromBracket s : markerFree s -> markerFreeFromBracket s.
Proof. intros H k _. now apply markerFree_drop. Qed.

(** ** The sector segments *)

Lemma splitBeforeSectors_markers : forall s cur,
  (forall i, 1 <= i < String.length cur ->
             sectorAhead (drop i (cur ++ s)) = false) ->
  Forall markerAtStartOnly (splitBeforeSectors s cur).
Proof.
  assert (Emit : forall s cur,
            (forall i, 1 <= i < String.length cur ->
                       sectorAhead (drop i (cur ++ s)) = false) ->
            markerAtStartOnly cur).
  { intros s cur P k.
    destruct (sectorAhead (drop (S k) cur)) eqn:E; auto.
    assert (L : S k < String.length cur).
    { pose proof (length_drop (S k) cur) as L.
      destruct (drop (S k) cur); [discriminate|]. simpl in L. lia. }
    apply (sectorAhead_drop_app s) in E. rewrite P in E; [discriminate|lia]. }
  induction s as [|c s IH]; intros cur P; cbn [splitBeforeSectors].
  - constructor; [|constructor]. eapply Emit, P.
  - destruct (sectorAhead (String c s) && truthy cur) eqn:C.
    + constructor; [eapply Emit, P|]. apply IH.
      intros i Hi. simpl in Hi. lia.
    + apply IH. intros i Hi.
      rewrite append_assoc_string. cbn [append].
      rewrite length_append_string in Hi. cbn [String.length] in Hi.
      destruct (Nat.eq_dec i (String.length cur)) as [->|N].
      * rewrite drop_app_length.
        destruct cur; [simpl in Hi; lia|].
        now rewrite andb_true_r in C.
      * apply P. lia.
Qed.

Lemma prefix_app p : forall r, prefix p (p ++ r) = true.
Proof.
  induction p as [|x p IH]; intros r; cbn [append prefix].
  - now destruct r.
  - destruct (ascii_dec x x); [apply IH | congruence].
Qed.

(** The text behind the sector marker of a segment holds no marker. *)
Lemma stripped_markerFree segment i letter :
  markerAtStartOnly segment ->
  sectorMatch segment = Some (i, letter) ->
  markerFree
    (substringFrom segment
       (Z.to_nat (indexOfString ("@" ++ letter) segment 0 + 2))).
Proof.
  intros M H. unfold sectorMatch in H.
  destruct segment as [|c [|d rest]]; try discriminate.
  change (sectorMatchFrom (String c (String d rest)) 0)
    with (if Ascii.eqb c "@" && isUpper d then Some (0, String d "")
          else sectorMatchFrom (String d rest) 1) in H.
  destruct (Ascii.eqb c "@" && isUpper d) eqn:E.
  - injection H as _ <-. apply andb_prop in E as [E _].
    apply Ascii.eqb_eq in E. subst c.
    cbn [indexOfString].
    change (String "@" (String d rest)) with (("@" ++ String d "") ++ rest).
    rewrite prefix_app. rewrite substringFrom_drop.
    change (Z.to_nat (Z.of_nat 0 + 2)) with 2. cbn [append drop].
    intros k. apply (M (S k)).
  - assert (F : markerFree (String d rest)) by (intros k; apply (M k)).
    apply (sectorMatchFrom_free _ 1) in F. congruence.
Qed.

Lemma processSectorSegment_keyed sector0 position0 m0 segment r :
  markerAtStartOnly segment -> keyed m0 ->
  processSectorSegment (Some (sector0, position0, m0)) segment = Some r ->
  keyed (snd r).
Proof.
  intros M Hm. unfold processSectorSegment.
  destruct (negb (truthy (trim segment))).
  - intros [= <-]. exact Hm.
  - destruct (sectorMatch segment) as [[i letter]|] eqn:SM;
      match goal with |- context [processSegment ?a ?b ?c ?d] =>
        destruct (processSegment a b c d) as [[p' m']|] eqn:E
      end; try discriminate; intros [= <-]; cbn [snd].
    + apply (fun Q K => processSegment_keyed letter _ _ _ _ Q K E).
      * apply markerFree_fromBracket, (stripped_markerFree _ _ _ M SM).
      * destruct (negb (mapHas letter m0)); auto.
        apply mapSet_keyed; auto.
    + assert (F : markerFree segment) by now apply (sectorMatchFrom_free _ 0).
      apply (fun Q => processSegment_keyed sector0 _ _ _ _ Q Hm E).
      now apply markerFree_fromBracket.
Qed.

Lemma sectorSegments_keyed segments : forall sector0 position0 m0 r,
  Forall markerAtStartOnly segments -> keyed m0 ->
  fold_left processSectorSegment segments (Some (sector0, position0, m0))
  = Some r ->
  keyed (snd r).
Proof.
  induction segments as [|seg rest IH]; intros sector0 position0 m0 r HM Hm H;
    cbn [fold_left] in H.
  - now injection H as <-.
  - inversion HM as [|? ? M1 M2]; subst.
    destruct (processSectorSegment (Some (sector0, position0, m0)) seg)
      as [[[s' p'] m']|] eqn:E.
    + apply (processSectorSegment_keyed _ _ _ _ _ M1 Hm) in E.
      eapply IH in H; eauto.
    + clear -H. exfalso. induction rest; simpl in H; [discriminate|auto].
Qed.

Lemma no_at_markerFree : forall s, includes "@" s = false -> markerFree s.
Proof.
  induction s as [|c s IH]; intros H.
  - intros [|k]; reflexivity.
  - cbn [includes prefix] in H. apply orb_false_elim in H as [H1 H2].
    revert H1. destruct (ascii_dec "@" c) as [<-|N];
      [intros H1; now destruct s|].
    intros _. intros [|k]; [|apply (IH H2 k)].
    cbn [drop sectorAhead]. destruct s; auto.
    destruct (Ascii.eqb_spec c "@"); [congruence | reflexivity].
Qed.

Lemma fillSectorMap_keyed s m : fillSectorMap s = Some m -> keyed m.
Proof.
  unfold fillSectorMap.
  destruct (includes "@" s || backslashSector s) eqn:HS.
  - destruct (fold_left _ _ _) as [[[a b] m']|] eqn:E; [|discriminate].
    intros [= <-].
    apply sectorSegments_keyed in E; [exact E | | constructor].
    apply splitBeforeSectors_markers. intros i Hi. simpl in Hi. lia.
  - apply orb_false_elim in HS as [HS _]. apply no_at_markerFree in HS.
    match goal with |- context [processSegment ?a ?b ?c ?d] =>
      assert (F : markerFree a);
      [|destruct (processSegment a b c d) as [[p' m']|] eqn:E]
    end.
    + destruct (extractBracketContent s "[" "]") as [c|] eqn:X; auto.
      destruct (truthy c); auto.
      eapply extracted_markerFree; [|exact X].
      now apply markerFree_fromBracket.
    + intros [= <-].
      apply (fun Q K => processSegment_keyed "" _ _ _ _ Q K E);
        [now apply markerFree_fromBracket | constructor].
    + discriminate.
Qed.

(** ** The finalizer keeps the wagons in their sections *)

Lemma sectorsAgree_transfer : forall A B,
  map sectionSector B = map sectionSector A ->
  map (fun section => List.length (wagons section)) B
  = map (fun section => List.length (wagons section)) A ->
  Forall2 sameCoach (allWagonsOf A) (allWagonsOf B) ->
  sectorsAgree A -> sectorsAgree B.
Proof.
  unfold sectorsAgree, allWagonsOf.
  induction A as [|a A IH]; intros [|b B] E1 E2 F HA; try discriminate;
    [constructor|].
  cbn [map flat_map] in *.
  injection E1 as E1 E1'. injection E2 as E2 E2'.
  inversion HA as [|? ? Ha HA']; subst.
  apply Forall2_app_inv_l in F as (l1 & l2 & F1 & F2 & E).
  assert (L : List.length l1 = List.length (wagons b)).
  { apply Forall2_length in F1. congruence. }
  assert (E' : wagons b = l1 /\ flat_map wagons B = l2).
  { revert L E. generalize (flat_map wagons B) (wagons b). clear.
    induction l1 as [|x l1 IH]; intros r [|y w] L E; simpl in *;
      try discriminate; auto.
    injection E as -> E. injection L as L.
    destruct (IH _ _ L E) as [-> ->]. auto. }
  destruct E' as [Eb EB]. constructor.
  - rewrite Eb, E1. clear -F1 Ha.
    induction F1 as [|x y l l' (_ & _ & _ & _ & _ & S) _ IH]; constructor.
    + inversion Ha; subst. congruence.
    + inversion Ha; subst. auto.
  - apply IH; auto. now rewrite EB.
Qed.

Lemma finalize_sectorsAgree sections :
  sectorsAgree sections -> sectorsAgree (finalizeTrainSections sections).
Proof.
  intros H. destruct (finalize_shape sections) as [E1 E2]. cbv zeta in E1, E2.
  eapply sectorsAgree_transfer; [exact E1 | exact E2 | |].
  - rewrite filter_nonempty_wagons. apply finalize_sameCoach.
  - unfold sectorsAgree in *. rewrite Forall_forall in *.
    intros sec Hs. apply H. now apply filter_In in Hs.
Qed.

(** X10: every wagon of a decoded composition carries the sector of the
    section that holds it: a sector marker inside a bracket group,
    which alone could set the two apart, never reaches the group
    decoder, because the formation string is cut before every
    marker. *)
Theorem decoded_wagon_sector s sections :
  parseFormationString s = Some sections ->
  Forall (fun section =>
            Forall (fun w => sector w = sectionSector section)
              (wagons section)) sections.
Proof.
  intros H.
  destruct (parseFormationString_cases _ _ H) as [->|(m & Hm & ->)];
    [constructor|].
  apply finalize_sectorsAgree, toSections_keyed.
  eapply fillSectorMap_keyed, Hm.
Qed.

Lemma decoded_wagon_sector_witness :
  exists sections,
    parseFormationString "1:1@A[2:2,(2:3)]@B,LK@A[2:4]" = Some sections
    /\ map (fun section =>
              (sectionSector section, map number (wagons section)))
         sections
       = [("", ["1"]); ("A", ["2"; "3"; "4"]); ("B", [""])]
    /\ Forall (fun section =>
                 Forall (fun w => sector w = sectionSector section)
                   (wagons section)) sections.
Proof.
  exists_decoded "1:1@A[2:2,(2:3)]@B,LK@A[2:4]".
  split; [vm_compute; reflexivity|]. split; [vm_compute; reflexivity|].
  apply (decoded_wagon_sector "1:1@A[2:2,(2:3)]@B,LK@A[2:4]").
  vm_compute. reflexivity.
Defined.

(** * The no-passage message *)

(** What the finalizer leaves as the message of a wagon: none, or the
    message of a side whose flag is set. *)
Definition messageOfSide (w : TrainWagon) : Prop :=
  noAccessMessage w = None
  \/ (noAccessMessage w = Some "No passage to previous coach"
      /\ noAccessToPrevious w = true)
  \/ (noAccessMessage w = Some "No passage to next coach"
      /\ noAccessToNext w = true).

(** What holds of the message before the finalizer: it comes with a
    flag. *)
Definition messageFlagged (w : TrainWagon) : Prop :=
  noAccessMessage w = None
  \/ noAccessToPrevious w || noAccessToNext w = true.

Lemma patchGroupWagon_messageFlagged w rest i len ga hp :
  messageFlagged w -> messageFlagged (patchGroupWagon w rest i len ga hp).
Proof.
  unfold messageFlagged, patchGroupWagon.
  repeat match goal with |- context [if ?b then _ else _] => destruct b end;
    simpl; auto; intros _; right; auto using orb_true_r.
Qed.

Lemma setDefaultMessage_side w :
  messageFlagged w -> messageOfSide (setDefaultMessage w).
Proof.
  unfold messageFlagged, messageOfSide, setDefaultMessage.
  destruct (noAccessToPrevious w) eqn:A, (noAccessToNext w) eqn:B; simpl;
    rewrite ?A, ?B; simpl; auto.
  intros [H|H]; [auto | discriminate].
Qed.

Lemma visitWagon_side w n : messageOfSide w -> messageOfSide (visitWagon w n).
Proof.
  unfold messageOfSide, visitWagon.
  destruct (isLocomotive (setPosition w n)); simpl; auto.
Qed.

Lemma linkPair_side a b :
  messageOfSide a -> messageOfSide b ->
  messageOfSide (fst (linkPair a b)) /\ messageOfSide (snd (linkPair a b)).
Proof.
  unfold messageOfSide, linkPair, noMessage. intros Ha Hb.
  destruct ((noAccessToNext a || noAccessToPrevious b)
            && negb (isLocomotive b) && negb (isLocomotive a)).
  - cbn [fst snd]. simpl. split.
    + destruct Ha as [E|[[E F]|[E F]]]; simpl; rewrite ?E; simpl; auto.
    + destruct Hb as [E|[[E F]|[E F]]]; simpl; rewrite ?E; simpl; auto.
  - destruct (isLocomotive b), (isLocomotive a); simpl; auto.
Qed.

Lemma walk_side : forall rest p n,
  messageOfSide p -> Forall messageOfSide rest ->
  Forall messageOfSide (walk p n rest).
Proof.
  induction rest as [|w rest IH]; intros p n Hp Hr; cbn [walk].
  - constructor; [exact Hp | constructor].
  - inversion Hr as [|? ? Hw Hr']; subst.
    destruct (linkPair_side p (visitWagon w n) Hp (visitWagon_side _ _ Hw))
      as [L1 L2].
    destruct (linkPair p (visitWagon w n)) as [p' w']. cbn [fst snd] in *.
    constructor; auto.
Qed.

Lemma finalized_flat sections :
  allWagonsOf (finalizeTrainSections sections)
  = walkAll (map setDefaultMessage (allWagonsOf sections)).
Proof.
  unfold finalizeTrainSections.
  set (kept := filter _ sections).
  rewrite regroup_wagons.
  2:{ rewrite walkAll_length.
      unfold allWagonsOf; now rewrite !flat_map_concat_map. }
  rewrite <- (filter_nonempty_wagons sections). fold kept.
  change (flat_map wagons ?x) with (allWagonsOf x).
  now rewrite allWagonsOf_map_wagons.
Qed.

(** X11: the message of a wagon of a decoded composition is absent or the
    message of one of its sides, and the flag of that side is set:
    no wagon with free passage on both sides carries a message, and
    the message of the group decoder never reaches the view. *)
Theorem decoded_message s sections w :
  parseFormationString s = Some sections ->
  In w (allWagonsOf sections) ->
  noAccessMessage w = None
  \/ (noAccessMessage w = Some "No passage to previous coach"
      /\ noAccessToPrevious w = true)
  \/ (noAccessMessage w = Some "No passage to next coach"
      /\ noAccessToNext w = true).
Proof.
  intros H Hw.
  destruct (parseFormationString_cases _ _ H) as [->|(m & Hm & ->)];
    [destruct Hw|].
  rewrite finalized_flat in Hw.
  assert (F : Forall messageFlagged (allWagonsOf (toSections m))).
  { apply toSections_all.
    apply (fillSectorMap_all messageFlagged) with (s := s); auto.
    - intros token sector position w0 E. unfold parseVehicleToken in E.
      destruct (negb (truthy token) || String.eqb (trim token) "");
        [discriminate|].
      injection E as <-. now left.
    - intros. now apply patchGroupWagon_messageFlagged. }
  assert (D : Forall messageOfSide
                (walkAll (map setDefaultMessage (allWagonsOf (toSections m))))).
  { generalize dependent (allWagonsOf (toSections m)). intros l _ F.
    destruct l as [|w0 l]; [constructor|]. cbn [map walkAll].
    inversion F; subst. apply walk_side.
    - now apply visitWagon_side, setDefaultMessage_side.
    - apply Forall_forall. intros x Hx.
      apply in_map_iff in Hx as (y & <- & Hy).
      apply setDefaultMessage_side. rewrite Forall_forall in *. auto. }
  rewrite Forall_forall in D. apply (D w Hw).
Qed.

Lemma decoded_message_witness :
  exists sections,
    parseFormationString "@A[(1:1),2:2]" = Some sections
    /\ map noAccessMessage (allWagonsOf sections)
       = [None; Some "No passage to next coach"]
    /\ Forall messageOfSide (allWagonsOf sections).
Proof.
  exists_decoded "@A[(1:1),2:2]".
  split; [vm_compute; reflexivity|]. split; [vm_compute; reflexivity|].
  apply Forall_forall. intros w Hw.
  eapply (decoded_message "@A[(1:1),2:2]");
    [vm_compute; reflexivity | exact Hw].
Defined.

(** * The type code of a vehicle token *)

(** X12: a token that starts with a code of the type table, followed by
    [:], [#], [,] or nothing, gets the type of that code, whatever
    comes after it: the longer code is tried first, so [12] is not
    read as [1], and a code further inside the token is not looked
    at. *)
Theorem leading_code_decides code ty rest :
  In (code, ty) WAGON_TYPE_MAPPING ->
  rest = "" \/ (exists c r, rest = String c r /\ oneOf ":#," c = true) ->
  determineWagonType (code ++ rest) = ty.
Proof.
  intros Hc Hr.
  assert (R : rest = ""
              \/ exists r, rest = String ":" r \/ rest = String "#" r
                           \/ rest = String "," r).
  { destruct Hr as [->|(c & r & -> & H)]; [now left|]. right. exists r.
    cbn [oneOf] in H.
    destruct (Ascii.eqb_spec c ":") as [->|_]; [auto|].
    destruct (Ascii.eqb_spec c "#") as [->|_]; [auto|].
    destruct (Ascii.eqb_spec c ",") as [->|_]; [auto|].
    discriminate. }
  clear Hr. unfold WAGON_TYPE_MAPPING in Hc. cbn [In] in Hc.
  repeat (destruct Hc as [[= <- <-]|Hc];
          [destruct R as [-> | (r & [-> | [-> | ->]])]; vm_compute; reflexivity|]).
  destruct Hc.
Qed.

Lemma leading_code_decides_witness :
  determineWagonType ("12" ++ "#NF;WR")%string = "first-and-second-class"
  /\ determineWagonType ("W2" ++ ":14#1")%string = "restaurant-second".
Proof.
  split.
  - apply leading_code_decides; [vm_compute; tauto|].
    right. exists "#"%char, "NF;WR". split; reflexivity.
  - apply leading_code_decides; [vm_compute; tauto|].
    right. exists ":"%char, "14#1". split; reflexivity.
Defined.

(** * The view of a decoded composition *)

(** The train formation component draws the sections the decoder
    returns; the asset preloader lists the images it fetches ahead.
    The component reads the composition from its field
    [trainFormation], of which the model keeps the sections, and the
    theme from its theme service, of which the model keeps the dark
    mode test. *)

(** The string a status code is at run time. *)
Definition statusText (st : WagonStatus) : string :=
  match st with
  | CLOSED => "Closed"
  | GROUP_BOARDING => "Group boarding"
  | RESERVED_FOR_TRANSIT => "Reserved for transit"
  | UNSERVICED => "Open but unserviced"
  end.

(** [wagon.statusCodes && wagon.statusCodes.includes(text)]. *)
Definition hasStatus (text : string) (wagon : TrainWagon) : bool :=
  existsb (String.eqb text) (map statusText (statusCodes wagon)).

(** [wagon.attributes.some(attr => attr.code === c)]. *)
Definition hasAttribute (c : string) (wagon : TrainWagon) : bool :=
  existsb (fun attr => String.eqb (code attr) c) (attributes wagon).

(** [[...].includes(attr.code)] on a literal list of codes. *)
Definition codeIn (codes : list string) (c : string) : bool :=
  existsb (String.eqb c) codes.

Module SvgPreloaderService.

Definition THEMES : list string := ["light"; "dark"].

Definition WAGON_TYPES : list string :=
  ["locomotive"; "wagon-regular"; "wagon-left-slope"; "wagon-right-slope";
   "wagon-both-slope"; "wagon-regular-closed"; "wagon-left-slope-closed";
   "wagon-right-slope-closed"; "wagon-both-slope-closed"].

Definition ICON_TYPES : list string :=
  ["no-passage"; "low-floor-entry"; "entry-with-steps"; "low-occupancy";
   "middle-occupancy"; "high-occupancy"].

Definition SECTORS : list string :=
  ["a"; "b"; "c"; "d"; "e"; "f"; "g"; "h"; "i"; "j"; "k"; "l"; "m"].

Definition PICTOGRAMS : list string :=
  ["wheelchair.svg"; "bike-hooks.svg"; "bike-hooks-reservation.svg";
   "business.svg"; "family-zone.svg"; "luggage.svg"; "restaurant.svg";
   "sleep.svg"; "couchette.svg"; "stroller.svg"].

Definition WAGONS : string := "assets/wagons".
Definition ICONS : string := "assets/icons".
Definition PICTOS : string := "assets/pictos".

(** [getWagonSvgPaths]: for every theme, every wagon type. *)
Definition getWagonSvgPaths : list string :=
  flat_map (fun theme =>
              map (fun ty => WAGONS ++ "/" ++ ty ++ "-" ++ theme ++ ".svg")
                WAGON_TYPES) THEMES.

(** [getIconSvgPaths]. *)
Definition getIconSvgPaths : list string :=
  flat_map (fun theme =>
              map (fun ty => ICONS ++ "/" ++ ty ++ "-" ++ theme ++ ".svg")
                ICON_TYPES) THEMES.

(** [getSectorSvgPaths]. *)
Definition getSectorSvgPaths : list string :=
  map (fun sector => PICTOS ++ "/sector-" ++ sector ++ ".svg") SECTORS.

(** [getPictogramSvgPaths]. *)
Definition getPictogramSvgPaths : list string :=
  map (fun pictogram => PICTOS ++ "/" ++ pictogram) PICTOGRAMS.

(** [getAllSvgPaths]. *)
Definition getAllSvgPaths : list string :=
  (getWagonSvgPaths ++ getIconSvgPaths ++ getSectorSvgPaths
   ++ getPictogramSvgPaths)%list.

End SvgPreloaderService.

Module TrainFormationComponent.

Definition WAGON_WIDTH : Z := 100.
Definition CONNECTOR_WIDTH : Z := 10.

(** [getAllWagons]: the [reduce] that concatenates the wagons of the
    sections, and the empty list without a composition. *)
Definition getAllWagons (trainFormation : option (list TrainSection))
  : list TrainWagon :=
  match trainFormation with
  | None => []
  | Some sections =>
      fold_left (fun all section => (all ++ wagons section)%list) sections []
  end.

(** [getPreviousWagon]: [allWagons[currentIndex - 1]], undefined out
    of range. *)
Definition getPreviousWagon (trainFormation : option (list TrainSection))
  (currentIndex : nat) : option TrainWagon :=
  match currentIndex with
  | 0 => None
  | S i => nth_error (getAllWagons trainFormation) i
  end.

(** [getNextWagon]: [allWagons[currentIndex + 1]]. *)
Definition getNextWagon (trainFormation : option (list TrainSection))
  (currentIndex : nat) : option TrainWagon :=
  nth_error (getAllWagons trainFormation) (currentIndex + 1).

(** [getWagonConnectionClass]. *)
Definition getWagonConnectionClass (wagon : TrainWagon)
  (nextWagon : option TrainWagon) : string :=
  match nextWagon with
  | None => ""
  | Some nextWagon =>
      if noAccessToNext wagon || noAccessToPrevious nextWagon
      then "no-access" else ""
  end.

(** [isFirstWagon]. *)
Definition isFirstWagon (index : nat) : bool := (index =? 0)%nat.

(** [isLastWagon]: [index === allWagons.length - 1], which no index
    equals when there is no wagon. *)
Definition isLastWagon (trainFormation : option (list TrainSection))
  (index : nat) : bool :=
  (Z.of_nat index
   =? Z.of_nat (List.length (getAllWagons trainFormation)) - 1)%Z.

(** [needsSlopedLeftEdge]. *)
Definition needsSlopedLeftEdge (wagon : TrainWagon) (index : nat) : bool :=
  if isFirstWagon index && negb (isLocomotive wagon) then true
  else if negb (isFirstWagon index) && noAccessToPrevious wagon
          && negb (isLocomotive wagon) then true
  else false.

(** [needsSlopedRightEdge]. *)
Definition needsSlopedRightEdge
  (trainFormation : option (list TrainSection))
  (wagon : TrainWagon) (index : nat) : bool :=
  if isLastWagon trainFormation index && negb (isLocomotive wagon) then true
  else if negb (isLastWagon trainFormation index) && noAccessToNext wagon
          && negb (isLocomotive wagon) then true
  else false.

(** The theme of the paths: [isDarkMode() ? 'dark' : 'light']. *)
Definition themeOf (isDarkMode : bool) : string :=
  if isDarkMode then "dark" else "light".

(** [getNoPassageSvgPath]. *)
Definition getNoPassageSvgPath (isDarkMode : bool) : string :=
  "assets/icons/no-passage-" ++ themeOf isDarkMode ++ ".svg".

(** [getLowFloorEntryPath]. *)
Definition getLowFloorEntryPath (isDarkMode : bool) : string :=
  "assets/icons/low-floor-entry-" ++ themeOf isDarkMode ++ ".svg".

(** [getEntryWithStepsPath]. *)
Definition getEntryWithStepsPath (isDarkMode : bool) : string :=
  "assets/icons/entry-with-steps-" ++ themeOf isDarkMode ++ ".svg".

(** [getPictogramPath]. *)
Definition getPictogramPath (pictogram : string) : string :=
  "assets/pictos/" ++ pictogram.

(** [hasLowFloorEntry]. *)
Definition hasLowFloorEntry (wagon : TrainWagon) : bool :=
  let hasAttribute' := hasAttribute "NF" wagon in
  let hasNFInGroup :=
    hasAttribute "VH" wagon
    && (hasAttribute "NF" wagon
        || includes "#VH;NF" (number wagon)
        || includes "#NF;VH" (number wagon)) in
  hasAttribute' || hasNFInGroup.

(** [getEntryIconPath]. *)
Definition getEntryIconPath (isDarkMode : bool) (wagon : TrainWagon)
  : string :=
  if hasLowFloorEntry wagon then getLowFloorEntryPath isDarkMode
  else getEntryWithStepsPath isDarkMode.

(** [getLocomotiveSvgPath]. *)
Definition getLocomotiveSvgPath (isDarkMode : bool) : string :=
  "assets/wagons/locomotive-" ++ themeOf isDarkMode ++ ".svg".

(** [getWagonSvgPath]. *)
Definition getWagonSvgPath (trainFormation : option (list TrainSection))
  (isDarkMode : bool) (wagon : TrainWagon) (index : nat) : string :=
  let theme := themeOf isDarkMode in
  let isClosed := hasStatus "Closed" wagon in
  let closedSuffix := if isClosed then "-closed" else "" in
  let hasLeftSlope := needsSlopedLeftEdge wagon index in
  let hasRightSlope := needsSlopedRightEdge trainFormation wagon index in
  let shape :=
    if hasLeftSlope && hasRightSlope then "both-slope"
    else if hasLeftSlope then "left-slope"
    else if hasRightSlope then "right-slope"
    else "regular" in
  "assets/wagons/wagon-" ++ shape ++ closedSuffix ++ "-" ++ theme ++ ".svg".

(** The literal [pictogramMap] of [getAttributePictogramPath]. *)
Definition pictogramMap : list (string * string) :=
  [("BHP", "wheelchair.svg"); ("VH", "bike-hooks.svg");
   ("VR", "bike-hooks-reservation.svg"); ("BZ", "business.svg");
   ("FZ", "family-zone.svg"); ("FA", "family-zone.svg");
   ("LA", "luggage.svg"); ("WR", "restaurant.svg");
   ("CC", "couchette.svg"); ("WL", "sleep.svg"); ("KW", "stroller.svg")].

(** [getAttributePictogramPath], for a code that names no property an
    object literal inherits. *)
Definition getAttributePictogramPath (attributeCode : string) : string :=
  let pictogram :=
    match lookup attributeCode pictogramMap with
    | Some p => if truthy p then p else ""
    | None => ""
    end in
  if negb (truthy pictogram) then "" else getPictogramPath pictogram.

(** [getWagonPictogramAttributes]. *)
Definition getWagonPictogramAttributes (wagon : TrainWagon) : list string :=
  let displayableCodes :=
    ["BHP"; "VH"; "VR"; "BZ"; "FZ"; "FA"; "LA"; "WR"; "WL"; "CC"; "KW"] in
  let filteredCodes :=
    if hasStatus "Open but unserviced" wagon || hasStatus "Closed" wagon
    then filter (fun c => negb (String.eqb c "WR")) displayableCodes
    else displayableCodes in
  map code (filter (fun attr => codeIn filteredCodes (code attr))
              (attributes wagon)).

(** [hasWagonPictograms]. *)
Definition hasWagonPictograms (wagon : TrainWagon) : bool :=
  (0 <? List.length (getWagonPictogramAttributes wagon))%nat.

(** [getAttributeGroups]; a group is given with its attributes whole,
    of which the caller reads the icon and the label. *)
Definition getAttributeGroups (attrs : list WagonAttribute)
  : list (list WagonAttribute) :=
  let accessibilityAttrs :=
    filter (fun attr => codeIn ["BHP"; "NF"; "KW"] (code attr)) attrs in
  let serviceAttrs :=
    filter (fun attr => codeIn ["BZ"; "FZ"] (code attr)) attrs in
  let bikeAttrs :=
    filter (fun attr => codeIn ["VH"; "VR"] (code attr)) attrs in
  let otherAttrs :=
    filter (fun attr =>
              negb (codeIn ["BHP"; "NF"; "KW"; "BZ"; "FZ"; "VH"; "VR"]
                      (code attr))) attrs in
  let push (group : list WagonAttribute) (groups : list (list WagonAttribute))
    : list (list WagonAttribute) :=
    if (0 <? List.length group)%nat then (groups ++ [group])%list
    else groups in
  push otherAttrs (push bikeAttrs (push serviceAttrs
                                     (push accessibilityAttrs []))).

(** The connectors of a wagon list that touch a locomotive: the
    counting loop of [getSectorWidth] and [getTotalTrainWidth]. *)
Fixpoint locomotiveConnectors (ws : list TrainWagon) : Z :=
  match ws with
  | a :: ((b :: _) as rest) =>
      ((if isLocomotive a || isLocomotive b then 1 else 0)
       + locomotiveConnectors rest)%Z
  | _ => 0%Z
  end.

(** [getSectorWidth]. *)
Definition getSectorWidth (section : TrainSection) : Z :=
  let totalWagons := Z.of_nat (List.length (wagons section)) in
  if (totalWagons =? 0)%Z then 0%Z
  else
    let wagonWidth := (totalWagons * WAGON_WIDTH)%Z in
    let locomotiveConnectors' := locomotiveConnectors (wagons section) in
    let regularConnectors :=
      ((totalWagons - 1) - locomotiveConnectors')%Z in
    let connectorWidth :=
      (regularConnectors * CONNECTOR_WIDTH
       + locomotiveConnectors' * CONNECTOR_WIDTH)%Z in
    (wagonWidth + connectorWidth)%Z.

(** [getTotalTrainWidth]. *)
Definition getTotalTrainWidth (trainFormation : option (list TrainSection))
  : Z :=
  match trainFormation with
  | None => 0%Z
  | Some _ =>
      let totalWagons :=
        Z.of_nat (List.length (getAllWagons trainFormation)) in
      if (totalWagons =? 0)%Z then 0%Z
      else
        let totalLocomotives :=
          locomotiveConnectors (getAllWagons trainFormation) in
        let totalConnectors := (totalWagons - 1)%Z in
        let regularConnectors := (totalConnectors - totalLocomotives)%Z in
        let connectorWidth :=
          (regularConnectors * CONNECTOR_WIDTH
           + totalLocomotives * CONNECTOR_WIDTH)%Z in
        (totalWagons * WAGON_WIDTH + connectorWidth + 2)%Z
  end.

End TrainFormationComponent.
Import TrainFormationComponent.

(** ** The wagons the view walks *)

Lemma getAllWagons_flat sections :
  getAllWagons (Some sections) = allWagonsOf sections.
Proof.
  unfold getAllWagons, allWagonsOf.
  assert (G : forall acc,
             fold_left (fun all section => (all ++ wagons section)%list)
               sections acc
             = (acc ++ flat_map wagons sections)%list).
  { induction sections as [|sec rest IH]; intros acc; simpl.
    - now rewrite app_nil_r.
    - now rewrite IH, app_assoc. }
  apply (G []).
Qed.

Lemma pairwise_nth {A : Type} (R : A -> A -> Prop) : forall l i a b,
  pairwise R l ->
  nth_error l i = Some a -> nth_error l (S i) = Some b -> R a b.
Proof.
  induction l as [|x l IH]; intros i a b HP Ha Hb; [destruct i; discriminate|].
  destruct l as [|y l]; [destruct i; discriminate|].
  destruct HP as [HR HP]. destruct i as [|i].
  - simpl in Ha, Hb. injection Ha as <-. injection Hb as <-. exact HR.
  - eapply IH; eauto.
Qed.

(** Two wagons that follow each other in the list the view walks are
    linked by the finalizer. *)
Lemma decoded_neighbours s sections i a b :
  parseFormationString s = Some sections ->
  nth_error (getAllWagons (Some sections)) i = Some a ->
  nth_error (getAllWagons (Some sections)) (S i) = Some b ->
  linked a b.
Proof.
  intros H Ha Hb. rewrite getAllWagons_flat in Ha, Hb.
  destruct (decoded_wagons_walked _ _ H) as (l & E). rewrite E in Ha, Hb.
  eapply pairwise_nth; [apply walkAll_linked | exact Ha | exact Hb].
Qed.

(** X13: the connector the view draws after a wagon of a decoded
    composition is marked [no-access] exactly when a next wagon
    exists, neither of the two is a locomotive and both carry the flag
    of their common side: on decoded data the disjunction of the two
    flags is their conjunction, and no connector of a locomotive is
    ever marked. *)
Theorem connection_class_decoded s sections i a :
  parseFormationString s = Some sections ->
  nth_error (getAllWagons (Some sections)) i = Some a ->
  getWagonConnectionClass a (getNextWagon (Some sections) i) = "no-access"
  <-> exists b,
        getNextWagon (Some sections) i = Some b
        /\ isLocomotive a = false /\ isLocomotive b = false
        /\ noAccessToNext a = true /\ noAccessToPrevious b = true.
Proof.
  intros H Ha. unfold getNextWagon. rewrite Nat.add_1_r.
  destruct (nth_error (getAllWagons (Some sections)) (S i)) as [b|] eqn:Hb;
    cbn [getWagonConnectionClass].
  - destruct (decoded_neighbours _ _ _ _ _ H Ha Hb) as (L1 & L2 & _).
    split.
    + intros C.
      destruct (isLocomotive a) eqn:A.
      { destruct (L2 eq_refl) as [E1 E2]. rewrite E1, E2 in C.
        discriminate. }
      destruct (isLocomotive b) eqn:B.
      { destruct (L2 eq_refl) as [E1 E2]. rewrite E1, E2 in C.
        discriminate. }
      specialize (L1 eq_refl eq_refl). rewrite L1 in C.
      exists b. rewrite L1.
      destruct (noAccessToPrevious b); [auto | discriminate].
    + intros (b' & [= <-] & _ & _ & -> & _). reflexivity.
  - split; [discriminate | intros (b & E & _); discriminate].
Qed.

Lemma connection_class_decoded_witness :
  exists sections a,
    parseFormationString "@A,1:1),(2:2,LK" = Some sections
    /\ nth_error (getAllWagons (Some sections)) 0 = Some a
    /\ getWagonConnectionClass a (getNextWagon (Some sections) 0)
       = "no-access"
    /\ (getWagonConnectionClass a (getNextWagon (Some sections) 0)
        = "no-access"
        <-> exists b,
              getNextWagon (Some sections) 0 = Some b
              /\ isLocomotive a = false /\ isLocomotive b = false
              /\ noAccessToNext a = true /\ noAccessToPrevious b = true).
Proof.
  exists_decoded "@A,1:1),(2:2,LK".
  match goal with |- context [nth_error ?l 0 = Some _] =>
    let r := eval vm_compute in (nth_error l 0) in
    match r with Some ?a => exists a end
  end.
  split; [vm_compute; reflexivity|]. split; [vm_compute; reflexivity|].
  split; [vm_compute; reflexivity|].
  apply (connection_class_decoded "@A,1:1),(2:2,LK"); vm_compute; reflexivity.
Defined.

(** X14: between two wagons that follow each other in a decoded composition
    the slopes agree: the earlier wagon has a sloped right edge exactly
    when the later one has a sloped left edge, and a locomotive has
    neither. *)
Theorem slopes_face_each_other s sections i a b :
  parseFormationString s = Some sections ->
  nth_error (getAllWagons (Some sections)) i = Some a ->
  nth_error (getAllWagons (Some sections)) (S i) = Some b ->
  needsSlopedRightEdge (Some sections) a i = needsSlopedLeftEdge b (S i)
  /\ (isLocomotive a || isLocomotive b = true ->
      needsSlopedRightEdge (Some sections) a i = false).
Proof.
  intros H Ha Hb.
  destruct (decoded_neighbours _ _ _ _ _ H Ha Hb) as (L1 & L2 & _).
  assert (NL : isLastWagon (Some sections) i = false).
  { unfold isLastWagon. apply Z.eqb_neq.
    assert (S i < List.length (getAllWagons (Some sections)))
      by (apply nth_error_Some; congruence).
    lia. }
  unfold needsSlopedRightEdge, needsSlopedLeftEdge. rewrite NL.
  cbn [isFirstWagon Nat.eqb andb negb].
  destruct (isLocomotive a) eqn:A; destruct (isLocomotive b) eqn:B;
    cbn [orb andb negb] in *.
  - destruct (L2 eq_refl) as [-> ->]. auto.
  - destruct (L2 eq_refl) as [-> ->]. auto.
  - destruct (L2 eq_refl) as [-> ->]. auto.
  - rewrite (L1 eq_refl eq_refl).
    destruct (noAccessToPrevious b); split; auto; discriminate.
Qed.

Lemma slopes_face_each_other_witness :
  exists sections a b,
    parseFormationString "@A,1:1),(2:2,LK" = Some sections
    /\ nth_error (getAllWagons (Some sections)) 0 = Some a
    /\ nth_error (getAllWagons (Some sections)) 1 = Some b
    /\ needsSlopedLeftEdge b 1 = true
    /\ needsSlopedRightEdge (Some sections) a 0 = needsSlopedLeftEdge b 1.
Proof.
  exists_decoded "@A,1:1),(2:2,LK".
  match goal with |- context [nth_error ?l 0 = Some _] =>
    let r := eval vm_compute in (nth_error l 0, nth_error l 1) in
    match r with (Some ?a, Some ?b) => exists a, b end
  end.
  split; [vm_compute; reflexivity|]. split; [vm_compute; reflexivity|].
  split; [vm_compute; reflexivity|]. split; [vm_compute; reflexivity|].
  apply (slopes_face_each_other "@A,1:1),(2:2,LK"); vm_compute; reflexivity.
Defined.

(** ** The images the view asks for *)

(** X15: every image path the view builds for a wagon body, a locomotive,
    an entry icon or the no-passage icon is one the preloader lists,
    whatever the wagon, its index, the composition and the theme. *)
Theorem wagon_images_preloaded trainFormation isDarkMode wagon index :
  In (getWagonSvgPath trainFormation isDarkMode wagon index)
    SvgPreloaderService.getAllSvgPaths
  /\ In (getLocomotiveSvgPath isDarkMode) SvgPreloaderService.getAllSvgPaths
  /\ In (getEntryIconPath isDarkMode wagon) SvgPreloaderService.getAllSvgPaths
  /\ In (getNoPassageSvgPath isDarkMode) SvgPreloaderService.getAllSvgPaths.
Proof.
  unfold getWagonSvgPath, getEntryIconPath.
  destruct (needsSlopedLeftEdge wagon index),
    (needsSlopedRightEdge trainFormation wagon index),
    (hasStatus "Closed" wagon), (hasLowFloorEntry wagon), isDarkMode;
    vm_compute; tauto.
Qed.

Lemma lookup_In {A : Type} k (t : list (string * A)) v :
  lookup k t = Some v -> In (k, v) t.
Proof.
  induction t as [|[k' v'] t IH]; simpl; [discriminate|].
  destruct (String.eqb_spec k k') as [->|N].
  - intros [= ->]. now left.
  - intros H. right. auto.
Qed.

Lemma codeIn_In codes c : codeIn codes c = true <-> In c codes.
Proof.
  unfold codeIn. rewrite existsb_exists. split.
  - intros (x & Hx & E). apply String.eqb_eq in E. now subst.
  - intros H. exists c. split; auto. apply String.eqb_refl.
Qed.

(** X16: every code the view shows as a pictogram of a wagon is the code of
    an attribute of the wagon other than the low floor attribute, and
    its pictogram path is one the preloader lists; the restaurant code
    is not shown for a closed or unserviced wagon. *)
Theorem pictograms_preloaded wagon :
  Forall (fun c =>
            In c (map code (attributes wagon)) /\ c <> "NF"
            /\ In (getAttributePictogramPath c)
                 SvgPreloaderService.getPictogramSvgPaths
            /\ (hasStatus "Closed" wagon
                || hasStatus "Open but unserviced" wagon = true ->
                c <> "WR"))
    (getWagonPictogramAttributes wagon).
Proof.
  apply Forall_forall. intros c Hc. unfold getWagonPictogramAttributes in Hc.
  apply in_map_iff in Hc as (attr & <- & Ha).
  apply filter_In in Ha as [Ha Hf]. apply codeIn_In in Hf.
  split; [now apply in_map|].
  revert Hf. generalize (code attr). intros c Hf.
  destruct (hasStatus "Open but unserviced" wagon),
    (hasStatus "Closed" wagon); cbn [orb] in *;
    vm_compute in Hf;
    repeat (destruct Hf as [<-|Hf];
            [repeat split; try discriminate; try (intros _; discriminate);
             vm_compute; tauto|]);
    destruct Hf.
Qed.

Lemma includes_hash_digits x : forall n,
  allDigits n = true -> includes (String "#" x) n = false.
Proof.
  induction n as [|c n IH]; intros H; cbn [includes prefix]; auto.
  cbn [allDigits] in H. apply andb_prop in H as [Hc Hn].
  destruct (ascii_dec "#" c) as [<-|N]; [discriminate|].
  now apply IH.
Qed.

(** X17: for a wagon of a decoded composition the low floor test of the
    view is the presence of the attribute [NF]: the number of a decoded
    wagon holds no offer list, so the test on the number never
    decides. *)
Theorem low_floor_entry_decoded s sections w :
  parseFormationString s = Some sections ->
  In w (allWagonsOf sections) ->
  hasLowFloorEntry w = hasAttribute "NF" w.
Proof.
  intros H Hw. unfold hasLowFloorEntry.
  assert (N : forall x, includes (String "#" x) (number w) = false).
  { intros x.
    destruct (decoded_number_ordinal _ _ _ H Hw) as [->|[_ D]];
      [reflexivity | now apply includes_hash_digits]. }
  rewrite !N. destruct (hasAttribute "NF" w), (hasAttribute "VH" w);
    reflexivity.
Qed.

Lemma low_floor_entry_decoded_witness :
  exists sections,
    parseFormationString "@A[2:7#VH;NF,2:8#VH]" = Some sections
    /\ map hasLowFloorEntry (allWagonsOf sections) = [true; false]
    /\ Forall (fun w => hasLowFloorEntry w = hasAttribute "NF" w)
         (allWagonsOf sections).
Proof.
  exists_decoded "@A[2:7#VH;NF,2:8#VH]".
  split; [vm_compute; reflexivity|]. split; [vm_compute; reflexivity|].
  apply Forall_forall. intros w Hw.
  eapply (low_floor_entry_decoded "@A[2:7#VH;NF,2:8#VH]");
    [vm_compute; reflexivity | exact Hw].
Defined.

(** X18: every attribute of a wagon of a decoded composition is shown as a
    pictogram, unless it is the low floor attribute, which the entry
    icon shows, or the restaurant attribute of a closed or unserviced
    wagon. *)
Theorem decoded_attributes_shown s sections w a :
  parseFormationString s = Some sections ->
  In w (allWagonsOf sections) ->
  In a (attributes w) ->
  In (code a) (getWagonPictogramAttributes w)
  \/ code a = "NF"
  \/ (code a = "WR"
      /\ hasStatus "Closed" w || hasStatus "Open but unserviced" w = true).
Proof.
  intros H Hw Ha.
  destruct (decoded_attributes_wellFormed _ _ _ H Hw) as [_ K].
  rewrite Forall_forall in K. specialize (K a Ha).
  assert (C : In (code a)
                ["WR"; "BHP"; "BZ"; "FZ"; "KW"; "LA"; "NF"; "VH"; "VR";
                 "WL"; "CC"]).
  { destruct K as [->|K]; [now left|]. right.
    apply lookup_In in K.
    apply (in_map fst) in K. exact K. }
  unfold getWagonPictogramAttributes.
  assert (S : forall codes, codeIn codes (code a) = true ->
              In (code a)
                (map code (filter (fun attr => codeIn codes (code attr))
                             (attributes w)))).
  { intros codes E. apply in_map. apply filter_In. auto. }
  destruct (hasStatus "Open but unserviced" w), (hasStatus "Closed" w);
    cbn [orb];
    revert C S; generalize (code a); intros c C S;
    cbn [In] in C;
    repeat (destruct C as [<-|C];
            [first [ left; apply S; reflexivity
                   | right; left; reflexivity
                   | right; right; split; reflexivity ]|]);
    destruct C.
Qed.

Lemma decoded_attributes_shown_witness :
  exists sections,
    parseFormationString "@A[-WR:4#NF;BHP]" = Some sections
    /\ map getWagonPictogramAttributes (allWagonsOf sections) = [["BHP"]]
    /\ Forall (fun w =>
         Forall (fun a =>
           In (code a) (getWagonPictogramAttributes w)
           \/ code a = "NF"
           \/ (code a = "WR"
               /\ hasStatus "Closed" w
                  || hasStatus "Open but unserviced" w = true))
           (attributes w))
         (allWagonsOf sections).
Proof.
  exists_decoded "@A[-WR:4#NF;BHP]".
  split; [vm_compute; reflexivity|]. split; [vm_compute; reflexivity|].
  apply Forall_forall. intros w Hw. apply Forall_forall. intros a Ha.
  eapply (decoded_attributes_shown "@A[-WR:4#NF;BHP]");
    [vm_compute; reflexivity | exact Hw | exact Ha].
Defined.

(** ** The attribute groups of a wagon *)

Lemma filter_partition4 {A : Type} (p1 p2 p3 p4 : A -> bool) l :
  (forall x, In x l ->
     (p1 x, p2 x, p3 x, p4 x) = (true, false, false, false)
     \/ (p1 x, p2 x, p3 x, p4 x) = (false, true, false, false)
     \/ (p1 x, p2 x, p3 x, p4 x) = (false, false, true, false)
     \/ (p1 x, p2 x, p3 x, p4 x) = (false, false, false, true)) ->
  Permutation (filter p1 l ++ filter p2 l ++ filter p3 l ++ filter p4 l) l.
Proof.
  induction l as [|x l IH]; intros H; [constructor|].
  assert (IH' := IH (fun y Hy => H y (or_intror Hy))).
  cbn [filter].
  destruct (H x (or_introl eq_refl)) as [E|[E|[E|E]]];
    injection E as -> -> -> ->.
  - simpl. now constructor.
  - apply Permutation_sym.
    eapply Permutation_trans; [|apply Permutation_middle].
    constructor. now apply Permutation_sym.
  - apply Permutation_sym. rewrite app_assoc.
    eapply Permutation_trans; [|apply Permutation_middle].
    rewrite <- app_assoc. constructor. now apply Permutation_sym.
  - apply Permutation_sym. rewrite !app_assoc.
    eapply Permutation_trans; [|apply Permutation_middle].
    rewrite <- !app_assoc. constructor. now apply Permutation_sym.
Qed.

Lemma pushGroup_concat {A : Type} (group : list A) groups :
  concat (if (0 <? List.length group)%nat then (groups ++ [group])%list
          else groups)
  = (concat groups ++ group)%list
  /\ (Forall (fun g => g <> []) groups ->
      Forall (fun g => g <> [])
        (if (0 <? List.length group)%nat then (groups ++ [group])%list
         else groups)).
Proof.
  destruct group as [|x group]; simpl.
  - now rewrite app_nil_r.
  - rewrite concat_app. simpl. rewrite app_nil_r. split; auto.
    intros F. apply Forall_app. split; auto.
    constructor; [discriminate | constructor].
Qed.

(** X19: the attribute groups of the view sort the attributes and lose
    none: the groups together hold every attribute of the input
    exactly once, and no group is empty. *)
Theorem attribute_groups_partition attrs :
  Permutation (concat (getAttributeGroups attrs)) attrs
  /\ Forall (fun group => group <> []) (getAttributeGroups attrs).
Proof.
  unfold getAttributeGroups.
  set (p1 := fun attr => codeIn ["BHP"; "NF"; "KW"] (code attr)).
  set (p2 := fun attr => codeIn ["BZ"; "FZ"] (code attr)).
  set (p3 := fun attr => codeIn ["VH"; "VR"] (code attr)).
  set (p4 := fun attr =>
               negb (codeIn ["BHP"; "NF"; "KW"; "BZ"; "FZ"; "VH"; "VR"]
                       (code attr))).
  cbv zeta. split.
  - repeat match goal with
           | |- context [concat (if (0 <? List.length ?g)%nat
                                 then (?gs ++ [?g])%list else ?gs)] =>
               rewrite (proj1 (pushGroup_concat g gs))
           end.
    simpl. rewrite <- !app_assoc. apply filter_partition4.
    intros attr _. unfold p1, p2, p3, p4, codeIn. cbn [existsb].
    generalize (code attr). intros c.
    destruct (String.eqb_spec c "BHP") as [->|N1]; [auto|].
    destruct (String.eqb_spec c "NF") as [->|N2]; [auto|].
    destruct (String.eqb_spec c "KW") as [->|N3]; [auto|].
    destruct (String.eqb_spec c "BZ") as [->|N4]; [auto|].
    destruct (String.eqb_spec c "FZ") as [->|N5]; [auto|].
    destruct (String.eqb_spec c "VH") as [->|N6]; [auto|].
    destruct (String.eqb_spec c "VR") as [->|N7]; auto 6.
  - repeat apply (fun g gs => proj2 (pushGroup_concat g gs)). constructor.
Qed.

(** ** The width of the train *)

(** The widths of the sections, added up. *)
Definition sectorWidths (sections : list TrainSection) : Z :=
  fold_right (fun section acc => (getSectorWidth section + acc)%Z) 0%Z
    sections.

Lemma getSectorWidth_nonempty section :
  wagons section <> [] ->
  getSectorWidth section
  = (110 * Z.of_nat (List.length (wagons section)) - 10)%Z.
Proof.
  intros N. unfold getSectorWidth, WAGON_WIDTH, CONNECTOR_WIDTH.
  destruct (wagons section) as [|w ws]; [now elim N|].
  destruct (Z.eqb_spec (Z.of_nat (List.length (w :: ws))) 0) as [E|_];
    [discriminate|].
  cbv zeta. lia.
Qed.

Lemma sectorWidths_nonempty sections :
  Forall (fun section => wagons section <> []) sections ->
  sectorWidths sections
  = (110 * Z.of_nat (List.length (allWagonsOf sections))
     - 10 * Z.of_nat (List.length sections))%Z
  /\ List.length sections <= List.length (allWagonsOf sections).
Proof.
  unfold sectorWidths, allWagonsOf.
  induction 1 as [|sec rest Hs _ [IH1 IH2]]; [split; reflexivity|].
  cbn [fold_right flat_map List.length]. rewrite length_app, IH1.
  rewrite getSectorWidth_nonempty by exact Hs.
  destruct (wagons sec) as [|w ws]; [now elim Hs|].
  cbn [List.length]. split; lia.
Qed.

(** X20: the width of the line under a decoded composition is the widths
    of its sections, one connector between every two sections and one
    pixel of padding on either side; it depends on the number of
    wagons only, 110 pixels a wagon less 8, whatever the place of the
    locomotives. *)
Theorem train_width_decoded s sections :
  parseFormationString s = Some sections ->
  sections <> [] ->
  getTotalTrainWidth (Some sections)
  = (sectorWidths sections
     + CONNECTOR_WIDTH * (Z.of_nat (List.length sections) - 1) + 2)%Z
  /\ getTotalTrainWidth (Some sections)
     = (110 * Z.of_nat (List.length (allWagonsOf sections)) - 8)%Z.
Proof.
  intros H N.
  destruct (decoded_sections_shape _ _ H) as (NE & _).
  destruct (sectorWidths_nonempty _ NE) as [W L]. rewrite W.
  unfold getTotalTrainWidth, WAGON_WIDTH, CONNECTOR_WIDTH.
  rewrite getAllWagons_flat.
  assert (0 < List.length sections) by (destruct sections; simpl; [easy|lia]).
  destruct (Z.eqb_spec (Z.of_nat (List.length (allWagonsOf sections))) 0);
    [lia|].
  cbv zeta. lia.
Qed.

Lemma train_width_decoded_witness :
  exists sections,
    parseFormationString "@A[LK,1:1]@B[2:2]" = Some sections
    /\ map getSectorWidth sections = [210%Z; 100%Z]
    /\ getTotalTrainWidth (Some sections) = 322%Z
    /\ getTotalTrainWidth (Some sections)
       = (sectorWidths sections
          + CONNECTOR_WIDTH * (Z.of_nat (List.length sections) - 1) + 2)%Z.
Proof.
  exists_decoded "@A[LK,1:1]@B[2:2]".
  split; [vm_compute; reflexivity|]. split; [vm_compute; reflexivity|].
  split; [vm_compute; reflexivity|].
  apply (train_width_decoded "@A[LK,1:1]@B[2:2]");
    [vm_compute; reflexivity | discriminate].
Defined.

(** * The decoder as the engine runs it *)

(** ** What the engine returns is what the decoder computes *)

Section EngineRuns.

Variable maxArguments : nat.

Lemma engine_drainBrackets_returned fuel : forall segment k position m r,
  Engine.drainBrackets maxArguments fuel segment k position m = Returned r ->
  drainBrackets fuel segment k position m = Some r.
Proof.
  induction fuel as [|fuel IH]; intros segment k position m r H;
    simpl in H |- *;
    destruct (extractBracketContent segment "[" "]") as [x|];
    try discriminate; try (now injection H as <-).
  destruct (0 <? List.length (parseVehicleGroup x k position))%nat;
    [destruct (maxArguments <? List.length (parseVehicleGroup x k position))%nat;
     [discriminate|]|];
    now apply IH.
Qed.

Lemma engine_drainBrackets_runs fuel : forall segment k position m,
  String.length segment <= fuel ->
  Engine.drainBrackets maxArguments fuel segment k position m <> OutOfFuel.
Proof.
  induction fuel as [|fuel IH]; intros segment k position m Hf.
  - destruct segment; [|simpl in Hf; lia]. simpl. discriminate.
  - simpl. destruct (extractBracketContent segment "[" "]") as [x|] eqn:E;
      [|discriminate].
    pose proof (drain_step_shorter _ _ E) as Hs. simpl in Hs.
    destruct (0 <? List.length (parseVehicleGroup x k position))%nat;
      [destruct (maxArguments <? List.length (parseVehicleGroup x k position))%nat;
       [discriminate|]|];
      apply IH; lia.
Qed.

Lemma engine_processSegment_returned segment k position m r :
  Engine.processSegment maxArguments segment k position m = Returned r ->
  processSegment segment k position m = Some r.
Proof.
  unfold Engine.processSegment, processSegment.
  destruct (Engine.drainBrackets maxArguments (String.length segment) segment
              k position m) as [[[seg' pos'] m']| |] eqn:E; try discriminate.
  apply engine_drainBrackets_returned in E. rewrite E.
  now intros [= <-].
Qed.

Lemma engine_processSegment_runs segment k position m :
  Engine.processSegment maxArguments segment k position m <> OutOfFuel.
Proof.
  unfold Engine.processSegment.
  pose proof (engine_drainBrackets_runs (String.length segment) segment k
                position m (le_n _)) as R.
  destruct (Engine.drainBrackets maxArguments (String.length segment) segment
              k position m) as [[[seg' pos'] m']| |]; congruence.
Qed.

Lemma engine_processSectorSegment_returned st segment r :
  Engine.processSectorSegment maxArguments (Returned st) segment = Returned r ->
  processSectorSegment (Some st) segment = Some r.
Proof.
  destruct st as [[sector position] m].
  unfold Engine.processSectorSegment, processSectorSegment.
  destruct (negb (truthy (trim segment))); [now intros [= <-]|].
  destruct (sectorMatch segment) as [[i letter]|];
    match goal with |- context [Engine.processSegment _ ?a ?b ?c ?d] =>
      destruct (Engine.processSegment maxArguments a b c d)
        as [[p' m']| |] eqn:E
    end; try discriminate;
    apply engine_processSegment_returned in E; rewrite E; now intros [= <-].
Qed.

Lemma engine_processSectorSegment_runs st segment :
  Engine.processSectorSegment maxArguments (Returned st) segment <> OutOfFuel.
Proof.
  destruct st as [[sector position] m]. unfold Engine.processSectorSegment.
  destruct (negb (truthy (trim segment))); [discriminate|].
  destruct (sectorMatch segment) as [[i letter]|];
    match goal with |- context [Engine.processSegment _ ?a ?b ?c ?d] =>
      pose proof (engine_processSegment_runs a b c d) as R;
      destruct (Engine.processSegment maxArguments a b c d) as [[p' m']| |]
    end; congruence.
Qed.

Lemma engine_thrown_stays segments :
  fold_left (Engine.processSectorSegment maxArguments) segments RangeError
  = RangeError.
Proof. induction segments; simpl; auto. Qed.

Lemma engine_sectorSegments_returned segments : forall st r,
  fold_left (Engine.processSectorSegment maxArguments) segments (Returned st)
  = Returned r ->
  fold_left processSectorSegment segments (Some st) = Some r.
Proof.
  induction segments as [|seg rest IH]; intros st r H; cbn [fold_left] in *.
  - now injection H as <-.
  - destruct (Engine.processSectorSegment maxArguments (Returned st) seg)
      as [st'| |] eqn:E.
    + apply engine_processSectorSegment_returned in E. rewrite E. now apply IH.
    + rewrite engine_thrown_stays in H. discriminate.
    + now elim (engine_processSectorSegment_runs st seg).
Qed.

Lemma engine_sectorSegments_runs segments : forall st,
  fold_left (Engine.processSectorSegment maxArguments) segments (Returned st)
  <> OutOfFuel.
Proof.
  induction segments as [|seg rest IH]; intros st; cbn [fold_left].
  - discriminate.
  - destruct (Engine.processSectorSegment maxArguments (Returned st) seg)
      as [st'| |] eqn:E.
    + apply IH.
    + rewrite engine_thrown_stays. discriminate.
    + now elim (engine_processSectorSegment_runs st seg).
Qed.

Lemma engine_fillSectorMap_returned s m :
  Engine.fillSectorMap maxArguments s = Returned m ->
  fillSectorMap s = Some m.
Proof.
  unfold Engine.fillSectorMap, fillSectorMap.
  destruct (includes "@" s || backslashSector s).
  - destruct (fold_left (Engine.processSectorSegment maxArguments) _ _)
      as [[[a b] m']| |] eqn:E; try discriminate.
    apply engine_sectorSegments_returned in E. rewrite E. now intros [= <-].
  - match goal with |- context [Engine.processSegment _ ?a ?b ?c ?d] =>
      destruct (Engine.processSegment maxArguments a b c d)
        as [[p' m']| |] eqn:E
    end; try discriminate.
    apply engine_processSegment_returned in E. rewrite E. now intros [= <-].
Qed.

Lemma engine_fillSectorMap_runs s :
  Engine.fillSectorMap maxArguments s <> OutOfFuel.
Proof.
  unfold Engine.fillSectorMap.
  destruct (includes "@" s || backslashSector s).
  - match goal with |- context [fold_left ?f ?l (Returned ?st)] =>
      pose proof (engine_sectorSegments_runs l st) as R;
      destruct (fold_left f l (Returned st)) as [[[a b] m']| |]
    end; congruence.
  - match goal with |- context [Engine.processSegment _ ?a ?b ?c ?d] =>
      pose proof (engine_processSegment_runs a b c d) as R;
      destruct (Engine.processSegment maxArguments a b c d) as [[p' m']| |]
    end; congruence.
Qed.

(** What the decoder returns on the engine is what the decoder
    computes while every call is accepted. *)
Lemma engine_returned s sections :
  Engine.parseFormationString maxArguments s = Returned sections ->
  parseFormationString s = Some sections.
Proof.
  unfold Engine.parseFormationString, parseFormationString.
  destruct (negb (truthy s) || String.eqb (trim s) ""); [now intros [= <-]|].
  destruct (Engine.fillSectorMap maxArguments s) as [m| |] eqn:E;
    try discriminate.
  apply engine_fillSectorMap_returned in E. rewrite E. now intros [= <-].
Qed.

(** The decoder returns or throws: the bracket loop ends. *)
Lemma engine_runs s :
  Engine.parseFormationString maxArguments s <> OutOfFuel.
Proof.
  unfold Engine.parseFormationString.
  destruct (negb (truthy s) || String.eqb (trim s) ""); [discriminate|].
  pose proof (engine_fillSectorMap_runs s) as R.
  destruct (Engine.fillSectorMap maxArguments s); congruence.
Qed.

End EngineRuns.

(** ** The travel direction resolver *)

(** The sector letters of the sections as they are written: the
    sectors, in the order of the sections, without the blank ones. *)
Definition writtenSectors (sections : list TrainSection) : list string :=
  filter (fun k => negb (allWhiteSpace k)) (map sectionSector sections).
















Lemma written_not_blank sections k :
  In k (writtenSectors sections) -> k <> "".
Proof.
  unfold writtenSectors. rewrite filter_In. intros [_ H] ->. discriminate.
Qed.





(** ** A bracket group with more wagons than a call takes *)

(** [piece.repeat(n)]. *)
Fixpoint repeatString (piece : string) (n : nat) : string :=
  match n with
  | 0 => EmptyString
  | S n' => piece ++ repeatString piece n'
  end.

(** The formation string of sector A with one bracket group of [n]
    first class coaches: ['@A[' + '1,'.repeat(n) + ']']. *)
Definition crowdedGroup (n : nat) : string :=
  "@A[" ++ repeatString "1," n ++ "]".

Lemma tokenize_coaches n : forall tokens position,
  exists added,
    tokenizeLoop (repeatString "1," n) tokens "" position
    = (tokens ++ added)%list
    /\ List.length (filter isWagonToken added) = n.
Proof.
  induction n as [|n IH]; intros tokens position.
  - exists []. split; [simpl; now rewrite app_nil_r | reflexivity].
  - destruct (IH ((tokens ++ [mkToken VEHICLE "1" position])
                    ++ [mkToken COMMA "," (S position)])%list
                (S (S position))) as (added & E & L).
    exists (mkToken VEHICLE "1" position
            :: mkToken COMMA "," (S position) :: added).
    split.
    + change (tokenizeLoop (repeatString "1," (S n)) tokens "" position)
        with (tokenizeLoop (repeatString "1," n)
                ((tokens ++ [mkToken VEHICLE "1" position])
                 ++ [mkToken COMMA "," (S position)])%list ""
                (S (S position))).
      rewrite E, <- !app_assoc. reflexivity.
    + cbn [filter isWagonToken tokType TokenType_eqb orb List.length].
      now rewrite L.
Qed.

Lemma coaches_decoded n sector position :
  List.length (parseVehicleGroup (repeatString "1," n) sector position) = n.
Proof.
  unfold parseVehicleGroup.
  destruct (tokenize_numbered_wellKinded (repeatString "1," n)) as [_ K].
  match goal with |- context [groupLoop ?t ?i ?l ?ga ?hp sector _ []] =>
    pose proof (groupLoop_positions t i l ga hp sector position [] K) as E
  end.
  apply (f_equal (@List.length nat)) in E.
  rewrite length_map in E. rewrite E. simpl. rewrite length_seq.
  unfold tokenizeFormationString.
  destruct (tokenize_coaches n [] 0) as (added & -> & L). exact L.
Qed.

Lemma coaches_balanced n : balanced "[" "]" (repeatString "1," n).
Proof. unfold balanced. induction n; simpl; auto. Qed.

Lemma coaches_no_at n : includes "@" (repeatString "1," n ++ "]") = false.
Proof. induction n; simpl; auto. Qed.

Lemma splitBeforeSectors_no_at : forall s cur,
  includes "@" s = false -> splitBeforeSectors s cur = [cur ++ s].
Proof.
  induction s as [|c s IH]; intros cur H; cbn [splitBeforeSectors].
  - now rewrite append_nil_r_string.
  - cbn [includes prefix] in H. apply orb_false_elim in H as [H1 H2].
    assert (N : sectorAhead (String c s) = false).
    { revert H1. destruct (ascii_dec "@" c) as [<-|N];
        [intros H1; now destruct s|].
      intros _. cbn [sectorAhead]. destruct s; auto.
      destruct (Ascii.eqb_spec c "@"); [congruence | reflexivity]. }
    rewrite N. cbn [andb]. rewrite IH by exact H2.
    now rewrite append_assoc_string.
Qed.

Lemma trim_not_blank c s :
  isWhiteSpace c = false -> String.eqb (trim (String c s)) "" = false.
Proof.
  intros H. unfold trim. cbn [dropWhile]. rewrite H. cbn [trimEnd].
  rewrite H. reflexivity.
Qed.

Lemma indexOfString_prefix needle s i :
  prefix needle s = true -> indexOfString needle s i = Z.of_nat i.
Proof. intros H. destruct s; cbn [indexOfString]; now rewrite H. Qed.

(** The decoder throws on a group that holds more wagons than a call
    takes arguments. *)
Lemma crowdedGroup_thrown maxArguments n :
  maxArguments < n ->
  Engine.parseFormationString maxArguments (crowdedGroup n) = RangeError.
Proof.
  intros Hn. unfold crowdedGroup.
  set (content := repeatString "1," n).
  change ("@A[" ++ content ++ "]")
    with (String "@" (String "A" (String "[" (content ++ "]")))).
  unfold Engine.parseFormationString.
  rewrite trim_not_blank by reflexivity. cbn [truthy negb orb].
  unfold Engine.fillSectorMap.
  change (includes "@" (String "@" (String "A" (String "[" (content ++ "]")))))
    with true.
  cbn [orb].
  assert (S1 : splitBeforeSectors
                 (String "@" (String "A" (String "[" (content ++ "]")))) ""
               = [String "@" (String "A" (String "[" (content ++ "]")))]).
  { change (splitBeforeSectors
              (String "@" (String "A" (String "[" (content ++ "]")))) "")
      with (splitBeforeSectors (String "A" (String "[" (content ++ "]"))) "@").
    rewrite splitBeforeSectors_no_at; [reflexivity|].
    change (includes "@" (String "A" (String "[" (content ++ "]"))))
      with (includes "@" (content ++ "]")).
    apply coaches_no_at. }
  rewrite S1. cbn [fold_left]. unfold Engine.processSectorSegment.
  assert (T : negb (truthy (trim (String "@" (String "A"
                (String "[" (content ++ "]")))))) = false).
  { pose proof (trim_not_blank "@" (String "A" (String "[" (content ++ "]")))
                  eq_refl) as T.
    destruct (trim _); [discriminate | reflexivity]. }
  rewrite T.
  change (sectorMatch (String "@" (String "A" (String "[" (content ++ "]")))))
    with (Some (0, "A")).
  change (String "@" (String "A" (String "[" (content ++ "]"))))
    with (("@" ++ "A") ++ String "[" (content ++ "]")).
  cbv beta iota zeta.
  rewrite indexOfString_prefix by apply prefix_app.
  rewrite substringFrom_drop.
  change (Z.to_nat (Z.of_nat 0 + 2)) with (String.length ("@" ++ "A")).
  rewrite drop_app_length.
  unfold Engine.processSegment.
  assert (X : extractBracketContent (String "[" (content ++ "]")) "[" "]"
              = Some content).
  { assert (N : "["%char <> "]"%char) by discriminate.
    apply (extractLoop_skips "[" "]" N _ "" "" content "");
      [reflexivity | reflexivity | apply coaches_balanced]. }
  cbn [String.length Engine.drainBrackets]. rewrite X. cbv zeta.
  subst content. rewrite !coaches_decoded.
  destruct n as [|n]; [lia|].
  apply Nat.ltb_lt in Hn. rewrite Hn. reflexivity.
Qed.

(** ** Formation strings the engine decodes *)

Lemma tokens_not_empty s :
  Forall (fun t => tokValue t <> "") (tokenizeFormationString s).
Proof.
  set (Inv := fun tokens (cur : string) (pos : nat) (rest : string) =>
                Forall (fun t => tokValue t <> "") tokens).
  assert (T : exists pos', Inv (tokenizeFormationString s) "" pos' "").
  { apply tokenize_Inv; unfold Inv.
    - intros tokens cur pos rest H. unfold flush.
      destruct (truthy cur) eqn:T; simpl; auto.
      apply Forall_app. split; auto. constructor; [|constructor].
      rewrite createToken_value. intros E. subst cur. discriminate.
    - intros ty v tokens pos rest Hd H.
      apply Forall_app. split; auto. constructor; [|constructor]. simpl.
      destruct Hd as [Hd|(_ & c & _ & ->)]; [|discriminate].
      simpl in Hd.
      repeat (destruct Hd as [[= _ <-]|Hd]; [discriminate|]). destruct Hd.
    - auto.
    - constructor. }
  now destruct T.
Qed.

Lemma tokens_count tokens :
  Forall (fun t => tokValue t <> "") tokens ->
  List.length tokens <= String.length (tokenText tokens).
Proof.
  induction 1 as [|t tokens Ht _ IH]; [apply Nat.le_0_l|].
  change (tokenText (t :: tokens)) with (tokValue t ++ tokenText tokens).
  rewrite length_append_string. simpl.
  destruct (tokValue t); [now elim Ht | simpl; lia].
Qed.

Lemma groupLoop_count tokens : forall i len ga hp sector position ws,
  List.length (groupLoop tokens i len ga hp sector position ws)
  <= List.length ws + List.length tokens.
Proof.
  induction tokens as [|t rest IH]; intros i len ga hp sector position ws;
    cbn [groupLoop List.length]; [lia|].
  destruct (TokenType_eqb (tokType t) SECTOR);
    [etransitivity; [apply IH | lia]|].
  destruct (negb (TokenType_eqb (tokType t) VEHICLE)
            && negb (TokenType_eqb (tokType t) FICTITIOUS_WAGON));
    [etransitivity; [apply IH | lia]|].
  destruct (parseVehicleToken (tokValue t) sector position);
    (etransitivity; [apply IH|]); [rewrite length_app; simpl|]; lia.
Qed.

(** A group has no more wagons than its content has characters. *)
Lemma group_size content sector position :
  List.length (parseVehicleGroup content sector position)
  <= String.length content.
Proof.
  unfold parseVehicleGroup.
  etransitivity; [apply groupLoop_count|]. simpl.
  etransitivity; [apply tokens_count, tokens_not_empty|].
  now rewrite tokenize_text.
Qed.

Lemma extracted_shorter segment x :
  extractBracketContent segment "[" "]" = Some x ->
  String.length x < String.length segment.
Proof.
  intros H. unfold extractBracketContent in H.
  destruct (extractLoop_outside "[" "]" segment segment "" 0%Z x eq_refl H)
    as (pre & post & E & _).
  rewrite E, !length_append_string. cbn [String.length].
  rewrite length_append_string. cbn [String.length]. lia.
Qed.

Section WithinLimit.

Variable maxArguments : nat.

Lemma engine_drainBrackets_accepts fuel : forall segment k position m,
  String.length segment <= maxArguments ->
  Engine.drainBrackets maxArguments fuel segment k position m <> RangeError.
Proof.
  induction fuel as [|fuel IH]; intros segment k position m L; simpl;
    destruct (extractBracketContent segment "[" "]") as [x|] eqn:E;
    try discriminate.
  pose proof (drain_step_shorter _ _ E) as Hs. simpl in Hs.
  pose proof (extracted_shorter _ _ E) as Hx.
  pose proof (group_size x k position) as Hg.
  destruct (0 <? List.length (parseVehicleGroup x k position))%nat.
  - destruct (maxArguments <? List.length (parseVehicleGroup x k position))%nat
      eqn:T; [apply Nat.ltb_lt in T; lia|].
    apply IH. lia.
  - apply IH. lia.
Qed.

Lemma engine_processSegment_accepts segment k position m :
  String.length segment <= maxArguments ->
  Engine.processSegment maxArguments segment k position m <> RangeError.
Proof.
  intros L. unfold Engine.processSegment.
  pose proof (engine_drainBrackets_accepts (String.length segment) segment k
                position m L) as R.
  destruct (Engine.drainBrackets maxArguments (String.length segment) segment
              k position m) as [[[seg' pos'] m']| |]; congruence.
Qed.

Lemma engine_processSectorSegment_accepts st segment :
  String.length segment <= maxArguments ->
  Engine.processSectorSegment maxArguments (Returned st) segment
  <> RangeError.
Proof.
  intros L. destruct st as [[sector position] m].
  unfold Engine.processSectorSegment.
  destruct (negb (truthy (trim segment))); [discriminate|].
  destruct (sectorMatch segment) as [[i letter]|];
    match goal with |- context [Engine.processSegment _ ?a ?b ?c ?d] =>
      assert (La : String.length a <= maxArguments);
      [|pose proof (engine_processSegment_accepts a b c d La) as R;
        destruct (Engine.processSegment maxArguments a b c d) as [[p' m']| |];
        congruence]
    end; auto.
  rewrite substringFrom_drop, length_drop. lia.
Qed.

Lemma engine_sectorSegments_accept segments : forall st,
  Forall (fun segment => String.length segment <= maxArguments) segments ->
  fold_left (Engine.processSectorSegment maxArguments) segments (Returned st)
  <> RangeError.
Proof.
  induction segments as [|seg rest IH]; intros st F; cbn [fold_left].
  - discriminate.
  - inversion F as [|? ? L F']; subst.
    destruct (Engine.processSectorSegment maxArguments (Returned st) seg)
      as [st'| |] eqn:E.
    + now apply IH.
    + now elim (engine_processSectorSegment_accepts st seg L).
    + now elim (engine_processSectorSegment_runs maxArguments st seg).
Qed.

Lemma splitBeforeSectors_lengths : forall s cur,
  Forall (fun segment =>
            String.length segment <= String.length cur + String.length s)
    (splitBeforeSectors s cur).
Proof.
  induction s as [|c s IH]; intros cur; cbn [splitBeforeSectors].
  - constructor; [simpl; lia | constructor].
  - destruct (sectorAhead (String c s) && truthy cur).
    + constructor; [simpl; lia|].
      eapply Forall_impl; [|apply (IH (String c ""))].
      cbv beta. simpl. intros seg H. lia.
    + eapply Forall_impl; [|apply (IH (cur ++ String c ""))].
      cbv beta. intros seg H. rewrite length_append_string in H.
      simpl in *. lia.
Qed.

(** A formation string no longer than a call takes arguments is
    decoded without a throw. *)
Lemma engine_accepts s :
  String.length s <= maxArguments ->
  Engine.parseFormationString maxArguments s <> RangeError.
Proof.
  intros L. unfold Engine.parseFormationString.
  destruct (negb (truthy s) || String.eqb (trim s) ""); [discriminate|].
  assert (R : Engine.fillSectorMap maxArguments s <> RangeError).
  { unfold Engine.fillSectorMap.
    destruct (includes "@" s || backslashSector s).
    - match goal with |- context [fold_left ?f ?l (Returned ?st)] =>
        assert (F : fold_left f l (Returned st) <> RangeError);
        [|destruct (fold_left f l (Returned st)) as [[[a b] m']| |];
          congruence]
      end.
      apply engine_sectorSegments_accept.
      eapply Forall_impl; [|apply splitBeforeSectors_lengths].
      cbv beta. simpl. intros seg H. lia.
    - match goal with |- context [Engine.processSegment _ ?a ?b ?c ?d] =>
        assert (La : String.length a <= maxArguments);
        [|pose proof (engine_processSegment_accepts a b c d La) as R;
          destruct (Engine.processSegment maxArguments a b c d)
            as [[p' m']| |]; congruence]
      end.
      destruct (extractBracketContent s "[" "]") as [c|] eqn:X; auto.
      destruct (truthy c); auto.
      apply extracted_shorter in X. lia. }
  destruct (Engine.fillSectorMap maxArguments s); congruence.
Qed.

End WithinLimit.

(** C8, where the code departs from it: a formation string with one
    bracket group of more wagons than the engine takes arguments in
    one call, ['@A[' + '1,'.repeat(n) + ']'] with [n] above the limit,
    makes [sectorWagons.push(...wagons)] throw, and the [RangeError]
    leaves the decoder; the same coaches written as loose tokens are
    pushed one at a time and decoded. *)
Theorem C8_spread_refused :
  (forall maxArguments k,
     Engine.parseFormationString maxArguments
       (crowdedGroup (S (maxArguments + k)))
     = RangeError)
  /\ crowdedGroup 3 = "@A[1,1,1,]"
  /\ Engine.parseFormationString 2 "@A[1,1,1,]" = RangeError
  /\ exists sections,
       Engine.parseFormationString 2 "@A,1,1,1," = Returned sections
       /\ List.length (allWagonsOf sections) = 3.
Proof.
  split; [intros maxArguments k; apply crowdedGroup_thrown; lia|].
  split; [reflexivity|]. split; [vm_compute; reflexivity|].
  match eval vm_compute in (Engine.parseFormationString 2 "@A,1,1,1,") with
  | Returned ?sections => exists sections
  end.
  split; vm_compute; reflexivity.
Qed.

(** * Positions, the fictitious marker and the limit of a call *)

(** X21: the wagons of a decoded composition, read section after
    section, carry the positions 0, 1, ..., n-1, n being the number of
    wagons the decoder returns, the wagon it makes of a fictitious
    marker inside a bracket group included. *)
Theorem decoded_positions_contiguous s sections :
  parseFormationString s = Some sections ->
  map position (allWagonsOf sections)
  = seq 0 (List.length (allWagonsOf sections)).
Proof. apply decoded_positions. Qed.

Lemma decoded_positions_contiguous_witness :
  exists sections,
    parseFormationString "@A[1:1]F@B[2:2]" = Some sections
    /\ option_map (fun m => map position (allWagonsOf (toSections m)))
         (fillSectorMap "@A[1:1]F@B[2:2]") = Some [0; 2]
    /\ map position (allWagonsOf sections) = [0; 1]
    /\ map position (allWagonsOf sections)
       = seq 0 (List.length (allWagonsOf sections)).
Proof.
  exists_decoded "@A[1:1]F@B[2:2]".
  split; [vm_compute; reflexivity|]. split; [vm_compute; reflexivity|].
  split; [vm_compute; reflexivity|].
  apply (decoded_positions_contiguous "@A[1:1]F@B[2:2]").
  vm_compute. reflexivity.
Defined.

(** X22: an [F] the tokenizer meets while its buffer is empty is
    pushed at once as a FictitiousWagon token, whatever follows, and
    so no Vehicle token of any string starts with [F]. *)
Theorem tokenizer_fictitious :
  (forall rest tokens position,
     tokenizeLoop (String "F" rest) tokens "" position
     = tokenizeLoop rest
         (tokens ++ [mkToken FICTITIOUS_WAGON "F" position]) ""
         (S position))
  /\ (forall s t,
        In t (tokenizeFormationString s) ->
        tokType t = VEHICLE -> startsWithF t = false).
Proof. split; [reflexivity | exact tokenize_noVehicleF]. Qed.

Lemma tokenizer_fictitious_witness :
  map (fun t => (tokType t, tokValue t)) (tokenizeFormationString "FA:1,2F")
  = [(FICTITIOUS_WAGON, "F"); (VEHICLE, "A:1"); (COMMA, ",");
     (VEHICLE, "2F")]
  /\ startsWithF (mkToken VEHICLE "A:1" 1) = false.
Proof.
  split; [vm_compute; reflexivity|].
  apply (proj2 tokenizer_fictitious "FA:1,2F").
  - vm_compute. auto.
  - reflexivity.
Defined.

(** X23: on an engine that takes [maxArguments] arguments in a call
    the decoder always ends, by a return or by the throw of the spread
    call; it returns the empty list for a blank string; it returns
    for every formation string of at most [maxArguments] characters;
    and what it returns is what the decoder computes while every call
    is accepted. *)
Theorem decoder_returns_within_limit maxArguments s :
  Engine.parseFormationString maxArguments s <> OutOfFuel
  /\ (allWhiteSpace s = true ->
      Engine.parseFormationString maxArguments s = Returned [])
  /\ (String.length s <= maxArguments ->
      exists sections,
        Engine.parseFormationString maxArguments s = Returned sections)
  /\ (forall sections,
        Engine.parseFormationString maxArguments s = Returned sections ->
        parseFormationString s = Some sections).
Proof.
  split; [apply engine_runs|]. split; [|split].
  - intros H. apply allWhiteSpace_trim in H.
    unfold Engine.parseFormationString. rewrite H. simpl.
    now rewrite orb_true_r.
  - intros L. pose proof (engine_runs maxArguments s) as R.
    pose proof (engine_accepts maxArguments s L) as A.
    destruct (Engine.parseFormationString maxArguments s); [eauto| |];
      congruence.
  - apply engine_returned.
Qed.

Lemma decoder_returns_within_limit_witness :
  Engine.parseFormationString 12 "  " = Returned []
  /\ (exists sections,
        Engine.parseFormationString 12 "[[1:1]]]][2" = Returned sections)
  /\ parseFormationString "@A[1,1,1,]"
     = match Engine.parseFormationString 3 "@A[1,1,1,]" with
       | Returned sections => Some sections
       | _ => None
       end.
Proof.
  split; [|split].
  - apply (proj1 (proj2 (decoder_returns_within_limit 12 "  "))).
    reflexivity.
  - apply (proj1 (proj2 (proj2 (decoder_returns_within_limit 12
                                   "[[1:1]]]][2")))).
    vm_compute. lia.
  - match eval vm_compute in (Engine.parseFormationString 3 "@A[1,1,1,]") with
    | Returned ?sections =>
        pose proof (proj2 (proj2 (proj2 (decoder_returns_within_limit 3
                      "@A[1,1,1,]"))) sections) as H
    end.
    rewrite H; vm_compute; reflexivity.
Defined.
